(** * cloudfrontgate: the trusted-range store and the request gate

    A shallow embedding of [cloudfrontgate.go].  The functions of the Go
    standard library that the plugin calls ([strings.Split],
    [strings.Contains], [net.ParseIP], [net.ParseCIDR], [net.IPNet.Contains],
    [time.ParseDuration]) are embedded from the Go 1.22 library sources, each
    in a module named after its package.  A Go [string] is a Rocq [string]
    (a sequence of bytes), a Go [byte] is a [Z] in [0, 256) and a Go slice is
    a list.  A result that the code tests against [nil], and a result that
    comes with an error, is an [option]; a [nil] slice that is only stored or
    measured is the empty list. *)

From Stdlib Require Import ZArith List String Ascii Bool Lia.
From Stdlib Require Import Floats Uint63.
Import ListNotations.
Open Scope string_scope.
Open Scope list_scope.
Open Scope Z_scope.

(** ** Bytes of a string *)

Definition code (c : ascii) : Z := Z.of_N (N_of_ascii c).

(** ['0' <= c && c <= '9'] *)
Definition isDigit (c : ascii) : bool := (48 <=? code c) && (code c <=? 57).

(** [len(s)] *)
Definition len (s : string) : Z := Z.of_nat (String.length s).

(** [s[:n]] and [s[n:]] *)
Fixpoint take (n : nat) (s : string) : string :=
  match n, s with
  | S n', String c s' => String c (take n' s')
  | _, _ => EmptyString
  end.

Fixpoint drop (n : nat) (s : string) : string :=
  match n, s with
  | S n', String _ s' => drop n' s'
  | _, _ => s
  end.

(** ** Package [strings] *)

Module strings.

(** [strings.HasPrefix(s, prefix)] *)
Fixpoint HasPrefix (s prefix : string) : bool :=
  match prefix, s with
  | EmptyString, _ => true
  | String p prefix', String c s' => Ascii.eqb p c && HasPrefix s' prefix'
  | String _ _, EmptyString => false
  end.

(** [strings.Index(s, substr)]: the index of the first instance of [substr]
    in [s]; [None] is Go's [-1]. *)
Fixpoint Index (s substr : string) : option nat :=
  if HasPrefix s substr then Some O
  else match s with
       | EmptyString => None
       | String _ s' => option_map S (Index s' substr)
       end.

(** [strings.Contains(s, substr)] is [Index(s, substr) >= 0]. *)
Definition Contains (s substr : string) : bool :=
  match Index s substr with Some _ => true | None => false end.

(** The loop of [genSplit] for a separator that is not empty: cut at each
    instance of [sep]; the rest of the string is the last element.  Each
    round removes at least one byte, so [fuel] above the length of [s] is
    never exhausted. *)
Fixpoint genSplit (fuel : nat) (s sep : string) : list string :=
  match fuel with
  | O => [s]
  | S fuel' =>
      match Index s sep with
      | None => [s]
      | Some m => take m s :: genSplit fuel' (drop (m + String.length sep) s) sep
      end
  end.

(** [explode]: the split of [s] at an empty separator, one element per
    character.  Only single-byte characters are modelled. *)
Fixpoint explode (s : string) : list string :=
  match s with
  | EmptyString => []
  | String c s' => String c EmptyString :: explode s'
  end.

(** [strings.Split(s, sep)], that is [genSplit(s, sep, 0, -1)]. *)
Definition Split (s sep : string) : list string :=
  match sep with
  | EmptyString => explode s
  | _ => genSplit (S (String.length s)) s sep
  end.

End strings.

(** ** Package [net/netip] *)

Module netip.

(** [bytealg.IndexByteString(s, c)]; [None] is Go's [-1]. *)
Fixpoint IndexByteString (s : string) (c : ascii) : option nat :=
  match s with
  | EmptyString => None
  | String x s' => if Ascii.eqb x c then Some O else option_map S (IndexByteString s' c)
  end.

(** An [Addr] is a 4-byte IPv4 address or a 16-byte IPv6 address with its
    zone. *)
Inductive Addr : Type :=
| Addr4 (b : list Z)
| Addr6 (b : list Z) (zone : string).

Definition Zone (a : Addr) : string :=
  match a with Addr4 _ => EmptyString | Addr6 _ z => z end.

Definition BitLen (a : Addr) : Z :=
  match a with Addr4 _ => 32 | Addr6 _ _ => 128 end.

Definition v4InV6Prefix : list Z := [0; 0; 0; 0; 0; 0; 0; 0; 0; 0; 255; 255].

(** [As16]: an IPv4 address becomes its IPv4-mapped IPv6 form. *)
Definition As16 (a : Addr) : list Z :=
  match a with Addr4 b => v4InV6Prefix ++ b | Addr6 b _ => b end.

(** The loop of [parseIPv4] over the bytes not yet read.  [fields] holds
    [fields[0:pos]], so [pos] is its length; [first] says that the byte read
    is [s[0]] and [prevDot] that [s[i-1]] is a dot. *)
Fixpoint parseIPv4_loop (s : string) (first prevDot : bool)
    (fields : list Z) (val digLen : Z) : option (list Z) :=
  match s with
  | EmptyString =>
      if (Z.of_nat (List.length fields) <? 3) then None
      else Some (fields ++ [val])
  | String c s' =>
      if isDigit c then
        if (digLen =? 1) && (val =? 0) then None
        else
          let val := val * 10 + code c - 48 in
          if val >? 255 then None
          else parseIPv4_loop s' false false fields val (digLen + 1)
      else if Ascii.eqb c "."%char then
        if first || (String.length s' =? 0)%nat || prevDot then None
        else if (Z.of_nat (List.length fields) =? 3) then None
        else parseIPv4_loop s' false true (fields ++ [val]) 0 0
      else None
  end.

Definition parseIPv4 (s : string) : option Addr :=
  option_map Addr4 (parseIPv4_loop s true false [] 0 0).

(** [off < len(s) && s[off] == '.'] on the rest [s[off:]] *)
Definition HasDot (rest : string) : bool :=
  match rest with
  | String c _ => Ascii.eqb c "."%char
  | EmptyString => false
  end.

Definition isNone {A} (o : option A) : bool :=
  match o with None => true | Some _ => false end.

Definition isSome {A} (o : option A) : bool := negb (isNone o).

(** The value of a hexadecimal digit, [None] for any other byte. *)
Definition hexDigit (c : ascii) : option Z :=
  let x := code c in
  if (48 <=? x) && (x <=? 57) then Some (x - 48)
  else if (97 <=? x) && (x <=? 102) then Some (x - 97 + 10)
  else if (65 <=? x) && (x <=? 70) then Some (x - 65 + 10)
  else None.

(** The inner loop of [parseIPv6]: one group of hexadecimal digits.  The
    result is [(off, acc, s[off:])] at the first byte that is not a digit;
    a fifth digit or a value above [0xffff] is an error. *)
Fixpoint hexGroup (s : string) (off : Z) (acc : Z) : option (Z * Z * string) :=
  match s with
  | EmptyString => Some (off, acc, s)
  | String c s' =>
      match hexDigit c with
      | None => Some (off, acc, s)
      | Some d =>
          let acc := Z.shiftl acc 4 + d in
          if off >? 3 then None
          else if acc >? 65535 then None
          else hexGroup s' (off + 1) acc
      end
  end.

(** The outer loop of [parseIPv6], [for i < 16].  [ip] holds the bytes
    [ip[0:i]] written so far, so [i] is its length; [ellipsis] is [None] for
    Go's [-1].  Every round that goes on writes two bytes, so eight rounds
    reach [i = 16].  The result is the state [(s, ip, ellipsis)] at the end
    of the loop. *)
Fixpoint parseIPv6_loop (fuel : nat) (s : string) (ip : list Z)
    (ellipsis : option nat) : option (string * list Z * option nat) :=
  match fuel with
  | O => Some (s, ip, ellipsis)
  | S fuel' =>
      let i := List.length ip in
      if (16 <=? i)%nat then Some (s, ip, ellipsis)
      else
        match hexGroup s 0 0 with
        | None => None
        | Some (off, acc, rest) =>
            if off =? 0 then None
            else if HasDot rest then
              (* followed by a dot: a trailing IPv4 address *)
              if isNone ellipsis && negb (i =? 12)%nat then None
              else if (16 <? i + 4)%nat then None
              else
                match parseIPv4_loop s true false [] 0 0 with
                | None => None
                | Some ip4 => Some (EmptyString, ip ++ ip4, ellipsis)
                end
            else
              (* save this 16-bit chunk *)
              let ip := ip ++ [Z.shiftr acc 8; Z.land acc 255] in
              let i := List.length ip in
              match rest with
              | EmptyString => Some (rest, ip, ellipsis)
              | String c s1 =>
                  if negb (Ascii.eqb c ":"%char) then None
                  else
                    match s1 with
                    | EmptyString => None
                    | String c1 s2 =>
                        if Ascii.eqb c1 ":"%char then
                          (* an ellipsis *)
                          if negb (isNone ellipsis) then None
                          else
                            match s2 with
                            | EmptyString => Some (s2, ip, Some i)
                            | _ => parseIPv6_loop fuel' s2 ip (Some i)
                            end
                        else parseIPv6_loop fuel' s1 ip ellipsis
                    end
              end
        end
  end.

(** [parseIPv6]: the zone is split off first, then a leading ellipsis, then
    the groups; an ellipsis is expanded to the zero bytes that are missing. *)
Definition parseIPv6 (input : string) : option Addr :=
  let '(s, zone, zoneOk) :=
    match IndexByteString input "%"%char with
    | Some i =>
        let zone := drop (S i) input in
        (take i input, zone, negb (String.length zone =? 0)%nat)
    | None => (input, EmptyString, true)
    end in
  if negb zoneOk then None
  else
    let '(s, ellipsis) :=
      match s with
      | String ":" (String ":" s') => (s', Some O)
      | _ => (s, None)
      end in
    if isSome ellipsis && (String.length s =? 0)%nat
    then Some (Addr6 (repeat 0 16) zone)
    else
      match parseIPv6_loop 8 s [] ellipsis with
      | None => None
      | Some (s, ip, ellipsis) =>
          let i := List.length ip in
          if negb (String.length s =? 0)%nat then None
          else if (i <? 16)%nat then
            match ellipsis with
            | None => None
            | Some e =>
                let n := (16 - i)%nat in
                Some (Addr6 (firstn e ip ++ repeat 0 n ++ skipn e ip) zone)
            end
          else if isSome ellipsis then None
          else Some (Addr6 ip zone)
      end.

(** [ParseAddr]: the first dot, colon or percent sign decides how the whole
    of [s] is parsed. *)
Fixpoint ParseAddr_scan (rest s : string) : option Addr :=
  match rest with
  | EmptyString => None
  | String c rest' =>
      if Ascii.eqb c "."%char then parseIPv4 s
      else if Ascii.eqb c ":"%char then parseIPv6 s
      else if Ascii.eqb c "%"%char then None
      else ParseAddr_scan rest' s
  end.

Definition ParseAddr (s : string) : option Addr := ParseAddr_scan s s.

End netip.

(** ** Package [net] *)

Module net.

(** [IP] and [IPMask] are byte slices; the [nil] slice is the empty list. *)
Definition IP : Type := list Z.
Definition IPMask : Type := list Z.

Record IPNet : Type := mkIPNet { IPNet_IP : IP; IPNet_Mask : IPMask }.

Definition IPv4len : nat := 4.
Definition IPv6len : nat := 16.

(** [parseIP] and [ParseIP]: the 16-byte form of the address; an address
    with a zone is refused.  [None] is the [nil] IP. *)
Definition ParseIP (s : string) : option IP :=
  match netip.ParseAddr s with
  | Some ip =>
      if negb (String.length (netip.Zone ip) =? 0)%nat then None
      else Some (netip.As16 ip)
  | None => None
  end.

Definition isZeros (p : list Z) : bool := forallb (Z.eqb 0) p.

Definition allFF (b : list Z) : bool := forallb (Z.eqb 255) b.

(** [bytealg.Equal] *)
Fixpoint bytesEqual (a b : list Z) : bool :=
  match a, b with
  | [], [] => true
  | x :: a', y :: b' => (x =? y) && bytesEqual a' b'
  | _, _ => false
  end.

(** [ip.To4()]; [None] is [nil]. *)
Definition To4 (ip : IP) : option IP :=
  if (List.length ip =? IPv4len)%nat then Some ip
  else if (List.length ip =? IPv6len)%nat
          && isZeros (firstn 10 ip)
          && (nth 10 ip 0 =? 255)
          && (nth 11 ip 0 =? 255)
  then Some (skipn 12 ip)
  else None.

(** The loop of [CIDRMask] over the [l] bytes of the mask, with [n] the
    one bits still to write. *)
Fixpoint CIDRMask_loop (l : nat) (n : Z) : IPMask :=
  match l with
  | O => []
  | S l' =>
      if n >=? 8 then 255 :: CIDRMask_loop l' (n - 8)
      else Z.lxor 255 (Z.shiftr 255 n) :: CIDRMask_loop l' 0
  end.

(** [CIDRMask(ones, bits)]; the empty list is [nil]. *)
Definition CIDRMask (ones bits : Z) : IPMask :=
  if negb (bits =? 8 * Z.of_nat IPv4len) && negb (bits =? 8 * Z.of_nat IPv6len) then []
  else if (ones <? 0) || (ones >? bits) then []
  else CIDRMask_loop (Z.to_nat (bits / 8)) ones.

(** [out[i] = ip[i] & mask[i]] for two slices of one length *)
Fixpoint andBytes (ip mask : list Z) : list Z :=
  match ip, mask with
  | x :: ip', m :: mask' => Z.land x m :: andBytes ip' mask'
  | _, _ => []
  end.

(** [ip.Mask(mask)]; the empty list is [nil]. *)
Definition Mask (ip : IP) (mask : IPMask) : IP :=
  let mask :=
    if (List.length mask =? IPv6len)%nat && (List.length ip =? IPv4len)%nat
       && allFF (firstn 12 mask)
    then skipn 12 mask else mask in
  let ip :=
    if (List.length mask =? IPv4len)%nat && (List.length ip =? IPv6len)%nat
       && bytesEqual (firstn 12 ip) netip.v4InV6Prefix
    then skipn 12 ip else ip in
  if negb (List.length ip =? List.length mask)%nat then []
  else andBytes ip mask.

Definition big : Z := 16777215.

(** The loop of [dtoi]: the decimal number at the start of [s], the number of
    bytes read and whether it is a number below [big]. *)
Fixpoint dtoi_loop (s : string) (n i : Z) : Z * Z * bool :=
  match s with
  | String c s' =>
      if isDigit c then
        let n := n * 10 + (code c - 48) in
        if n >=? big then (big, i, false)
        else dtoi_loop s' n (i + 1)
      else if i =? 0 then (0, 0, false) else (n, i, true)
  | EmptyString => if i =? 0 then (0, 0, false) else (n, i, true)
  end.

Definition dtoi (s : string) : Z * Z * bool := dtoi_loop s 0 0.

(** [ParseCIDR(s)]: the network of the result ([None] is the error). *)
Definition ParseCIDR (s : string) : option IPNet :=
  match netip.IndexByteString s "/"%char with
  | None => None
  | Some i =>
      let addr := take i s in
      let mask := drop (S i) s in
      match netip.ParseAddr addr with
      | None => None
      | Some ipAddr =>
          if negb (String.length (netip.Zone ipAddr) =? 0)%nat then None
          else
            let '(n, i, ok) := dtoi mask in
            if negb ok || negb (i =? len mask) || (n <? 0) || (n >? netip.BitLen ipAddr)
            then None
            else
              let m := CIDRMask n (netip.BitLen ipAddr) in
              let addr16 := netip.As16 ipAddr in
              Some (mkIPNet (Mask addr16 m) m)
      end
  end.

(** [networkNumberAndMask(n)]; the pair of empty lists is [nil, nil]. *)
Definition networkNumberAndMask (n : IPNet) : IP * IPMask :=
  let ip :=
    match To4 (IPNet_IP n) with
    | Some ip => Some ip
    | None => if negb (List.length (IPNet_IP n) =? IPv6len)%nat then None
              else Some (IPNet_IP n)
    end in
  match ip with
  | None => ([], [])
  | Some ip =>
      let m := IPNet_Mask n in
      if (List.length m =? IPv4len)%nat then
        if negb (List.length ip =? IPv4len)%nat then ([], []) else (ip, m)
      else if (List.length m =? IPv6len)%nat then
        if (List.length ip =? IPv4len)%nat then (ip, skipn 12 m) else (ip, m)
      else ([], [])
  end.

(** The loop of [Contains] over [nn], [m] and [ip], whose lengths agree:
    [false] at the first byte where the masked values differ. *)
Fixpoint Contains_loop (nn m ip : list Z) : bool :=
  match nn, m, ip with
  | x :: nn', y :: m', z :: ip' =>
      if negb (Z.land x y =? Z.land z y) then false
      else Contains_loop nn' m' ip'
  | _, _, _ => true
  end.

(** [n.Contains(ip)] *)
Definition Contains (n : IPNet) (ip : IP) : bool :=
  let '(nn, m) := networkNumberAndMask n in
  let ip := match To4 ip with Some x => x | None => ip end in
  if negb (List.length ip =? List.length nn)%nat then false
  else Contains_loop nn m ip.

(** [JoinHostPort(host, port)], the form in which a connection's remote
    address is written: a host with a colon is put in brackets. *)
Definition JoinHostPort (host port : string) : string :=
  match netip.IndexByteString host ":"%char with
  | Some _ => ("[" ++ host ++ "]:" ++ port)%string
  | None => (host ++ ":" ++ port)%string
  end.

End net.

(** ** Package [time] *)

Module time.

(** A [Duration] is an [int64] count of nanoseconds. *)
Definition Duration : Type := Z.

Definition Nanosecond : Z := 1.
Definition Microsecond : Z := 1000 * Nanosecond.
Definition Millisecond : Z := 1000 * Microsecond.
Definition Second : Z := 1000 * Millisecond.
Definition Minute : Z := 60 * Second.
Definition Hour : Z := 60 * Minute.

(** The two spellings of the micro sign, U+00B5 and U+03BC, in UTF-8. *)
Definition micro_us : string :=
  String (ascii_of_nat 194) (String (ascii_of_nat 181) "s").
Definition mu_us : string :=
  String (ascii_of_nat 206) (String (ascii_of_nat 188) "s").

Definition unitMap (u : string) : option Z :=
  if String.eqb u "ns" then Some Nanosecond
  else if String.eqb u "us" then Some Microsecond
  else if String.eqb u micro_us then Some Microsecond
  else if String.eqb u mu_us then Some Microsecond
  else if String.eqb u "ms" then Some Millisecond
  else if String.eqb u "s" then Some Second
  else if String.eqb u "m" then Some Minute
  else if String.eqb u "h" then Some Hour
  else None.

(** [float64(x)] for a [uint64]: the nearest float.  The primitive takes 63
    bits; the only larger value [leadingFraction] returns is [1<<63], which
    is twice the float of its half. *)
Definition float64_of_uint64 (x : Z) : float :=
  if x <? 2 ^ 63 then PrimFloat.of_uint63 (Uint63.of_Z x)
  else PrimFloat.mul (PrimFloat.of_uint63 (Uint63.of_Z (x / 2))) PrimFloat.two.

(** [uint64(f)] for a float that is not negative: its integer part. *)
Definition uint64_of_float64 (f : float) : Z :=
  match Prim2SF f with
  | S754_finite false m e =>
      if 0 <=? e then Z.pos m * 2 ^ e else Z.pos m / 2 ^ (- e)
  | _ => 0
  end.

(** [leadingInt(s)] with the number read so far in [x]: the number and the
    rest of [s], or [None] for [errLeadingInt]. *)
Fixpoint leadingInt (s : string) (x : Z) : option (Z * string) :=
  match s with
  | EmptyString => Some (x, s)
  | String c s' =>
      if negb (isDigit c) then Some (x, s)
      else if x >? 2 ^ 63 / 10 then None
      else
        let x := x * 10 + code c - 48 in
        if x >? 2 ^ 63 then None
        else leadingInt s' x
  end.

(** [leadingFraction(s)] with the loop's variables [x], [scale] and
    [overflow]: the digits read as a number, their scale and the rest. *)
Fixpoint leadingFraction (s : string) (x : Z) (scale : float) (overflow : bool)
    : Z * float * string :=
  match s with
  | EmptyString => (x, scale, s)
  | String c s' =>
      if negb (isDigit c) then (x, scale, s)
      else if overflow then leadingFraction s' x scale overflow
      else if x >? (2 ^ 63 - 1) / 10 then leadingFraction s' x scale true
      else
        let y := x * 10 + code c - 48 in
        if y >? 2 ^ 63 then leadingFraction s' x scale true
        else leadingFraction s' y (PrimFloat.mul scale (PrimFloat.of_uint63 10)) overflow
  end.

(** The scan for the end of the unit: the index of the first dot or digit. *)
Fixpoint unitEnd (s : string) : nat :=
  match s with
  | EmptyString => O
  | String c s' =>
      if Ascii.eqb c "."%char || isDigit c then O else S (unitEnd s')
  end.

(** The loop [for s != ""] of [ParseDuration], with the sum [d] so far.
    Each round reads at least the byte of a unit, so [fuel] at the length of
    [s] is enough. *)
Fixpoint ParseDuration_loop (fuel : nat) (s : string) (d : Z) : option Z :=
  match s with
  | EmptyString => Some d
  | String c0 _ =>
      match fuel with
      | O => None
      | S fuel' =>
          if negb (Ascii.eqb c0 "."%char || isDigit c0) then None
          else
            let pl := String.length s in
            match leadingInt s 0 with
            | None => None
            | Some (v, s) =>
                let pre := negb (pl =? String.length s)%nat in
                let '(f, scale, post, s) :=
                  match s with
                  | String "." s' =>
                      let pl := String.length s' in
                      let '(f, scale, s'') := leadingFraction s' 0 PrimFloat.one false in
                      (f, scale, negb (pl =? String.length s'')%nat, s'')
                  | _ => (0, PrimFloat.one, false, s)
                  end in
                if negb pre && negb post then None
                else
                  let i := unitEnd s in
                  if (i =? 0)%nat then None
                  else
                    let u := take i s in
                    let s := drop i s in
                    match unitMap u with
                    | None => None
                    | Some unit =>
                        if v >? 2 ^ 63 / unit then None
                        else
                          let v := v * unit in
                          let v :=
                            if f >? 0 then
                              v + uint64_of_float64
                                    (PrimFloat.mul (float64_of_uint64 f)
                                       (PrimFloat.div (float64_of_uint64 unit) scale))
                            else v in
                          if (f >? 0) && (v >? 2 ^ 63) then None
                          else
                            let d := (d + v) mod 2 ^ 64 in
                            if d >? 2 ^ 63 then None
                            else ParseDuration_loop fuel' s d
                    end
            end
      end
  end.

(** [time.ParseDuration(s)]; [None] is the error. *)
Definition ParseDuration (s : string) : option Duration :=
  let '(neg, s) :=
    match s with
    | String c s' =>
        if Ascii.eqb c "-"%char || Ascii.eqb c "+"%char
        then (Ascii.eqb c "-"%char, s') else (false, s)
    | EmptyString => (false, s)
    end in
  if String.eqb s "0" then Some 0
  else if String.eqb s "" then None
  else
    match ParseDuration_loop (String.length s) s 0 with
    | None => None
    | Some d =>
        if neg then Some (- d)
        else if d >? 2 ^ 63 - 1 then None
        else Some d
    end.

End time.

(** ** Package [cloudfrontgate] *)

(** Go's [error] values.  [fmt_Errorf msg e] is [fmt.Errorf(msg + ": %w",
    e)]; [lib_error] is an error that a call into the standard library
    returned. *)
Inductive error : Type :=
| errors_New (msg : string)
| fmt_Errorf (msg : string) (cause : error)
| lib_error (what : string).

(** A value with an [error]: Go's pair [(x, err)]. *)
Inductive result (A : Type) : Type :=
| Ok (x : A)
| Err (e : error).
Arguments Ok {A} x.
Arguments Err {A} e.

Definition bind {A B} (r : result A) (k : A -> result B) : result B :=
  match r with
  | Ok x => k x
  | Err e => Err e
  end.

Notation "x <- r ;; k" := (bind r (fun x => k))
  (at level 61, r at next level, right associativity).

(** [if err != nil { return nil, fmt.Errorf(msg + ": %w", err) }] *)
Definition wrap {A} (msg : string) (r : result A) : result A :=
  match r with
  | Ok x => Ok x
  | Err e => Err (fmt_Errorf msg e)
  end.

Definition CFAPI : string :=
  "https://d7uri8nf7uskq.cloudfront.net/tools/list-cloudfront-ips".

Definition HTTPTimeoutDefault : Z := 5.

Record Config : Type := mkConfig {
  RefreshInterval : string;
  AllowedIPs : list string
}.

Definition CreateConfig : Config :=
  {| RefreshInterval := "24h"; AllowedIPs := [] |}.

(** The values a [context.Context] holds under the keys [CTXHTTPTimeout] and
    [CTXTrustedIPs]; [None] when the key is absent or its value has another
    type, which is when the type assertion on [ctx.Value] fails. *)
Record Context : Type := mkContext {
  CTXHTTPTimeout : option Z;
  CTXTrustedIPs : option (list net.IPNet)
}.

Definition createContext (timeout : Z) (trustedIPs : list net.IPNet) : Context :=
  {| CTXHTTPTimeout := Some timeout; CTXTrustedIPs := Some trustedIPs |}.

Record CFResponse : Type := mkCFResponse {
  GlobalIPList : list string;
  RegionalEdgeIPList : list string
}.

(** What the outside world does with one [fetch]: the request cannot be
    built, [client.Do] fails (no network, time out, cancellation), or a
    response comes back.  The body of a response is given by what
    [io.ReadAll] and [json.Unmarshal] make of it. *)
Inductive Body : Type :=
| ReadError
| Malformed
| Decoded (resp : CFResponse).

Inductive Exchange : Type :=
| NewRequestError
| DoError
| Response (StatusCode : Z) (Status : string) (body : Body) (closeError : bool).

(** What the program does to the outside world.  [EvGet url timeout] is one
    call [client.Do(req)], with a GET request built for [url] on a client
    whose [Timeout] is [timeout]; what the client sends during the call,
    also when it follows redirects, and whether anything is sent before the
    call fails, is the library's and has no event of its own.  [EvLog msg] is
    a line of the log. *)
Inductive Event : Type :=
| EvGet (url : string) (timeout : time.Duration)
| EvLog (msg : string).

(** The store: the address of the API and the [atomic.Value], which holds
    nothing ([None]) or a slice of networks. *)
Record ipstore : Type := mkIPStore {
  cfAPI : string;
  Value : option (list net.IPNet)
}.

(** [ips.Store(v)] and [ips.Load().([]net.IPNet)] *)
Definition Store (ips : ipstore) (v : list net.IPNet) : ipstore :=
  {| cfAPI := cfAPI ips; Value := Some v |}.

Definition Load (ips : ipstore) : option (list net.IPNet) := Value ips.

Definition newIPStore (cfURL : string) : ipstore :=
  Store {| cfAPI := cfURL; Value := None |} [].

(** The loop of [Contains] over the slice that was loaded. *)
Fixpoint Contains_loop (cidrs : list net.IPNet) (ip : net.IP) : bool :=
  match cidrs with
  | [] => false
  | ipNet :: cidrs' =>
      if net.Contains ipNet ip then true else Contains_loop cidrs' ip
  end.

Definition Contains (ips : ipstore) (ip : net.IP) : bool :=
  match Load ips with
  | None => false
  | Some cidrs => Contains_loop cidrs ip
  end.

(** The loop of [parseCIDRs], with the slice [trustedIPs] built so far. *)
Fixpoint parseCIDRs_loop (ips : list string) (trustedIPs : list net.IPNet)
    : result (list net.IPNet) :=
  match ips with
  | [] => Ok trustedIPs
  | ip :: ips' =>
      let ip := if negb (strings.Contains ip "/") then (ip ++ "/32")%string else ip in
      match net.ParseCIDR ip with
      | None => Err (fmt_Errorf "failed to parse CIDR" (lib_error ip))
      | Some ipNet => parseCIDRs_loop ips' (trustedIPs ++ [ipNet])
      end
  end.

Definition parseCIDRs (ips : list string) : result (list net.IPNet) :=
  parseCIDRs_loop ips [].

Definition parseResponse (resp : CFResponse) : result (list net.IPNet) :=
  globalIPList <-
    wrap "failed to parse CLOUDFRONT_GLOBAL_IP_LIST CIDRs"
      (parseCIDRs (GlobalIPList resp)) ;;
  regionalEdgeIPList <-
    wrap "failed to parse CLOUDFRONT_REGIONAL_EDGE_IP_LIST CIDRs"
      (parseCIDRs (RegionalEdgeIPList resp)) ;;
  Ok (globalIPList ++ regionalEdgeIPList).

(** [int64] arithmetic wraps around. *)
Definition wrap64 (x : Z) : Z := (x + 2 ^ 63) mod 2 ^ 64 - 2 ^ 63.

(** [ips.fetch(ctx)]: the result and the events, in order.  The deferred
    function runs when a response was received; it assigns to the local
    [err], which no result of [fetch] reads any more. *)
Definition fetch (ips : ipstore) (ctx : Context) (ex : Exchange)
    : result (list net.IPNet) * list Event :=
  match CTXHTTPTimeout ctx with
  | None => (Err (errors_New "invalid timeout value"), [])
  | Some timeout =>
      match ex with
      | NewRequestError =>
          (Err (fmt_Errorf "failed to create request" (lib_error "http.NewRequestWithContext")), [])
      | DoError =>
          (Err (fmt_Errorf "failed to execute request" (lib_error "http.Client.Do")),
           [EvGet (cfAPI ips) (wrap64 (timeout * time.Second))])
      | Response StatusCode Status body closeError =>
          let deferred :=
            if closeError then [EvLog "failed to close response body"] else [] in
          let r :=
            if negb (StatusCode =? 200)
            then Err (errors_New ("unexpected response status: " ++ Status))
            else
              match body with
              | ReadError => Err (fmt_Errorf "failed to read response body" (lib_error "io.ReadAll"))
              | Malformed => Err (fmt_Errorf "failed to unmarshal response" (lib_error "json.Unmarshal"))
              | Decoded resp => parseResponse resp
              end in
          (r, EvGet (cfAPI ips) (wrap64 (timeout * time.Second)) :: deferred)
      end
  end.

(** [ips.Update(ctx)]: the error ([None] is [nil]), the store afterwards and
    the events. *)
Definition Update (ips : ipstore) (ctx : Context) (ex : Exchange)
    : option error * ipstore * list Event :=
  match CTXTrustedIPs ctx with
  | None => (Some (errors_New "invalid trusted IPs value"), ips, [])
  | Some trustedIPs =>
      match fetch ips ctx ex with
      | (Err err, evs) => (Some err, ips, evs)
      | (Ok fetchedCIDRs, evs) =>
          let cidrs := [] ++ trustedIPs in
          let cidrs := cidrs ++ fetchedCIDRs in
          (None, Store ips cidrs, evs)
      end
  end.

(** A request, as far as the gate reads it or hands it on. *)
Record Request : Type := mkRequest {
  Method : string;
  URL : string;
  RemoteAddr : string
}.

(** The gate.  Its field [ips] points to the store, which is the state that
    the operations below take and return; its field [next] is the handler
    that [ServeHTTP] calls, see [Served]. *)
Record CloudFrontGate : Type := mkCloudFrontGate {
  name : string;
  refreshInterval : time.Duration;
  trustedIPs : list net.IPNet
}.

(** [New(ctx, next, config, name)], with the exchange of its one [Update]:
    the gate and the store it points to, or the error, and the events.  The
    last statement starts [refreshLoop], which is below. *)
Definition New (config : Config) (name : string) (ex : Exchange)
    : result (CloudFrontGate * ipstore) * list Event :=
  let ips := newIPStore CFAPI in
  match time.ParseDuration (RefreshInterval config) with
  | None =>
      (Err (fmt_Errorf "failed to parse refresh interval" (lib_error "time.ParseDuration")), [])
  | Some refreshInterval =>
      match parseCIDRs (AllowedIPs config) with
      | Err err => (Err (fmt_Errorf "failed to parse trusted IPs" err), [])
      | Ok trustedIPs =>
          let ctxUpdate := createContext HTTPTimeoutDefault trustedIPs in
          match Update ips ctxUpdate ex with
          | (Some err, _, evs) =>
              (Err (fmt_Errorf "failed to update CloudFront IP ranges" err), evs)
          | (None, ips, evs) =>
              (Ok ({| name := name;
                      refreshInterval := refreshInterval;
                      trustedIPs := trustedIPs |}, ips), evs)
          end
      end
  end.

(** What [ServeHTTP] does with a request: it answers
    [http.Error(rw, "Forbidden", http.StatusForbidden)] and returns, or it
    calls [cf.next.ServeHTTP(rw, req)]; [IndexPanic] is the run-time panic of
    an index out of range. *)
Inductive Served : Type :=
| Forbidden (body : string) (code : Z)
| Next (req : Request)
| IndexPanic.

Definition StatusForbidden : Z := 403.

Definition ServeHTTP (cf : CloudFrontGate) (ips : ipstore) (req : Request)
    : Served * ipstore :=
  match strings.Split (RemoteAddr req) ":" with
  | [] => (IndexPanic, ips)
  | host :: _ =>
      match net.ParseIP host with
      | None => (Forbidden "Forbidden" StatusForbidden, ips)
      | Some remoteIP =>
          if negb (Contains ips remoteIP)
          then (Forbidden "Forbidden" StatusForbidden, ips)
          else (Next req, ips)
      end
  end.

(** What the [select] of [refreshLoop] receives: the context is done, or the
    ticker fires, and then the exchange of that refresh. *)
Inductive Select : Type :=
| Done
| Tick (ex : Exchange).

(** How a run of [refreshLoop] ends: it returned, it waits in [select], or
    [time.NewTicker] panicked on an interval that is not positive. *)
Inductive LoopStatus : Type :=
| Returned
| Waiting
| TickerPanic.

(** The [for] loop of [refreshLoop] over what [select] receives. *)
Fixpoint refreshLoop_for (cf : CloudFrontGate) (sel : list Select) (ips : ipstore)
    : LoopStatus * ipstore * list Event :=
  match sel with
  | [] => (Waiting, ips, [])
  | Done :: _ => (Returned, ips, [])
  | Tick ex :: sel' =>
      let ctxUpdate := createContext HTTPTimeoutDefault (trustedIPs cf) in
      let '(err, ips, evs) := Update ips ctxUpdate ex in
      let logged :=
        match err with
        | Some _ => [EvLog "Failed to update CloudFront IP ranges"]
        | None => []
        end in
      let '(st, ips, evs') := refreshLoop_for cf sel' ips in
      (st, ips, evs ++ logged ++ evs')
  end.

Definition refreshLoop (cf : CloudFrontGate) (sel : list Select) (ips : ipstore)
    : LoopStatus * ipstore * list Event :=
  if refreshInterval cf <=? 0 then (TickerPanic, ips, [])
  else refreshLoop_for cf sel ips.

(** ** Readers and a refresh that run at the same time

    [Contains] and [Update] run in different goroutines and share the
    [atomic.Value] only.  Each is cut into its steps; a step of the system is
    a step of one of them.  [ips.Load()] and [ips.Store(cidrs)] are one step
    each, as [sync/atomic] makes them; the locals of a goroutine ([cidrs],
    the position of the loop) are its own.  A slice that was stored is never
    written again: [Update] appends to the slice that it made itself, so a
    slice is a value here. *)

Module Concurrent.

(** A call [ips.Contains(ip)]: before [Load], in the loop with the slice
    [cidrs] that was loaded and the part [rest] still to test, or returned. *)
Inductive reader : Type :=
| RLoad (ip : net.IP)
| RLoop (ip : net.IP) (cidrs rest : list net.IPNet)
| RReturn (ip : net.IP) (cidrs : option (list net.IPNet)) (r : bool).

(** A call [ips.Update(ctx)]: at its start, after [fetch] with the locals
    [trustedIPs] and [fetchedCIDRs], after each [append] with the local
    [cidrs], or returned. *)
Inductive writer : Type :=
| WStart (ctx : Context) (ex : Exchange)
| WFetched (trustedIPs fetchedCIDRs : list net.IPNet)
| WAppended1 (cidrs fetchedCIDRs : list net.IPNet)
| WAppended2 (cidrs : list net.IPNet)
| WReturn (err : option error).

Record system : Type := mkSystem {
  shared : ipstore;
  readers : list reader;
  upd : writer
}.

Inductive reader_step (ips : ipstore) : reader -> reader -> Prop :=
| RS_load_none ip :
    Load ips = None ->
    reader_step ips (RLoad ip) (RReturn ip None false)
| RS_load ip cidrs :
    Load ips = Some cidrs ->
    reader_step ips (RLoad ip) (RLoop ip cidrs cidrs)
| RS_hit ip cidrs ipNet rest :
    net.Contains ipNet ip = true ->
    reader_step ips (RLoop ip cidrs (ipNet :: rest)) (RReturn ip (Some cidrs) true)
| RS_miss ip cidrs ipNet rest :
    net.Contains ipNet ip = false ->
    reader_step ips (RLoop ip cidrs (ipNet :: rest)) (RLoop ip cidrs rest)
| RS_end ip cidrs :
    reader_step ips (RLoop ip cidrs []) (RReturn ip (Some cidrs) false).

(** A step of [Update] from the store [ips] to the store [ips']; only
    [WS_store] writes. *)
Inductive writer_step (ips : ipstore) : writer -> ipstore -> writer -> Prop :=
| WS_no_trusted ctx ex :
    CTXTrustedIPs ctx = None ->
    writer_step ips (WStart ctx ex) ips
      (WReturn (Some (errors_New "invalid trusted IPs value")))
| WS_fetch_err ctx ex trustedIPs err :
    CTXTrustedIPs ctx = Some trustedIPs ->
    fst (fetch ips ctx ex) = Err err ->
    writer_step ips (WStart ctx ex) ips (WReturn (Some err))
| WS_fetch_ok ctx ex trustedIPs fetchedCIDRs :
    CTXTrustedIPs ctx = Some trustedIPs ->
    fst (fetch ips ctx ex) = Ok fetchedCIDRs ->
    writer_step ips (WStart ctx ex) ips (WFetched trustedIPs fetchedCIDRs)
| WS_append1 trustedIPs fetchedCIDRs :
    writer_step ips (WFetched trustedIPs fetchedCIDRs) ips
      (WAppended1 ([] ++ trustedIPs) fetchedCIDRs)
| WS_append2 cidrs fetchedCIDRs :
    writer_step ips (WAppended1 cidrs fetchedCIDRs) ips
      (WAppended2 (cidrs ++ fetchedCIDRs))
| WS_store cidrs :
    writer_step ips (WAppended2 cidrs) (Store ips cidrs) (WReturn None).

Inductive step : system -> system -> Prop :=
| step_reader ips pre r r' post w :
    reader_step ips r r' ->
    step (mkSystem ips (pre ++ r :: post) w) (mkSystem ips (pre ++ r' :: post) w)
| step_writer ips ips' rs w w' :
    writer_step ips w ips' w' ->
    step (mkSystem ips rs w) (mkSystem ips' rs w').

Inductive steps : system -> system -> Prop :=
| steps_refl s : steps s s
| steps_step s1 s2 s3 : step s1 s2 -> steps s2 s3 -> steps s1 s3.

(** The readers at the start of their calls. *)
Definition calls (ips : list net.IP) : list reader := map RLoad ips.

(** A reader, and the writer, running alone. *)
Inductive reader_steps (ips : ipstore) : reader -> reader -> Prop :=
| reader_steps_refl r : reader_steps ips r r
| reader_steps_step r1 r2 r3 :
    reader_step ips r1 r2 -> reader_steps ips r2 r3 -> reader_steps ips r1 r3.

Inductive writer_steps : ipstore -> writer -> ipstore -> writer -> Prop :=
| writer_steps_refl ips w : writer_steps ips w ips w
| writer_steps_step ips1 w1 ips2 w2 ips3 w3 :
    writer_step ips1 w1 ips2 w2 -> writer_steps ips2 w2 ips3 w3 ->
    writer_steps ips1 w1 ips3 w3.

End Concurrent.

(** ** Ranges and addresses as numbers

    Following the spec: a range is an address prefix, a base address with a
    prefix length, and an address lies within it when its leading bits are
    those of the base.  An address of [bits] bits is a number below
    [2 ^ bits]; its bytes are in network order. *)

Inductive family : Type := IPv4 | IPv6.

Definition bits (f : family) : Z :=
  match f with IPv4 => 32 | IPv6 => 128 end.

(** The number whose bytes, the most significant first, are [b]. *)
Fixpoint number (b : list Z) : Z :=
  match b with
  | [] => 0
  | x :: b' => x * 2 ^ (8 * Z.of_nat (List.length b')) + number b'
  end.

(** [within f base ones a]: the first [ones] bits of the address [a] of
    family [f] are those of [base]. *)
Definition within (f : family) (base ones a : Z) : Prop :=
  a / 2 ^ (bits f - ones) = base / 2 ^ (bits f - ones).

Definition is_byte (x : Z) : Prop := 0 <= x < 256.

(** The family and the number of an address, as [net] reads it: 4 bytes, or
    16 bytes, where the IPv4-mapped addresses [::ffff:a.b.c.d] are IPv4. *)
Inductive address : net.IP -> family -> Z -> Prop :=
| address_4 ip :
    List.length ip = 4%nat -> Forall is_byte ip ->
    address ip IPv4 (number ip)
| address_4in6 ip :
    List.length ip = 4%nat -> Forall is_byte ip ->
    address (netip.v4InV6Prefix ++ ip) IPv4 (number ip)
| address_6 ip :
    List.length ip = 16%nat -> Forall is_byte ip ->
    firstn 12 ip <> netip.v4InV6Prefix ->
    address ip IPv6 (number ip).

(** The prefix that a network stands for: family, base and prefix length.
    These are the networks [net.ParseCIDR] returns. *)
Inductive prefix : net.IPNet -> family -> Z -> Z -> Prop :=
| prefix_4 ip ones :
    List.length ip = 4%nat -> Forall is_byte ip -> 0 <= ones <= 32 ->
    prefix (net.mkIPNet ip (net.CIDRMask ones 32)) IPv4 (number ip) ones
| prefix_4in6 ip ones :
    List.length ip = 4%nat -> Forall is_byte ip -> 96 <= ones <= 128 ->
    prefix (net.mkIPNet (netip.v4InV6Prefix ++ ip) (net.CIDRMask ones 128))
      IPv4 (number ip) (ones - 96)
| prefix_6 ip ones :
    List.length ip = 16%nat -> Forall is_byte ip -> 0 <= ones <= 128 ->
    firstn 12 ip <> netip.v4InV6Prefix ->
    prefix (net.mkIPNet ip (net.CIDRMask ones 128)) IPv6 (number ip) ones.

(** A network that stands for a prefix. *)
Definition is_prefix (n : net.IPNet) : Prop :=
  exists f base ones, prefix n f base ones.

(** [contains_address n ip]: the prefix of [n] and the address [ip] are of
    one family, and the address lies within the prefix. *)
Definition contains_address (n : net.IPNet) (ip : net.IP) : Prop :=
  exists f base ones a,
    prefix n f base ones /\ address ip f a /\ within f base ones a.

(** The text that [ServeHTTP] takes for the host of a remote origin: the text
    before the first colon, or all of it without one.  For an address and a
    port joined by [net.JoinHostPort] it is the address when that has no
    colon. *)
Definition host_part (origin host : string) : Prop :=
  netip.IndexByteString host ":"%char = None /\
  (origin = host \/ exists port, origin = (host ++ String ":" port)%string).

(** The ways a fetch fails: the request cannot be built or sent, the status
    is not 200, the body cannot be read or decoded, or an entry of one of
    its lists is no address and no CIDR. *)
Inductive fetch_failure : Exchange -> Prop :=
| failure_request : fetch_failure NewRequestError
| failure_network : fetch_failure DoError
| failure_status c s b ce : c <> 200 -> fetch_failure (Response c s b ce)
| failure_read c s ce : fetch_failure (Response c s ReadError ce)
| failure_decode c s ce : fetch_failure (Response c s Malformed ce)
| failure_parse c s resp ce err :
    parseResponse resp = Err err ->
    fetch_failure (Response c s (Decoded resp) ce).

(** ** Sample values *)

Definition sample_store : ipstore :=
  Store (newIPStore CFAPI) [net.mkIPNet [192; 168; 1; 0] [255; 255; 255; 0]].

Definition sample_gate : CloudFrontGate :=
  {| name := "gate"; refreshInterval := 24 * time.Hour;
     trustedIPs := [net.mkIPNet [192; 168; 1; 0] [255; 255; 255; 0]] |}.

Definition sample_response : Exchange :=
  Response 200 "200 OK"
    (Decoded {| GlobalIPList := ["203.0.113.0/24"]; RegionalEdgeIPList := [] |})
    false.

Definition sample_config : Config :=
  {| RefreshInterval := "24h"; AllowedIPs := ["192.168.1.0/24"] |}.

Definition zero_interval_config : Config :=
  {| RefreshInterval := "0s"; AllowedIPs := [] |}.

(** The store of scenario A of the spec: the operator's range and the range
    that was fetched. *)
Definition scenario_store : ipstore :=
  Store (newIPStore CFAPI)
    [net.mkIPNet [192; 168; 1; 0] [255; 255; 255; 0];
     net.mkIPNet [203; 0; 113; 0] [255; 255; 255; 0]].

(** The sets of the store are made of prefixes. *)
Definition prefixes (ips : ipstore) : Prop :=
  forall cidrs, Load ips = Some cidrs -> Forall is_prefix cidrs.

(** A list of a known length, as its elements. *)
Ltac elements H :=
  repeat match type of H with
         | List.length ?l = S _ =>
             destruct l; [discriminate H|]; simpl in H; injection H as H
         | List.length ?l = O => destruct l; [clear H|discriminate H]
         end.


(** ** Invariants of the concurrent runs

    [ips0] is the store when [Update ctx ex] starts; the store when it has
    returned is the one the function [Update] computes. *)

Definition after_update (ips0 : ipstore) (ctx : Context) (ex : Exchange) : ipstore :=
  snd (fst (Update ips0 ctx ex)).

(** What holds of the writer and the shared store at each of its steps. *)
Definition writer_inv (ips0 : ipstore) (ctx : Context) (ex : Exchange)
    (w : Concurrent.writer) (ips : ipstore) : Prop :=
  match w with
  | Concurrent.WStart ctx' ex' => ctx' = ctx /\ ex' = ex /\ ips = ips0
  | Concurrent.WFetched trustedIPs fetchedCIDRs =>
      ips = ips0 /\
      after_update ips0 ctx ex = Store ips0 (trustedIPs ++ fetchedCIDRs) /\
      fst (fst (Update ips0 ctx ex)) = None
  | Concurrent.WAppended1 cidrs fetchedCIDRs =>
      ips = ips0 /\
      after_update ips0 ctx ex = Store ips0 (cidrs ++ fetchedCIDRs) /\
      fst (fst (Update ips0 ctx ex)) = None
  | Concurrent.WAppended2 cidrs =>
      ips = ips0 /\
      after_update ips0 ctx ex = Store ips0 cidrs /\
      fst (fst (Update ips0 ctx ex)) = None
  | Concurrent.WReturn err =>
      ips = after_update ips0 ctx ex /\ err = fst (fst (Update ips0 ctx ex))
  end.

(** A reader has seen the whole of the set before the update, or the whole
    of the set after it. *)
Definition saw (ips0 ips1 : ipstore) (cidrs : option (list net.IPNet)) : Prop :=
  cidrs = Load ips0 \/ cidrs = Load ips1.

(** What holds of a reader at each of its steps: the slice it loaded is one
    of the two sets, the networks it went past do not contain the address,
    and what it returns is the answer of [Contains] on the set it loaded. *)
Definition reader_inv (ips0 ips1 : ipstore) (r : Concurrent.reader) : Prop :=
  match r with
  | Concurrent.RLoad _ => True
  | Concurrent.RLoop ip cidrs rest =>
      saw ips0 ips1 (Some cidrs) /\
      Contains_loop cidrs ip = Contains_loop rest ip
  | Concurrent.RReturn ip cidrs r =>
      (cidrs = Load ips0 /\ r = Contains ips0 ip) \/
      (cidrs = Load ips1 /\ r = Contains ips1 ip)
  end.

(** The address that a reader asks for. *)
Definition reader_ip (r : Concurrent.reader) : net.IP :=
  match r with
  | Concurrent.RLoad ip => ip
  | Concurrent.RLoop ip _ _ => ip
  | Concurrent.RReturn ip _ _ => ip
  end.

Definition system_inv (ips0 : ipstore) (ctx : Context) (ex : Exchange)
    (s : Concurrent.system) : Prop :=
  writer_inv ips0 ctx ex (Concurrent.upd s) (Concurrent.shared s) /\
  Forall (reader_inv ips0 (after_update ips0 ctx ex)) (Concurrent.readers s).


(** A run of one reader and one update: the reader loads the set, the update
    runs to its end, and the reader then scans what it loaded. *)
Definition sample_run_end : Concurrent.system :=
  Concurrent.mkSystem
    (Store sample_store
       (trustedIPs sample_gate ++ [net.mkIPNet [203; 0; 113; 0] [255; 255; 255; 0]]))
    [Concurrent.RReturn [203; 0; 113; 9] (Load sample_store) false]
    (Concurrent.WReturn None).


(** ** Further properties of the code *)

(** The text that [parseCIDRs] gives to [net.ParseCIDR] for an entry: the
    entry, with ["/32"] after it when it has no slash. *)
Definition cidr_text (ip : string) : string :=
  if negb (strings.Contains ip "/") then (ip ++ "/32")%string else ip.

(** The network of an entry. *)
Definition parses_to (ip : string) (ipNet : net.IPNet) : Prop :=
  net.ParseCIDR (cidr_text ip) = Some ipNet.

(** The ranges that an exchange gives: those of a response with status 200
    whose body decodes and whose lists parse; otherwise none. *)
Definition fetched_ranges (ex : Exchange) : option (list net.IPNet) :=
  match ex with
  | Response StatusCode _ (Decoded resp) _ =>
      if StatusCode =? 200
      then match parseResponse resp with Ok l => Some l | Err _ => None end
      else None
  | _ => None
  end.

(** The exchanges of the ticks that [refreshLoop] receives before its
    context is done. *)
Fixpoint ticks (sel : list Select) : list Exchange :=
  match sel with
  | [] => []
  | Done :: _ => []
  | Tick ex :: sel' => ex :: ticks sel'
  end.

(** The ranges of the last exchange that gave any, [acc] when none did. *)
Fixpoint last_fetched (exs : list Exchange) (acc : option (list net.IPNet))
    : option (list net.IPNet) :=
  match exs with
  | [] => acc
  | ex :: exs' =>
      last_fetched exs'
        (match fetched_ranges ex with Some l => Some l | None => acc end)
  end.

(** A call of [client.Do]. *)
Definition is_Do_call (e : Event) : bool :=
  match e with EvGet _ _ => true | EvLog _ => false end.

Definition is_update_failure (e : Event) : bool :=
  match e with
  | EvLog msg => String.eqb msg "Failed to update CloudFront IP ranges"
  | EvGet _ _ => false
  end.

(** An exchange in which [client.Do] is called: the request was built. *)
Definition reaches_Do (ex : Exchange) : bool :=
  match ex with NewRequestError => false | _ => true end.

Definition gives_no_ranges (ex : Exchange) : bool :=
  match fetched_ranges ex with Some _ => false | None => true end.

(** The address that an entry names: the text before its slash, or all of
    it without one. *)
Definition address_text (entry : string) : string :=
  match netip.IndexByteString entry "/" with
  | Some i => take i entry
  | None => entry
  end.

(** A text of decimal digits only. *)
Fixpoint all_digits (s : string) : bool :=
  match s with
  | EmptyString => true
  | String c s' => isDigit c && all_digits s'
  end.

(** A reader that has returned, and for a reader in its loop the steps it
    has left at most. *)
Definition returned (r : Concurrent.reader) : bool :=
  match r with Concurrent.RReturn _ _ _ => true | _ => false end.

Definition steps_left (r : Concurrent.reader) : nat :=
  match r with
  | Concurrent.RLoop _ _ rest => S (List.length rest)
  | _ => O
  end.

(** * Theorems *)

(** ** Strings *)

Lemma Index_byte (s : string) (c : ascii) :
  strings.Index s (String c "") = netip.IndexByteString s c.
Proof.
  induction s as [|x s IH]; simpl.
  - reflexivity.
  - rewrite Ascii.eqb_sym. destruct (Ascii.eqb x c) eqn:E.
    + destruct s; reflexivity.
    + rewrite IH. destruct s; reflexivity.
Qed.

Lemma IndexByteString_Some (s : string) (c : ascii) (n : nat) :
  netip.IndexByteString s c = Some n ->
  s = (take n s ++ String c (drop (S n) s))%string /\
  netip.IndexByteString (take n s) c = None.
Proof.
  revert n. induction s as [|x s IH]; simpl; intros n H.
  - discriminate.
  - destruct (Ascii.eqb x c) eqn:E.
    + injection H as <-. apply Ascii.eqb_eq in E. subst x. simpl. auto.
    + destruct (netip.IndexByteString s c) as [m|] eqn:Em; [|discriminate].
      injection H as <-. destruct (IH m eq_refl) as [H1 H2].
      simpl. rewrite E, H2. split; [|reflexivity].
      f_equal. exact H1.
Qed.

Lemma IndexByteString_app (s t : string) (c : ascii) :
  netip.IndexByteString s c = None ->
  netip.IndexByteString (s ++ String c t) c = Some (String.length s).
Proof.
  induction s as [|x s IH]; simpl; intros H.
  - rewrite Ascii.eqb_refl. reflexivity.
  - destruct (Ascii.eqb x c); [discriminate|].
    destruct (netip.IndexByteString s c); [discriminate|].
    rewrite IH by reflexivity. reflexivity.
Qed.

Lemma take_app (s t : string) : take (String.length s) (s ++ t) = s.
Proof. induction s as [|x s IH]; simpl; [destruct t|]; congruence. Qed.

Lemma drop_app (s t : string) : drop (String.length s) (s ++ t) = t.
Proof. induction s as [|x s IH]; simpl; auto. Qed.

(** [strings.Split(s, ":")] has a first element, the host part of [s]. *)
Lemma Split_colon (s : string) :
  exists host rest, strings.Split s ":" = host :: rest /\ host_part s host.
Proof.
  unfold strings.Split, host_part. cbn [strings.genSplit].
  rewrite Index_byte.
  destruct (netip.IndexByteString s ":"%char) as [m|] eqn:E.
  - destruct (IndexByteString_Some _ _ _ E) as [H1 H2].
    eexists _, _. split; [reflexivity|]. split; [exact H2|].
    right. eexists. exact H1.
  - eexists _, _. split; [reflexivity|]. auto.
Qed.

(** ** The store: [Contains] and [Update] *)

Lemma Contains_loop_existsb (cidrs : list net.IPNet) (ip : net.IP) :
  Contains_loop cidrs ip = existsb (fun ipNet => net.Contains ipNet ip) cidrs.
Proof.
  induction cidrs as [|n cidrs IH]; simpl; [reflexivity|].
  rewrite IH. destruct (net.Contains n ip); reflexivity.
Qed.

(** [Contains] returns at the first network that contains the address: the
    networks before it do not, the ones after it are not looked at. *)
Lemma Contains_loop_first (cidrs : list net.IPNet) (ip : net.IP) :
  Contains_loop cidrs ip = true ->
  exists before ipNet after,
    cidrs = before ++ ipNet :: after /\
    Forall (fun n => net.Contains n ip = false) before /\
    net.Contains ipNet ip = true /\
    forall after', Contains_loop (before ++ ipNet :: after') ip = true.
Proof.
  induction cidrs as [|n cidrs IH]; simpl; [discriminate|].
  destruct (net.Contains n ip) eqn:E.
  - intros _. exists [], n, cidrs. simpl. rewrite E. auto.
  - intros H. destruct (IH H) as (b & m & a & -> & Hb & Hm & Ha).
    exists (n :: b), m, a. simpl. rewrite E. auto.
Qed.


Lemma fetch_failure_Err (ips : ipstore) (ctx : Context) (ex : Exchange) :
  fetch_failure ex -> exists err, fst (fetch ips ctx ex) = Err err.
Proof.
  intros H. unfold fetch. destruct (CTXHTTPTimeout ctx); [|simpl; eauto].
  destruct H; simpl; eauto.
  - destruct (c =? 200) eqn:E; [apply Z.eqb_eq in E; contradiction|].
    simpl. eauto.
  - destruct (negb (c =? 200)); simpl; eauto.
  - destruct (negb (c =? 200)); simpl; eauto.
  - destruct (negb (c =? 200)); simpl; eauto.
Qed.

Lemma Err_fetch_failure (ips : ipstore) (timeout : Z) (trusted : list net.IPNet)
    (ex : Exchange) (err : error) :
  fst (fetch ips (createContext timeout trusted) ex) = Err err -> fetch_failure ex.
Proof.
  unfold fetch. simpl. destruct ex as [| |c s b ce]; simpl.
  - constructor.
  - constructor.
  - destruct (c =? 200) eqn:E; simpl.
    + destruct b; intros H; econstructor; eassumption.
    + intros _. constructor. intros ->. discriminate.
Qed.

(** A step of [refreshLoop] on a tick. *)
Lemma refreshLoop_for_Tick (cf : CloudFrontGate) (ex : Exchange)
    (sel : list Select) (ips : ipstore) :
  let ips' := snd (fst (Update ips (createContext HTTPTimeoutDefault (trustedIPs cf)) ex)) in
  fst (fst (refreshLoop_for cf (Tick ex :: sel) ips))
    = fst (fst (refreshLoop_for cf sel ips')) /\
  snd (fst (refreshLoop_for cf (Tick ex :: sel) ips))
    = snd (fst (refreshLoop_for cf sel ips')).
Proof.
  cbn [refreshLoop_for].
  destruct (Update ips _ ex) as [[err ips1] evs]. simpl.
  destruct (refreshLoop_for cf sel ips1) as [[st ips2] evs']. simpl. auto.
Qed.

(** C2. When the fetch of a refresh fails, for whatever reason, [Update]
    returns the error and leaves the store as it was, so [Contains] answers
    as before; [refreshLoop], which logs the error, goes on from the same
    store. *)
Theorem failed_fetch_keeps_store (cf : CloudFrontGate) (ips : ipstore)
    (ctx : Context) (ex : Exchange) (sel : list Select) (err : error) :
  fst (fetch ips ctx ex) = Err err ->
  (exists e, fst (fst (Update ips ctx ex)) = Some e) /\
  snd (fst (Update ips ctx ex)) = ips /\
  (forall ip, Contains (snd (fst (Update ips ctx ex))) ip = Contains ips ip) /\
  (fst (fetch ips (createContext HTTPTimeoutDefault (trustedIPs cf)) ex) = Err err ->
   fst (fst (refreshLoop_for cf (Tick ex :: sel) ips))
     = fst (fst (refreshLoop_for cf sel ips)) /\
   snd (fst (refreshLoop_for cf (Tick ex :: sel) ips))
     = snd (fst (refreshLoop_for cf sel ips))).
Proof.
  intros H.
  assert (K : forall c, fst (fetch ips c ex) = Err err ->
                 snd (fst (Update ips c ex)) = ips /\
                 exists e, fst (fst (Update ips c ex)) = Some e).
  { intros c Hc. unfold Update. destruct (CTXTrustedIPs c); [|simpl; eauto].
    destruct (fetch ips c ex) as [[x|e] evs]; simpl in *; [discriminate|eauto]. }
  destruct (K ctx H) as [K1 K2].
  repeat split.
  - exact K2.
  - exact K1.
  - intros ip. rewrite K1. reflexivity.
  - destruct (refreshLoop_for_Tick cf ex sel ips) as [A _].
    cbv zeta in A. rewrite A. destruct (K _ H0) as [-> _]. reflexivity.
  - destruct (refreshLoop_for_Tick cf ex sel ips) as [_ B].
    cbv zeta in B. rewrite B. destruct (K _ H0) as [-> _]. reflexivity.
Qed.


Lemma failed_fetch_keeps_store_witness :
  snd (fst (Update sample_store (createContext HTTPTimeoutDefault (trustedIPs sample_gate)) DoError))
    = sample_store.
Proof.
  exact (proj1 (proj2 (failed_fetch_keeps_store sample_gate sample_store
           (createContext HTTPTimeoutDefault (trustedIPs sample_gate)) DoError []
           (fmt_Errorf "failed to execute request" (lib_error "http.Client.Do"))
           eq_refl))).
Defined.

(** C7, as amended.  [Update] takes no ranges: it makes the fetch itself.
    On well-formed input, a context that holds the operator's ranges and the
    timeout and an exchange that gives ranges, it cannot fail: it returns
    [nil], the store then holds the operator's ranges followed by the fetched
    ones, which is what [Contains] answers from, and its events are those of
    its fetch, with the one call of [client.Do] among them; building and
    storing the set adds none. *)
Theorem Update_succeeds_after_fetch (ips : ipstore) (ctx : Context)
    (ex : Exchange) (trusted fetched : list net.IPNet) (timeout : Z) :
  CTXTrustedIPs ctx = Some trusted ->
  CTXHTTPTimeout ctx = Some timeout ->
  fetched_ranges ex = Some fetched ->
  fst (fst (Update ips ctx ex)) = None /\
  Load (snd (fst (Update ips ctx ex))) = Some (trusted ++ fetched) /\
  cfAPI (snd (fst (Update ips ctx ex))) = cfAPI ips /\
  (forall ip,
     Contains (snd (fst (Update ips ctx ex))) ip
     = existsb (fun ipNet => net.Contains ipNet ip) (trusted ++ fetched)) /\
  fst (fetch ips ctx ex) = Ok fetched /\
  snd (Update ips ctx ex) = snd (fetch ips ctx ex) /\
  filter is_Do_call (snd (Update ips ctx ex))
  = [EvGet (cfAPI ips) (wrap64 (timeout * time.Second))].
Proof.
  intros Ht Hto Hf.
  assert (F : fst (fetch ips ctx ex) = Ok fetched /\
              filter is_Do_call (snd (fetch ips ctx ex))
              = [EvGet (cfAPI ips) (wrap64 (timeout * time.Second))]).
  { unfold fetch, fetched_ranges in *. rewrite Hto.
    destruct ex as [| |c s b ce]; try discriminate Hf.
    destruct b as [| |resp]; try discriminate Hf.
    destruct (c =? 200); [|discriminate Hf]. cbn [negb fst snd].
    destruct (parseResponse resp) as [l|e]; [|discriminate Hf].
    injection Hf as <-. split; [reflexivity|].
    destruct ce; reflexivity. }
  destruct F as [F1 F2]. unfold Update. rewrite Ht.
  destruct (fetch ips ctx ex) as [[f|e] evs]; cbn [fst snd] in *;
    [|discriminate F1].
  injection F1 as ->. repeat split; try assumption.
  intros ip. unfold Contains. cbn [Load Store Value app].
  apply Contains_loop_existsb.
Qed.

Lemma Update_succeeds_after_fetch_witness :
  Load (snd (fst (Update sample_store
                    (createContext HTTPTimeoutDefault (trustedIPs sample_gate))
                    sample_response)))
  = Some (trustedIPs sample_gate
          ++ [net.mkIPNet [203; 0; 113; 0] [255; 255; 255; 0]]).
Proof.
  exact (proj1 (proj2 (Update_succeeds_after_fetch sample_store
           (createContext HTTPTimeoutDefault (trustedIPs sample_gate))
           sample_response (trustedIPs sample_gate)
           [net.mkIPNet [203; 0; 113; 0] [255; 255; 255; 0]]
           HTTPTimeoutDefault eq_refl eq_refl eq_refl))).
Defined.

(** The claim as the spec has it fails: on well-formed input [Update] does
    input and output, the call of [client.Do] of its own fetch, and there is
    no [Update] that takes ranges which were fetched before. *)
Lemma Update_does_the_fetch :
  fetched_ranges sample_response
  = Some [net.mkIPNet [203; 0; 113; 0] [255; 255; 255; 0]] /\
  fst (fst (Update sample_store
              (createContext HTTPTimeoutDefault (trustedIPs sample_gate))
              sample_response)) = None /\
  snd (Update sample_store
         (createContext HTTPTimeoutDefault (trustedIPs sample_gate))
         sample_response) = [EvGet CFAPI 5000000000] /\
  snd (Update sample_store
         (createContext HTTPTimeoutDefault (trustedIPs sample_gate))
         sample_response) <> [].
Proof. repeat split. discriminate. Qed.

(** A fetch succeeds on a response with status 200 whose body decodes and
    whose two lists parse, and on nothing else; its result is the global list
    followed by the regional one. *)
Lemma fetch_Ok (ips : ipstore) (ctx : Context) (ex : Exchange)
    (fetched : list net.IPNet) :
  fst (fetch ips ctx ex) = Ok fetched ->
  exists status resp ce globalIPList regionalEdgeIPList,
    ex = Response 200 status (Decoded resp) ce /\
    parseCIDRs (GlobalIPList resp) = Ok globalIPList /\
    parseCIDRs (RegionalEdgeIPList resp) = Ok regionalEdgeIPList /\
    fetched = globalIPList ++ regionalEdgeIPList.
Proof.
  unfold fetch. destruct (CTXHTTPTimeout ctx); [|discriminate].
  destruct ex as [| |c s b ce]; simpl; try discriminate.
  destruct (c =? 200) eqn:E; simpl; [|discriminate].
  apply Z.eqb_eq in E. subst c.
  destruct b as [| |resp]; try discriminate.
  unfold parseResponse, bind, wrap.
  destruct (parseCIDRs (GlobalIPList resp)) as [g|] eqn:Hg; [|discriminate].
  destruct (parseCIDRs (RegionalEdgeIPList resp)) as [r|] eqn:Hr; [|discriminate].
  intros H. injection H as <-. exists s, resp, ce, g, r. auto.
Qed.

(** C4. When [Update] succeeds, the exchange was a response with status 200
    whose body decoded, and the set it stored is the operator's networks
    followed by the parsed global list followed by the parsed regional edge
    list; [Contains] then answers for exactly this set. *)
Theorem Update_stores_combined_set (ips ips' : ipstore) (ctx : Context)
    (ex : Exchange) (trusted : list net.IPNet) (evs : list Event) :
  CTXTrustedIPs ctx = Some trusted ->
  Update ips ctx ex = (None, ips', evs) ->
  exists status resp ce globalIPList regionalEdgeIPList,
    ex = Response 200 status (Decoded resp) ce /\
    parseCIDRs (GlobalIPList resp) = Ok globalIPList /\
    parseCIDRs (RegionalEdgeIPList resp) = Ok regionalEdgeIPList /\
    Load ips' = Some (trusted ++ globalIPList ++ regionalEdgeIPList) /\
    forall ip,
      Contains ips' ip
      = existsb (fun ipNet => net.Contains ipNet ip)
          (trusted ++ globalIPList ++ regionalEdgeIPList).
Proof.
  intros Ht. unfold Update. rewrite Ht.
  destruct (fetch ips ctx ex) as [[fetched|e] evs0] eqn:Hf; [|discriminate].
  intros H. injection H as <- <-.
  destruct (fetch_Ok ips ctx ex fetched) as (s & resp & ce & g & r & -> & Hg & Hr & ->).
  { rewrite Hf. reflexivity. }
  exists s, resp, ce, g, r. repeat split; auto.
  intros ip. unfold Contains. simpl. apply Contains_loop_existsb.
Qed.

Lemma Update_stores_combined_set_witness :
  exists status resp ce globalIPList regionalEdgeIPList,
    sample_response = Response 200 status (Decoded resp) ce /\
    parseCIDRs (GlobalIPList resp) = Ok globalIPList /\
    parseCIDRs (RegionalEdgeIPList resp) = Ok regionalEdgeIPList /\
    Load (Store sample_store
            (trustedIPs sample_gate ++ [net.mkIPNet [203; 0; 113; 0] [255; 255; 255; 0]]))
      = Some (trustedIPs sample_gate ++ globalIPList ++ regionalEdgeIPList) /\
    forall ip,
      Contains (Store sample_store
            (trustedIPs sample_gate ++ [net.mkIPNet [203; 0; 113; 0] [255; 255; 255; 0]])) ip
      = existsb (fun ipNet => net.Contains ipNet ip)
          (trustedIPs sample_gate ++ globalIPList ++ regionalEdgeIPList).
Proof.
  exact (Update_stores_combined_set sample_store _
           (createContext HTTPTimeoutDefault (trustedIPs sample_gate))
           sample_response (trustedIPs sample_gate) [EvGet CFAPI 5000000000]
           eq_refl eq_refl).
Defined.

(** C3, as the code has it.  [newIPStore] stores the empty slice, so a new
    store contains no address.  [New] returns a gate only when its one
    [Update] succeeded, and the store then holds the operator's networks
    followed by the fetched ones; when that first fetch fails, [New] returns
    the error and no gate. *)
Theorem new_store_is_empty (cfURL : string) (config : Config) (name : string)
    (ex : Exchange) :
  Load (newIPStore cfURL) = Some [] /\
  (forall ip, Contains (newIPStore cfURL) ip = false) /\
  match fst (New config name ex) with
  | Ok (cf, ips) =>
      parseCIDRs (AllowedIPs config) = Ok (trustedIPs cf) /\
      exists fetched,
        fst (fetch (newIPStore CFAPI)
               (createContext HTTPTimeoutDefault (trustedIPs cf)) ex) = Ok fetched /\
        Load ips = Some (trustedIPs cf ++ fetched)
  | Err _ =>
      time.ParseDuration (RefreshInterval config) = None \/
      (exists err, parseCIDRs (AllowedIPs config) = Err err) \/
      fetch_failure ex
  end.
Proof.
  split; [reflexivity|]. split; [reflexivity|].
  unfold New.
  destruct (time.ParseDuration (RefreshInterval config)) as [d|]; [|simpl; auto].
  destruct (parseCIDRs (AllowedIPs config)) as [trusted|e] eqn:Hp; [|simpl; eauto].
  unfold Update. cbn [CTXTrustedIPs createContext].
  destruct (fetch _ _ ex) as [[fetched|e] evs] eqn:Hf; simpl.
  - split; [reflexivity|]. exists fetched. rewrite Hf. auto.
  - right. right. eapply Err_fetch_failure. rewrite Hf. reflexivity.
Qed.

(** C3, the claim as it was stated, fails: with the operator's range
    [192.168.1.0/24], the address [192.168.1.5] lies in that range, but the
    new store does not hold the range and does not contain the address. *)
Lemma new_store_lacks_operator_ranges :
  let operatorRanges := [net.mkIPNet [192; 168; 1; 0] [255; 255; 255; 0]] in
  let a := [192; 168; 1; 5] in
  parseCIDRs ["192.168.1.0/24"] = Ok operatorRanges /\
  existsb (fun ipNet => net.Contains ipNet a) operatorRanges = true /\
  Load (newIPStore CFAPI) <> Some operatorRanges /\
  Contains (newIPStore CFAPI) a = false.
Proof.
  cbv zeta. repeat split; try reflexivity. discriminate.
Qed.

(** ** The gate *)

Lemma host_part_unique (origin h1 h2 : string) :
  host_part origin h1 -> host_part origin h2 -> h1 = h2.
Proof.
  intros [N1 H1] [N2 H2].
  assert (K : forall h p, netip.IndexByteString h ":"%char = None ->
              origin = (h ++ String ":" p)%string ->
              netip.IndexByteString origin ":"%char = Some (String.length h)).
  { intros h p N ->. apply IndexByteString_app, N. }
  destruct H1 as [->|[p1 E1]], H2 as [E2|[p2 E2]].
  - auto.
  - rewrite (K _ _ N2 E2) in N1. discriminate.
  - subst h2. rewrite (K _ _ N1 E1) in N2. discriminate.
  - pose proof (K _ _ N1 E1) as A. pose proof (K _ _ N2 E2) as B.
    rewrite A in B. injection B as B.
    rewrite <- (take_app h1 (String ":" p1)), <- E1, B, E2. apply take_app.
Qed.

(** What [ServeHTTP] decides, by the text before the first colon of the
    remote address: it answers 403 Forbidden, without a call of the next
    handler, exactly when that text is no address or the store does not
    contain it; otherwise it calls the next handler with the request as it
    came.  The store is the same afterwards. *)
Lemma ServeHTTP_decision (cf : CloudFrontGate) (ips : ipstore) (req : Request) :
  exists host,
    host_part (RemoteAddr req) host /\
    snd (ServeHTTP cf ips req) = ips /\
    (fst (ServeHTTP cf ips req) = Forbidden "Forbidden" StatusForbidden <->
     (net.ParseIP host = None \/
      exists ip, net.ParseIP host = Some ip /\ Contains ips ip = false)) /\
    (fst (ServeHTTP cf ips req) = Next req <->
     exists ip, net.ParseIP host = Some ip /\ Contains ips ip = true) /\
    (fst (ServeHTTP cf ips req) = Forbidden "Forbidden" StatusForbidden \/
     fst (ServeHTTP cf ips req) = Next req).
Proof.
  destruct (Split_colon (RemoteAddr req)) as (host & rest & Hs & Hh).
  exists host. split; [exact Hh|].
  unfold ServeHTTP. rewrite Hs.
  destruct (net.ParseIP host) as [ip|]; simpl.
  - destruct (Contains ips ip) eqn:E; simpl.
    + repeat split; auto.
      * discriminate.
      * intros [H|(x & H & K)]; [discriminate|]. injection H as <-. congruence.
      * eauto.
    + repeat split; auto.
      * eauto.
      * discriminate.
      * intros (x & H & K). injection H as <-. congruence.
  - repeat split; auto.
    + discriminate.
    + intros (x & H & _). discriminate.
Qed.

(** Scenario C of the spec: after [New] with the operator's range
    [192.168.1.0/24] and the fetched range [203.0.113.0/24]. *)
Example scenario_C :
  match fst (New sample_config "gate" sample_response) with
  | Ok (cf, ips) =>
      let serve origin := fst (ServeHTTP cf ips (mkRequest "GET" "/" origin)) in
      serve "203.0.113.9:54321" = Next (mkRequest "GET" "/" "203.0.113.9:54321") /\
      serve "192.168.1.5:1234" = Next (mkRequest "GET" "/" "192.168.1.5:1234") /\
      serve "8.8.8.8:1" = Forbidden "Forbidden" 403 /\
      serve "not-an-ip:80" = Forbidden "Forbidden" 403
  | Err _ => False
  end.
Proof. vm_compute. repeat split. Qed.

(** [New] does not look at the interval it parsed. *)
Lemma New_any_interval (config : Config) (name : string) (ex : Exchange)
    (d : time.Duration) (trusted fetched : list net.IPNet) (evs : list Event) :
  time.ParseDuration (RefreshInterval config) = Some d ->
  parseCIDRs (AllowedIPs config) = Ok trusted ->
  fetch (newIPStore CFAPI) (createContext HTTPTimeoutDefault trusted) ex
    = (Ok fetched, evs) ->
  New config name ex
  = (Ok ({| name := name; refreshInterval := d; trustedIPs := trusted |},
         Store (newIPStore CFAPI) (trusted ++ fetched)), evs).
Proof.
  intros Hd Hp Hf. unfold New, Update. rewrite Hd, Hp.
  cbn [CTXTrustedIPs createContext]. rewrite Hf. reflexivity.
Qed.

(** C8, at the failing input.  The intervals ["0s"], ["-5s"] and ["500ms"]
    parse, so [New] returns a gate with an interval that is zero, negative
    or below one second; with the first two, [refreshLoop] then panics in
    [time.NewTicker]. *)
Theorem New_accepts_zero_interval :
  let gate d := {| name := "gate"; refreshInterval := d; trustedIPs := [] |} in
  let ips := Store (newIPStore CFAPI) [net.mkIPNet [203; 0; 113; 0] [255; 255; 255; 0]] in
  let evs := [EvGet CFAPI 5000000000] in
  New zero_interval_config "gate" sample_response = (Ok (gate 0, ips), evs) /\
  New {| RefreshInterval := "-5s"; AllowedIPs := [] |} "gate" sample_response
    = (Ok (gate (-5000000000), ips), evs) /\
  New {| RefreshInterval := "500ms"; AllowedIPs := [] |} "gate" sample_response
    = (Ok (gate 500000000, ips), evs) /\
  (forall sel, refreshLoop (gate 0) sel ips = (TickerPanic, ips, [])) /\
  (forall sel, refreshLoop (gate (-5000000000)) sel ips = (TickerPanic, ips, [])).
Proof.
  cbv zeta. repeat split; vm_compute; reflexivity.
Qed.

(** ** IPv6 remote addresses *)

Lemma append_assoc (s t u : string) :
  ((s ++ t) ++ u)%string = (s ++ (t ++ u))%string.
Proof. induction s as [|c s IH]; simpl; congruence. Qed.

(** Text that [ParseAddr] reads as an IPv6 address has a colon before any
    dot or percent sign, so the text before its first colon has none of the
    three. *)
Lemma ParseAddr_scan_Addr6 (rest s : string) (b : list Z) (zone : string) :
  netip.ParseAddr_scan rest s = Some (netip.Addr6 b zone) ->
  exists pre post,
    rest = (pre ++ String ":" post)%string /\
    netip.IndexByteString pre ":"%char = None /\
    forall t, netip.ParseAddr_scan pre t = None.
Proof.
  induction rest as [|c rest IH]; simpl; [discriminate|].
  destruct (Ascii.eqb c ".") eqn:Edot.
  { unfold netip.parseIPv4. destruct (netip.parseIPv4_loop _ _ _ _ _ _); discriminate. }
  destruct (Ascii.eqb c ":") eqn:Ecolon.
  { intros _. apply Ascii.eqb_eq in Ecolon. subst c.
    exists "", rest. auto. }
  destruct (Ascii.eqb c "%") eqn:Epct; [discriminate|].
  intros H. destruct (IH H) as (pre & post & -> & Hn & Hp).
  exists (String c pre), post. simpl. rewrite Edot, Ecolon, Epct, Hn. auto.
Qed.

(** The host part that [ServeHTTP] takes is refused by [ParseIP] whenever it
    has no dot, colon or percent sign. *)
Lemma ServeHTTP_plain_host (cf : CloudFrontGate) (ips : ipstore) (req : Request)
    (pre post : string) :
  RemoteAddr req = (pre ++ String ":" post)%string ->
  netip.IndexByteString pre ":"%char = None ->
  (forall t, netip.ParseAddr_scan pre t = None) ->
  ServeHTTP cf ips req = (Forbidden "Forbidden" StatusForbidden, ips).
Proof.
  intros Hr Hn Hp. unfold ServeHTTP, strings.Split. rewrite Hr.
  cbn [strings.genSplit]. rewrite Index_byte, (IndexByteString_app _ _ _ Hn).
  rewrite take_app. unfold net.ParseIP, netip.ParseAddr. rewrite Hp. reflexivity.
Qed.

(** C10. A remote address that is an IPv6 address, bare or in brackets with
    a port, is answered 403 Forbidden whatever the store holds: the text
    before its first colon is what [ParseIP] gets, and that is no address. *)
Theorem ServeHTTP_rejects_IPv6 (cf : CloudFrontGate) (ips : ipstore)
    (req : Request) (s port : string) (b : list Z) (zone : string) :
  netip.ParseAddr s = Some (netip.Addr6 b zone) ->
  RemoteAddr req = s \/ RemoteAddr req = ("[" ++ s ++ "]:" ++ port)%string ->
  ServeHTTP cf ips req = (Forbidden "Forbidden" StatusForbidden, ips).
Proof.
  intros Hs Hr.
  destruct (ParseAddr_scan_Addr6 s s b zone Hs) as (pre & post & E & Hn & Hp).
  destruct Hr as [Hr|Hr].
  - apply (ServeHTTP_plain_host cf ips req pre post); congruence.
  - apply (ServeHTTP_plain_host cf ips req (String "[" pre) (post ++ "]:" ++ port)).
    + rewrite Hr, E. simpl. rewrite append_assoc. reflexivity.
    + simpl. rewrite Hn. reflexivity.
    + intros t. simpl. apply Hp.
Qed.

Lemma ServeHTTP_rejects_IPv6_witness :
  ServeHTTP sample_gate
    (Store sample_store [net.mkIPNet (repeat 0 15 ++ [1]) (repeat 255 16)])
    (mkRequest "GET" "/" "[::1]:80")
  = (Forbidden "Forbidden" StatusForbidden,
     Store sample_store [net.mkIPNet (repeat 0 15 ++ [1]) (repeat 255 16)]).
Proof.
  exact (ServeHTTP_rejects_IPv6 sample_gate _ (mkRequest "GET" "/" "[::1]:80")
           "::1" "80" (repeat 0 15 ++ [1]) "" eq_refl (or_intror eq_refl)).
Defined.

(** C5.  The claim fails on the code for a caller with an IPv6 address.
    With the range [2001:db8::/32] allowed by the operator, [New] returns a
    gate whose store contains the address [2001:db8::1]: the host part of
    the remote address [[2001:db8::1]:443] parses and [Contains] is true for
    it.  [ServeHTTP] all the same answers 403 Forbidden, because it parses
    the text before the first colon, which is ["[2001"]. *)
Theorem ServeHTTP_refuses_allowed_IPv6_caller :
  match fst (New {| RefreshInterval := "24h"; AllowedIPs := ["2001:db8::/32"] |}
               "gate" sample_response),
        net.ParseIP "2001:db8::1" with
  | Ok (cf, ips), Some ip =>
      Contains ips ip = true /\
      net.JoinHostPort "2001:db8::1" "443" = "[2001:db8::1]:443" /\
      host_part "[2001:db8::1]:443" "[2001" /\
      net.ParseIP "[2001" = None /\
      ServeHTTP cf ips (mkRequest "GET" "/" (net.JoinHostPort "2001:db8::1" "443"))
      = (Forbidden "Forbidden" StatusForbidden, ips)
  | _, _ => False
  end.
Proof.
  vm_compute. repeat split. right. exists "db8::1]:443". reflexivity.
Qed.

Example IPv6_origin_trusted_but_rejected :
  let ips := Store sample_store [net.mkIPNet (repeat 0 15 ++ [1]) (repeat 255 16)] in
  net.ParseIP "::1" = Some (repeat 0 15 ++ [1]) /\
  Contains ips (repeat 0 15 ++ [1]) = true /\
  fst (ServeHTTP sample_gate ips (mkRequest "GET" "/" "[::1]:80"))
    = Forbidden "Forbidden" 403 /\
  fst (ServeHTTP sample_gate ips (mkRequest "GET" "/" "::1"))
    = Forbidden "Forbidden" 403.
Proof. vm_compute. repeat split. Qed.

(** ** Masks and prefixes *)

Lemma pow8_succ (l : nat) :
  2 ^ (8 * Z.of_nat (S l)) = 256 * 2 ^ (8 * Z.of_nat l).
Proof.
  replace (8 * Z.of_nat (S l)) with (8 + 8 * Z.of_nat l) by lia.
  rewrite Z.pow_add_r by lia. reflexivity.
Qed.

Lemma pow8_pos (l : nat) : 0 < 2 ^ (8 * Z.of_nat l).
Proof. apply Z.pow_pos_nonneg; lia. Qed.

Lemma number_bound (b : list Z) :
  Forall is_byte b -> 0 <= number b < 2 ^ (8 * Z.of_nat (List.length b)).
Proof.
  induction 1 as [|x b Hx Hb IH].
  - simpl. lia.
  - cbn [number List.length]. rewrite pow8_succ.
    pose proof (pow8_pos (List.length b)). unfold is_byte in Hx. nia.
Qed.

Lemma land_255 (x : Z) : is_byte x -> Z.land x 255 = x.
Proof.
  intros H. change 255 with (Z.ones 8). rewrite Z.land_ones by lia.
  apply Z.mod_small. exact H.
Qed.

Lemma mask_byte (n : Z) :
  0 <= n < 8 ->
  Z.lxor 255 (Z.shiftr 255 n) = Z.land 255 (Z.lnot (Z.ones (8 - n))).
Proof.
  intros H.
  assert (K : n = 0 \/ n = 1 \/ n = 2 \/ n = 3 \/ n = 4 \/ n = 5 \/ n = 6 \/ n = 7) by lia.
  repeat (destruct K as [->|K]; [reflexivity|]). subst n. reflexivity.
Qed.

(** The byte of a mask that is partly ones keeps the leading bits. *)
Lemma land_mask_byte (x n : Z) :
  is_byte x -> 0 <= n < 8 ->
  Z.land x (Z.lxor 255 (Z.shiftr 255 n)) = x / 2 ^ (8 - n) * 2 ^ (8 - n).
Proof.
  intros Hx Hn. rewrite mask_byte by exact Hn.
  rewrite Z.land_assoc, land_255 by exact Hx.
  rewrite <- Z.ldiff_land, Z.ldiff_ones_r by lia.
  rewrite Z.shiftl_mul_pow2, Z.shiftr_div_pow2 by lia. reflexivity.
Qed.

Lemma CIDRMask_loop_length (l : nat) (n : Z) :
  List.length (net.CIDRMask_loop l n) = l.
Proof.
  revert n. induction l as [|l IH]; intros n; cbn [net.CIDRMask_loop];
    [reflexivity|].
  destruct (n >=? 8); cbn [List.length]; rewrite IH; reflexivity.
Qed.

Lemma Contains_loop_zero_mask (l : nat) (nn ip : list Z) :
  List.length nn = l -> List.length ip = l ->
  net.Contains_loop nn (net.CIDRMask_loop l 0) ip = true.
Proof.
  revert nn ip. induction l as [|l IH]; intros nn ip Hn Hi.
  - destruct nn; [reflexivity|discriminate].
  - destruct nn as [|x nn]; [discriminate|]. destruct ip as [|z ip]; [discriminate|].
    cbn [net.CIDRMask_loop]. change (0 >=? 8) with false. cbv iota.
    change (Z.lxor 255 (Z.shiftr 255 0)) with 0.
    cbn [net.Contains_loop]. rewrite !Z.land_0_r. simpl.
    apply IH; simpl in *; lia.
Qed.

(** The loop of [net.Contains] under the mask of a prefix length compares
    the leading [ones] bits of the two numbers. *)
Lemma Contains_loop_mask (l : nat) (nn ip : list Z) (ones : Z) :
  List.length nn = l -> List.length ip = l ->
  Forall is_byte nn -> Forall is_byte ip ->
  0 <= ones <= 8 * Z.of_nat l ->
  net.Contains_loop nn (net.CIDRMask_loop l ones) ip = true <->
  number ip / 2 ^ (8 * Z.of_nat l - ones) = number nn / 2 ^ (8 * Z.of_nat l - ones).
Proof.
  revert nn ip ones. induction l as [|l IH]; intros nn ip ones Hn Hi Bn Bi Ho.
  - destruct nn; [|discriminate]. destruct ip; [|discriminate]. simpl. tauto.
  - destruct nn as [|x nn]; [discriminate|]. destruct ip as [|z ip]; [discriminate|].
    inversion Bn as [|? ? Bx Bn']; subst. inversion Bi as [|? ? Bz Bi']; subst.
    injection Hn as Hn. injection Hi as Hi.
    pose proof (number_bound nn Bn') as Nn. pose proof (number_bound ip Bi') as Ni.
    rewrite Hn in Nn. rewrite Hi in Ni.
    cbn [net.CIDRMask_loop number]. rewrite Hn, Hi.
    set (P := 2 ^ (8 * Z.of_nat l)) in *.
    assert (HP : 0 < P) by apply pow8_pos.
    destruct (ones >=? 8) eqn:E.
    + (* a byte of ones *)
      apply Z.geb_le in E. cbn [net.Contains_loop].
      rewrite !land_255 by assumption.
      set (k := 8 * Z.of_nat (S l) - ones).
      assert (Hk : k = 8 * Z.of_nat l - (ones - 8)) by (unfold k; lia).
      assert (HP' : P = 2 ^ (8 * Z.of_nat l - k) * 2 ^ k).
      { unfold P. rewrite <- Z.pow_add_r by lia. f_equal. lia. }
      assert (H2k : 0 < 2 ^ k) by (apply Z.pow_pos_nonneg; lia).
      set (M := 2 ^ (8 * Z.of_nat l - k)) in *.
      assert (HM : 0 < M) by (apply Z.pow_pos_nonneg; lia).
      replace (z * P + number ip) with (z * M * 2 ^ k + number ip) by (rewrite HP'; ring).
      replace (x * P + number nn) with (x * M * 2 ^ k + number nn) by (rewrite HP'; ring).
      rewrite !Z.div_add_l by lia.
      assert (Qi : 0 <= number ip / 2 ^ k < M).
      { split; [apply Z.div_pos; lia|]. apply Z.div_lt_upper_bound; nia. }
      assert (Qn : 0 <= number nn / 2 ^ k < M).
      { split; [apply Z.div_pos; lia|]. apply Z.div_lt_upper_bound; nia. }
      specialize (IH nn ip (ones - 8) Hn Hi Bn' Bi' ltac:(lia)).
      rewrite <- Hk in IH.
      destruct (x =? z) eqn:Exz; simpl.
      * apply Z.eqb_eq in Exz. subst z. rewrite IH. split; intros; lia.
      * apply Z.eqb_neq in Exz. split; [discriminate|]. intros H. exfalso. nia.
    + (* the byte where the ones end *)
      assert (Ho' : 0 <= ones < 8) by (destruct (Z.geb_spec ones 8); [discriminate|lia]).
      cbn [net.Contains_loop].
      rewrite !land_mask_byte by assumption.
      set (j := 8 - ones).
      replace (8 * Z.of_nat (S l) - ones) with (8 * Z.of_nat l + j) by (unfold j; lia).
      rewrite Z.pow_add_r by (unfold j; lia). fold P.
      assert (H2j : 0 < 2 ^ j) by (apply Z.pow_pos_nonneg; unfold j; lia).
      rewrite <- !Z.div_div by lia.
      rewrite !Z.div_add_l by lia.
      rewrite (Z.div_small (number ip)), (Z.div_small (number nn)) by lia.
      rewrite !Z.add_0_r.
      destruct (x / 2 ^ j * 2 ^ j =? z / 2 ^ j * 2 ^ j) eqn:Exz; simpl.
      * apply Z.eqb_eq in Exz. rewrite Contains_loop_zero_mask by assumption.
        split; intros; [nia|reflexivity].
      * apply Z.eqb_neq in Exz. split; [discriminate|]. intros H. exfalso.
        apply Exz. rewrite H. reflexivity.
Qed.

Lemma CIDRMask_32 (ones : Z) :
  0 <= ones <= 32 -> net.CIDRMask ones 32 = net.CIDRMask_loop 4 ones.
Proof.
  intros H. unfold net.CIDRMask.
  change (negb (32 =? 8 * Z.of_nat net.IPv4len)) with false. cbv iota. cbn [andb].
  destruct (Z.ltb_spec ones 0); [lia|].
  destruct (Z.gtb_spec ones 32); [lia|]. reflexivity.
Qed.

Lemma CIDRMask_128 (ones : Z) :
  0 <= ones <= 128 -> net.CIDRMask ones 128 = net.CIDRMask_loop 16 ones.
Proof.
  intros H. unfold net.CIDRMask.
  change (negb (128 =? 8 * Z.of_nat net.IPv6len)) with false.
  rewrite andb_false_r. cbv iota.
  destruct (Z.ltb_spec ones 0); [lia|].
  destruct (Z.gtb_spec ones 128); [lia|]. reflexivity.
Qed.

Lemma CIDRMask_loop_ones (k l : nat) (n : Z) :
  8 * Z.of_nat k <= n ->
  net.CIDRMask_loop (k + l) n
  = repeat 255 k ++ net.CIDRMask_loop l (n - 8 * Z.of_nat k).
Proof.
  revert n. induction k as [|k IH]; intros n H.
  - simpl. f_equal. lia.
  - cbn [Nat.add net.CIDRMask_loop repeat app].
    destruct (Z.geb_spec n 8); [|lia].
    rewrite IH by lia. do 3 f_equal. lia.
Qed.

Lemma skipn_CIDRMask_loop (n : Z) :
  96 <= n -> skipn 12 (net.CIDRMask_loop 16 n) = net.CIDRMask_loop 4 (n - 96).
Proof.
  intros H. change 16%nat with (12 + 4)%nat.
  rewrite (CIDRMask_loop_ones 12 4 n) by lia. reflexivity.
Qed.

Lemma To4_4 (ip : net.IP) : List.length ip = 4%nat -> net.To4 ip = Some ip.
Proof. intros H. unfold net.To4. rewrite H. reflexivity. Qed.

Lemma To4_4in6 (ip : net.IP) :
  List.length ip = 4%nat -> net.To4 (netip.v4InV6Prefix ++ ip) = Some ip.
Proof. intros H. elements H. reflexivity. Qed.

Lemma To4_16 (ip : net.IP) :
  List.length ip = 16%nat ->
  (firstn 12 ip = netip.v4InV6Prefix /\ net.To4 ip = Some (skipn 12 ip)) \/
  (firstn 12 ip <> netip.v4InV6Prefix /\ net.To4 ip = None).
Proof.
  intros H. elements H. unfold net.To4, netip.v4InV6Prefix.
  cbn [List.length Nat.eqb net.IPv4len net.IPv6len].
  cbn [firstn skipn nth net.isZeros forallb andb].
  match goal with |- context [if ?c then _ else _] => destruct c eqn:E end.
  - left. split; [|reflexivity].
    rewrite !andb_true_iff, !Z.eqb_eq in E. decompose [and] E. subst. reflexivity.
  - right. split; [|reflexivity]. intros K. injection K as K.
    subst. discriminate E.
Qed.

Lemma networkNumberAndMask_4 (nn : list Z) (ones : Z) :
  List.length nn = 4%nat -> 0 <= ones <= 32 ->
  net.networkNumberAndMask (net.mkIPNet nn (net.CIDRMask ones 32))
  = (nn, net.CIDRMask_loop 4 ones).
Proof.
  intros L H. unfold net.networkNumberAndMask. cbn [net.IPNet_IP net.IPNet_Mask].
  rewrite (To4_4 nn L), CIDRMask_32, CIDRMask_loop_length, L by lia. reflexivity.
Qed.

Lemma networkNumberAndMask_4in6 (nn : list Z) (ones : Z) :
  List.length nn = 4%nat -> 96 <= ones <= 128 ->
  net.networkNumberAndMask
    (net.mkIPNet (netip.v4InV6Prefix ++ nn) (net.CIDRMask ones 128))
  = (nn, net.CIDRMask_loop 4 (ones - 96)).
Proof.
  intros L H. unfold net.networkNumberAndMask. cbn [net.IPNet_IP net.IPNet_Mask].
  rewrite (To4_4in6 nn L), CIDRMask_128, CIDRMask_loop_length, L by lia.
  cbn [Nat.eqb net.IPv4len net.IPv6len]. rewrite skipn_CIDRMask_loop by lia.
  reflexivity.
Qed.

Lemma networkNumberAndMask_6 (nn : list Z) (ones : Z) :
  List.length nn = 16%nat -> 0 <= ones <= 128 ->
  firstn 12 nn <> netip.v4InV6Prefix ->
  net.networkNumberAndMask (net.mkIPNet nn (net.CIDRMask ones 128))
  = (nn, net.CIDRMask_loop 16 ones).
Proof.
  intros L H N. unfold net.networkNumberAndMask. cbn [net.IPNet_IP net.IPNet_Mask].
  destruct (To4_16 nn L) as [[E _]|[_ E]]; [contradiction|].
  rewrite E, CIDRMask_128, CIDRMask_loop_length, L by lia.
  change (negb (16 =? net.IPv6len)%nat) with false. cbv iota.
  rewrite L. reflexivity.
Qed.

(** The address that [net.Contains] compares: four bytes for IPv4. *)
Lemma address_To4 (ip : net.IP) (f : family) (a : Z) :
  address ip f a ->
  exists ip',
    match net.To4 ip with Some x => x | None => ip end = ip' /\
    number ip' = a /\ Forall is_byte ip' /\
    List.length ip' = match f with IPv4 => 4%nat | IPv6 => 16%nat end.
Proof.
  intros [ip0 L B|ip0 L B|ip0 L B N].
  - exists ip0. rewrite (To4_4 ip0 L). auto.
  - exists ip0. rewrite (To4_4in6 ip0 L). auto.
  - exists ip0. destruct (To4_16 ip0 L) as [[E _]|[_ E]]; [contradiction|].
    rewrite E. auto.
Qed.

(** [net.Contains] on a network that stands for a prefix: the address is of
    the family of the prefix and lies within it. *)
Lemma net_Contains_prefix (n : net.IPNet) (ip : net.IP)
    (f f' : family) (base ones a : Z) :
  prefix n f base ones -> address ip f' a ->
  net.Contains n ip = true <-> f = f' /\ within f base ones a.
Proof.
  intros Hp Ha. unfold net.Contains, within.
  destruct (address_To4 ip f' a Ha) as (ip' & -> & <- & Bi & Li).
  destruct Hp as [nn ones Ln Bn Ho|nn ones Ln Bn Ho|nn ones Ln Bn Ho Hn].
  - rewrite networkNumberAndMask_4, Li, Ln by assumption.
    destruct f'; cbn [Nat.eqb negb bits].
    + rewrite (Contains_loop_mask 4 nn ip' ones) by (auto; lia).
      change (8 * Z.of_nat 4) with 32. tauto.
    + split; [discriminate|]. intros [? _]. discriminate.
  - rewrite networkNumberAndMask_4in6, Li, Ln by assumption.
    destruct f'; cbn [Nat.eqb negb bits].
    + rewrite (Contains_loop_mask 4 nn ip' (ones - 96)) by (auto; lia).
      change (8 * Z.of_nat 4) with 32. tauto.
    + split; [discriminate|]. intros [? _]. discriminate.
  - rewrite networkNumberAndMask_6, Li, Ln by assumption.
    destruct f'; cbn [Nat.eqb negb bits].
    + split; [discriminate|]. intros [? _]. discriminate.
    + rewrite (Contains_loop_mask 16 nn ip' ones) by (auto; lia).
      change (8 * Z.of_nat 16) with 128. tauto.
Qed.

(** C1. For an address and a store whose set is made of prefixes,
    [Contains] returns [true] exactly when a network of the set contains the
    address by the arithmetic of prefixes; it then returned at the first such
    network.  It returns [false] when none does, and when the value loaded
    is no slice of networks. *)
Theorem Contains_prefix_matching (ips : ipstore) (ip : net.IP) (f : family) (a : Z) :
  address ip f a ->
  (forall cidrs, Load ips = Some cidrs -> Forall is_prefix cidrs) ->
  (Contains ips ip = true <->
   exists cidrs ipNet,
     Load ips = Some cidrs /\ In ipNet cidrs /\ contains_address ipNet ip) /\
  (Contains ips ip = true ->
   exists before ipNet after,
     Load ips = Some (before ++ ipNet :: after) /\
     Forall (fun n => ~ contains_address n ip) before /\
     contains_address ipNet ip /\
     forall after', Contains (Store ips (before ++ ipNet :: after')) ip = true) /\
  (Contains ips ip = false <->
   Load ips = None \/
   exists cidrs,
     Load ips = Some cidrs /\ Forall (fun n => ~ contains_address n ip) cidrs).
Proof.
  intros Ha Hw.
  assert (Yes : forall n, is_prefix n -> net.Contains n ip = true -> contains_address n ip).
  { intros n (f' & base & ones & Hp) Hc.
    destruct (proj1 (net_Contains_prefix n ip f' f base ones a Hp Ha) Hc) as [-> Hin].
    exists f, base, ones, a. auto. }
  assert (No : forall n, contains_address n ip -> net.Contains n ip = true).
  { intros n (f' & base & ones & a' & Hp & Ha' & Hin).
    apply (net_Contains_prefix n ip f' f' base ones a' Hp Ha'). auto. }
  unfold Contains. destruct (Load ips) as [cidrs|] eqn:El.
  - specialize (Hw cidrs eq_refl). rewrite Forall_forall in Hw.
    repeat split.
    + intros H. rewrite Contains_loop_existsb in H.
      apply existsb_exists in H. destruct H as (n & Hn & Hc).
      exists cidrs, n. auto.
    + intros (c & n & Hc & Hn & Hin). injection Hc as <-.
      rewrite Contains_loop_existsb. apply existsb_exists. exists n. auto.
    + intros H. destruct (Contains_loop_first cidrs ip H) as (b & n & after & -> & Hb & Hn & Hf).
      exists b, n, after. repeat split; auto.
      * rewrite Forall_forall in *. intros m Hm Hc.
        specialize (Hb m Hm). simpl in Hb. rewrite (No m Hc) in Hb. discriminate.
      * apply Yes; [apply Hw, in_or_app; simpl; auto|exact Hn].
    + intros H. right. exists cidrs. split; [reflexivity|].
      rewrite Forall_forall. intros n Hn Hc.
      rewrite Contains_loop_existsb in H.
      assert (K : existsb (fun ipNet => net.Contains ipNet ip) cidrs = true).
      { apply existsb_exists. exists n. auto. }
      congruence.
    + intros [H|(c & Hc & Hall)]; [discriminate|]. injection Hc as <-.
      rewrite Contains_loop_existsb.
      destruct (existsb _ cidrs) eqn:E; [|reflexivity].
      apply existsb_exists in E. destruct E as (n & Hn & Hc).
      rewrite Forall_forall in Hall. exfalso. apply (Hall n Hn). auto.
  - repeat split; try discriminate; auto.
    intros (c & n & Hc & _). discriminate.
Qed.

(** ** What the parsers return *)

Lemma Forall_is_byte_app (a b : list Z) :
  Forall is_byte a -> Forall is_byte b -> Forall is_byte (a ++ b).
Proof. intros. apply Forall_app. auto. Qed.

Lemma Forall_firstn (n : nat) (l : list Z) :
  Forall is_byte l -> Forall is_byte (firstn n l).
Proof.
  revert l. induction n as [|n IH]; intros l H; [constructor|].
  destruct H; simpl; constructor; auto.
Qed.

Lemma Forall_skipn (n : nat) (l : list Z) :
  Forall is_byte l -> Forall is_byte (skipn n l).
Proof.
  revert l. induction n as [|n IH]; intros l H; [exact H|].
  destruct H; simpl; [constructor|auto].
Qed.

Lemma isDigit_code (c : ascii) : isDigit c = true -> 48 <= code c <= 57.
Proof. unfold isDigit. intros H. apply andb_true_iff in H. lia. Qed.

(** The loop of [parseIPv4] returns four bytes. *)
Lemma parseIPv4_loop_bytes (s : string) (first prevDot : bool)
    (fields : list Z) (val digLen : Z) (out : list Z) :
  Forall is_byte fields -> is_byte val -> (List.length fields <= 3)%nat ->
  netip.parseIPv4_loop s first prevDot fields val digLen = Some out ->
  List.length out = 4%nat /\ Forall is_byte out.
Proof.
  revert first prevDot fields val digLen.
  induction s as [|c s IH]; intros first prevDot fields val digLen Bf Bv Lf;
    cbn [netip.parseIPv4_loop].
  - destruct (Z.ltb_spec (Z.of_nat (List.length fields)) 3) as [?|Hl]; [discriminate|].
    intros K. injection K as <-. split.
    + rewrite length_app. simpl. lia.
    + apply Forall_is_byte_app; auto.
  - destruct (isDigit c) eqn:Ed.
    + destruct ((digLen =? 1) && (val =? 0)); [discriminate|].
      destruct (Z.gtb_spec (val * 10 + code c - 48) 255); [discriminate|].
      apply IH; auto. apply isDigit_code in Ed. unfold is_byte in *. lia.
    + destruct (Ascii.eqb c "."); [|discriminate].
      destruct (first || (String.length s =? 0)%nat || prevDot); [discriminate|].
      destruct (Z.eqb_spec (Z.of_nat (List.length fields)) 3); [discriminate|].
      apply IH.
      * apply Forall_is_byte_app; auto.
      * unfold is_byte. lia.
      * rewrite length_app. simpl. lia.
Qed.

Lemma parseIPv4_bytes (s : string) (out : list Z) :
  netip.parseIPv4_loop s true false [] 0 0 = Some out ->
  List.length out = 4%nat /\ Forall is_byte out.
Proof.
  apply parseIPv4_loop_bytes; [constructor|unfold is_byte; lia|simpl; lia].
Qed.

Lemma hexDigit_range (c : ascii) (d : Z) :
  netip.hexDigit c = Some d -> 0 <= d <= 15.
Proof.
  unfold netip.hexDigit.
  destruct ((48 <=? code c) && (code c <=? 57)) eqn:A.
  { intros H. injection H as <-. apply andb_true_iff in A. lia. }
  destruct ((97 <=? code c) && (code c <=? 102)) eqn:B.
  { intros H. injection H as <-. apply andb_true_iff in B. lia. }
  destruct ((65 <=? code c) && (code c <=? 70)) eqn:C; [|discriminate].
  intros H. injection H as <-. apply andb_true_iff in C. lia.
Qed.

Lemma hexGroup_range (s : string) (off acc off' acc' : Z) (rest : string) :
  0 <= acc <= 65535 ->
  netip.hexGroup s off acc = Some (off', acc', rest) -> 0 <= acc' <= 65535.
Proof.
  revert off acc. induction s as [|c s IH]; intros off acc Ha; cbn [netip.hexGroup].
  - intros H. injection H as <- <- <-. exact Ha.
  - destruct (netip.hexDigit c) as [d|] eqn:Ed.
    + destruct (off >? 3); [discriminate|].
      destruct (Z.gtb_spec (Z.shiftl acc 4 + d) 65535) as [?|Hle]; [discriminate|].
      apply IH. apply hexDigit_range in Ed.
      rewrite Z.shiftl_mul_pow2 in Hle by lia. rewrite Z.shiftl_mul_pow2 by lia. lia.
    + intros H. injection H as <- <- <-. exact Ha.
Qed.

Lemma chunk_bytes (acc : Z) :
  0 <= acc <= 65535 -> Forall is_byte [Z.shiftr acc 8; Z.land acc 255].
Proof.
  intros H. repeat constructor; unfold is_byte.
  - rewrite Z.shiftr_div_pow2 by lia. apply Z.div_pos; lia.
  - rewrite Z.shiftr_div_pow2 by lia. apply Z.div_lt_upper_bound; lia.
  - change 255 with (Z.ones 8). rewrite Z.land_ones by lia.
    apply Z.mod_pos_bound. lia.
  - change 255 with (Z.ones 8). rewrite Z.land_ones by lia.
    apply Z.mod_pos_bound. lia.
Qed.

(** The loop of [parseIPv6] writes bytes, two or four at a time, and at
    most sixteen. *)
Lemma parseIPv6_loop_bytes (fuel : nat) (s : string) (ip : list Z)
    (ellipsis : option nat) (s' : string) (ip' : list Z) (ellipsis' : option nat) :
  Forall is_byte ip -> (List.length ip <= 16)%nat ->
  Nat.even (List.length ip) = true ->
  netip.parseIPv6_loop fuel s ip ellipsis = Some (s', ip', ellipsis') ->
  Forall is_byte ip' /\ (List.length ip' <= 16)%nat.
Proof.
  revert s ip ellipsis.
  induction fuel as [|fuel IH]; intros s ip ellipsis Bi Li Ei;
    cbn [netip.parseIPv6_loop].
  - intros H. injection H as <- <- <-. auto.
  - destruct (Nat.leb_spec 16 (List.length ip)).
    { intros H0. injection H0 as <- <- <-. auto. }
    destruct (netip.hexGroup s 0 0) as [[[off acc] rest]|] eqn:Eg; [|discriminate].
    destruct (off =? 0); [discriminate|].
    pose proof (hexGroup_range s 0 0 off acc rest ltac:(lia) Eg) as Ra.
    destruct (netip.HasDot rest).
    + destruct (netip.isNone ellipsis && negb (List.length ip =? 12)%nat); [discriminate|].
      destruct (Nat.ltb_spec 16 (List.length ip + 4)); [discriminate|].
      destruct (netip.parseIPv4_loop s true false [] 0 0) as [ip4|] eqn:E4; [|discriminate].
      intros H1. injection H1 as <- <- <-.
      destruct (parseIPv4_bytes s ip4 E4) as [L4 B4].
      split; [apply Forall_is_byte_app; auto|]. rewrite length_app. lia.
    + assert (B2 : Forall is_byte (ip ++ [Z.shiftr acc 8; Z.land acc 255])).
      { apply Forall_is_byte_app; [auto|apply chunk_bytes; exact Ra]. }
      assert (L2 : (List.length (ip ++ [Z.shiftr acc 8; Z.land acc 255]) <= 16)%nat).
      { rewrite length_app. simpl.
        assert (List.length ip <> 15)%nat by (intros K; rewrite K in Ei; discriminate).
        lia. }
      assert (E2 : Nat.even (List.length (ip ++ [Z.shiftr acc 8; Z.land acc 255])) = true).
      { rewrite length_app. simpl. rewrite Nat.add_comm. exact Ei. }
      destruct rest as [|c s1].
      { intros H1. injection H1 as <- <- <-. auto. }
      destruct (negb (Ascii.eqb c ":")); [discriminate|].
      destruct s1 as [|c1 s2]; [discriminate|].
      destruct (Ascii.eqb c1 ":").
      * destruct (negb (netip.isNone ellipsis)); [discriminate|].
        destruct s2 as [|c2 s3].
        { intros H1. injection H1 as <- <- <-. auto. }
        apply IH; auto.
      * apply IH; auto.
Qed.

Lemma parseIPv6_bytes (input : string) (b : list Z) (zone : string) :
  netip.parseIPv6 input = Some (netip.Addr6 b zone) ->
  List.length b = 16%nat /\ Forall is_byte b.
Proof.
  unfold netip.parseIPv6.
  destruct (match netip.IndexByteString input "%" with
            | Some i => _ | None => _ end) as [[s z] zoneOk].
  destruct (negb zoneOk); [discriminate|].
  destruct (match s with String ":" (String ":" s') => _ | _ => _ end) as [s0 ellipsis].
  assert (Z16 : Forall is_byte (repeat 0 16)).
  { apply Forall_forall. intros x Hx. apply repeat_spec in Hx. subst x.
    unfold is_byte. lia. }
  destruct (netip.isSome ellipsis && (String.length s0 =? 0)%nat).
  { intros H. injection H as <- <-. split; [reflexivity|exact Z16]. }
  destruct (netip.parseIPv6_loop 8 s0 [] ellipsis) as [[[s1 ip] ell]|] eqn:El; [|discriminate].
  destruct (parseIPv6_loop_bytes 8 s0 [] ellipsis s1 ip ell (Forall_nil _)
              ltac:(simpl; lia) eq_refl El) as [Bi Li].
  destruct (negb (String.length s1 =? 0)%nat); [discriminate|].
  destruct (Nat.ltb_spec (List.length ip) 16).
  - destruct ell as [e|]; [|discriminate].
    intros H0. injection H0 as <- <-. split.
    + rewrite !length_app, repeat_length, length_firstn, length_skipn.
      change (Nat.min e (List.length ip)
              + ((16 - List.length ip) + (List.length ip - e)) = 16)%nat.
      lia.
    + apply Forall_is_byte_app; [apply Forall_firstn; exact Bi|].
      apply Forall_is_byte_app; [|apply Forall_skipn; exact Bi].
      apply Forall_forall. intros x Hx. apply repeat_spec in Hx. subst x.
      unfold is_byte. lia.
  - destruct (netip.isSome ell); [discriminate|].
    intros H0. injection H0 as <- <-. split; [lia|exact Bi].
Qed.

(** [ParseAddr] returns four bytes or sixteen. *)
Lemma ParseAddr_bytes (s : string) (a : netip.Addr) :
  netip.ParseAddr s = Some a ->
  match a with
  | netip.Addr4 b => List.length b = 4%nat /\ Forall is_byte b
  | netip.Addr6 b _ => List.length b = 16%nat /\ Forall is_byte b
  end.
Proof.
  unfold netip.ParseAddr. generalize s at 1. intros rest.
  induction rest as [|c rest IH]; simpl; [discriminate|].
  destruct (Ascii.eqb c ".").
  { unfold netip.parseIPv4.
    destruct (netip.parseIPv4_loop s true false [] 0 0) as [b|] eqn:E; [|discriminate].
    intros H. injection H as <-.
    apply (parseIPv4_bytes s b E). }
  destruct (Ascii.eqb c ":").
  { destruct (netip.parseIPv6 s) as [[b|b z]|] eqn:E; try discriminate.
    - unfold netip.parseIPv6 in E. exfalso. revert E.
      repeat match goal with
             | |- context [match ?x with _ => _ end] => destruct x
             end; discriminate.
    - intros H. injection H as <-. apply (parseIPv6_bytes s b z E). }
  destruct (Ascii.eqb c "%"); [discriminate|]. exact IH.
Qed.

Lemma firstn_skipn_v4InV6 (b : list Z) :
  firstn 12 b = netip.v4InV6Prefix -> b = netip.v4InV6Prefix ++ skipn 12 b.
Proof. intros H. rewrite <- H. symmetry. apply firstn_skipn. Qed.

Lemma sixteen_bytes_address (b : list Z) :
  List.length b = 16%nat -> Forall is_byte b -> exists f a, address b f a.
Proof.
  intros L B. destruct (To4_16 b L) as [[E _]|[E _]].
  - rewrite (firstn_skipn_v4InV6 b E). exists IPv4, (number (skipn 12 b)).
    apply address_4in6; [rewrite length_skipn; lia|apply Forall_skipn; exact B].
  - exists IPv6, (number b). apply address_6; auto.
Qed.

(** What [ParseIP] returns is an address. *)
Lemma ParseIP_address (s : string) (ip : net.IP) :
  net.ParseIP s = Some ip -> exists f a, address ip f a.
Proof.
  unfold net.ParseIP.
  destruct (netip.ParseAddr s) as [[b|b z]|] eqn:E; [| |discriminate];
    destruct (negb _); try discriminate; intros H; injection H as <-;
    destruct (ParseAddr_bytes s _ E) as [L B]; simpl.
  - exists IPv4, (number b). apply address_4in6; auto.
  - apply sixteen_bytes_address; auto.
Qed.

Lemma land_is_byte (x m : Z) : is_byte m -> is_byte (Z.land x m).
Proof.
  intros H. rewrite <- (land_255 m H), Z.land_assoc.
  change 255 with (Z.ones 8). rewrite Z.land_ones by lia.
  apply Z.mod_pos_bound. lia.
Qed.

Lemma land_eq_255 (x m : Z) : is_byte m -> Z.land x m = 255 -> m = 255.
Proof.
  intros H E.
  assert (K : Z.land (Z.land x m) m = Z.land x m)
    by (rewrite <- Z.land_assoc, Z.land_diag; reflexivity).
  rewrite E, Z.land_comm, land_255 in K by exact H. exact K.
Qed.

Lemma mask_byte_range (n : Z) :
  0 <= n < 8 -> 0 <= Z.lxor 255 (Z.shiftr 255 n) < 255.
Proof.
  intros H.
  assert (K : n = 0 \/ n = 1 \/ n = 2 \/ n = 3 \/ n = 4 \/ n = 5 \/ n = 6 \/ n = 7) by lia.
  repeat (destruct K as [->|K]; [simpl; lia|]). subst n. simpl. lia.
Qed.

Lemma CIDRMask_loop_bytes (l : nat) (n : Z) :
  0 <= n -> Forall is_byte (net.CIDRMask_loop l n).
Proof.
  revert n. induction l as [|l IH]; intros n H; cbn [net.CIDRMask_loop];
    [constructor|].
  destruct (Z.geb_spec n 8).
  - constructor; [unfold is_byte; lia|apply IH; lia].
  - constructor; [|apply IH; lia].
    pose proof (mask_byte_range n ltac:(lia)). unfold is_byte. lia.
Qed.

(** A byte of the mask is [255] only within the leading ones. *)
Lemma nth_CIDRMask_loop_255 (l : nat) (n : Z) (k : nat) :
  0 <= n -> (k < l)%nat -> nth k (net.CIDRMask_loop l n) 0 = 255 ->
  8 * (Z.of_nat k + 1) <= n.
Proof.
  revert n k. induction l as [|l IH]; intros n k Hn Hk; [lia|].
  cbn [net.CIDRMask_loop]. destruct (Z.geb_spec n 8) as [G|G].
  - destruct k as [|k]; cbn [nth]; [lia|].
    intros K. apply IH in K; lia.
  - destruct k as [|k]; cbn [nth].
    + pose proof (mask_byte_range n ltac:(lia)). lia.
    + intros K. apply IH in K; lia.
Qed.

Lemma andBytes_length (ip mask : list Z) :
  List.length ip = List.length mask ->
  List.length (net.andBytes ip mask) = List.length ip.
Proof.
  revert mask. induction ip as [|x ip IH]; intros [|m mask] H; simpl in *;
    try discriminate; auto.
Qed.

Lemma andBytes_bytes (ip mask : list Z) :
  Forall is_byte mask -> Forall is_byte (net.andBytes ip mask).
Proof.
  revert mask. induction ip as [|x ip IH]; intros [|m mask] H; simpl;
    try constructor.
  - inversion H; subst. apply land_is_byte. assumption.
  - inversion H; subst. apply IH. assumption.
Qed.

Lemma nth_andBytes (ip mask : list Z) (k : nat) :
  List.length ip = List.length mask ->
  nth k (net.andBytes ip mask) 0 = Z.land (nth k ip 0) (nth k mask 0).
Proof.
  revert mask k. induction ip as [|x ip IH]; intros [|m mask] k H; simpl in *;
    try discriminate.
  - destruct k; reflexivity.
  - destruct k; [reflexivity|]. apply IH. lia.
Qed.

Lemma nth_11_v4InV6 (b : list Z) :
  firstn 12 b = netip.v4InV6Prefix -> nth 11 b 0 = 255.
Proof.
  intros H. rewrite (firstn_skipn_v4InV6 b H). reflexivity.
Qed.

Lemma Mask_4 (b m : list Z) :
  List.length b = 4%nat -> List.length m = 4%nat ->
  net.Mask (netip.v4InV6Prefix ++ b) m = net.andBytes b m.
Proof. intros Hb Hm. elements Hb. elements Hm. reflexivity. Qed.

Lemma Mask_16 (b m : list Z) :
  List.length b = 16%nat -> List.length m = 16%nat ->
  net.Mask b m = net.andBytes b m.
Proof. intros Hb Hm. elements Hb. elements Hm. reflexivity. Qed.

Lemma dtoi_loop_nonneg (s : string) (n i n' i' : Z) :
  0 <= n -> net.dtoi_loop s n i = (n', i', true) -> 0 <= n'.
Proof.
  revert n i. induction s as [|c s IH]; intros n i Hn; simpl.
  - destruct (i =? 0); intros H; injection H as <- <-; try discriminate; lia.
  - destruct (isDigit c) eqn:Ed.
    + destruct (_ >=? net.big); [discriminate|].
      apply IH. apply isDigit_code in Ed. lia.
    + destruct (i =? 0); intros H; injection H as <- <-; try discriminate; lia.
Qed.

(** What [ParseCIDR] returns stands for a prefix. *)
Lemma ParseCIDR_is_prefix (s : string) (n : net.IPNet) :
  net.ParseCIDR s = Some n -> is_prefix n.
Proof.
  unfold net.ParseCIDR.
  destruct (netip.IndexByteString s "/") as [i|]; [|discriminate].
  destruct (netip.ParseAddr (take i s)) as [ipAddr|] eqn:Ea; [|discriminate].
  destruct (negb (String.length (netip.Zone ipAddr) =? 0)%nat); [discriminate|].
  destruct (net.dtoi (drop (S i) s)) as [[ones j] ok] eqn:Ed.
  destruct ok; [|discriminate]. cbn [negb orb].
  destruct (negb (j =? len (drop (S i) s))); [discriminate|]. cbn [orb].
  destruct (Z.ltb_spec ones 0) as [?|O1]; [discriminate|]. cbn [orb].
  destruct (Z.gtb_spec ones (netip.BitLen ipAddr)) as [?|O2]; [discriminate|].
  intros K0. injection K0 as <-.
  pose proof (ParseAddr_bytes _ _ Ea) as Hb.
  destruct ipAddr as [b|b z]; destruct Hb as [L B]; cbn [netip.BitLen netip.As16] in *.
  - (* an IPv4 address *)
    rewrite CIDRMask_32 by lia.
    assert (Em : net.Mask (netip.v4InV6Prefix ++ b) (net.CIDRMask_loop 4 ones)
                 = net.andBytes b (net.CIDRMask_loop 4 ones)).
    { apply Mask_4; [exact L|apply CIDRMask_loop_length]. }
    rewrite Em. set (ip := net.andBytes b (net.CIDRMask_loop 4 ones)).
    assert (Li : List.length ip = 4%nat).
    { unfold ip. rewrite andBytes_length; rewrite ?CIDRMask_loop_length; auto. }
    assert (Bi : Forall is_byte ip).
    { apply andBytes_bytes, CIDRMask_loop_bytes. lia. }
    rewrite <- CIDRMask_32 by lia.
    exists IPv4, (number ip), ones. apply prefix_4; auto.
  - (* an IPv6 address *)
    rewrite CIDRMask_128 by lia.
    assert (Em : net.Mask b (net.CIDRMask_loop 16 ones)
                 = net.andBytes b (net.CIDRMask_loop 16 ones)).
    { apply Mask_16; [exact L|apply CIDRMask_loop_length]. }
    rewrite Em. set (ip := net.andBytes b (net.CIDRMask_loop 16 ones)).
    assert (Li : List.length ip = 16%nat).
    { unfold ip. rewrite andBytes_length; rewrite ?CIDRMask_loop_length; auto. }
    assert (Bi : Forall is_byte ip).
    { apply andBytes_bytes, CIDRMask_loop_bytes. lia. }
    rewrite <- CIDRMask_128 by lia.
    destruct (To4_16 ip Li) as [[E _]|[E _]].
    + assert (96 <= ones).
      { pose proof (nth_11_v4InV6 ip E) as K. unfold ip in K.
        rewrite nth_andBytes in K by (rewrite CIDRMask_loop_length; exact L).
        apply land_eq_255 in K.
        - apply nth_CIDRMask_loop_255 in K; lia.
        - pose proof (CIDRMask_loop_bytes 16 ones ltac:(lia)) as Bm.
          rewrite Forall_forall in Bm. apply Bm, nth_In.
          rewrite CIDRMask_loop_length. lia. }
      rewrite (firstn_skipn_v4InV6 ip E).
      exists IPv4, (number (skipn 12 ip)), (ones - 96).
      apply prefix_4in6; [rewrite length_skipn; lia|apply Forall_skipn; exact Bi|lia].
    + exists IPv6, (number ip), ones. apply prefix_6; auto.
Qed.

(** The slices that [parseCIDRs] returns: the networks of the entries, in
    their order, a bare address with ["/32"] after it. *)
Lemma parseCIDRs_loop_Ok (ips : list string) (acc out : list net.IPNet) :
  parseCIDRs_loop ips acc = Ok out ->
  exists nets,
    out = acc ++ nets /\
    Forall2 (fun ip ipNet =>
               net.ParseCIDR (if negb (strings.Contains ip "/")
                              then (ip ++ "/32")%string else ip) = Some ipNet)
            ips nets.
Proof.
  revert acc. induction ips as [|ip ips IH]; intros acc; simpl.
  - intros H. injection H as <-. exists []. rewrite app_nil_r. auto.
  - destruct (net.ParseCIDR _) as [ipNet|] eqn:E; [|discriminate].
    intros H. destruct (IH _ H) as (nets & -> & Hf).
    exists (ipNet :: nets). rewrite <- app_assoc. simpl. auto.
Qed.

Lemma parseCIDRs_is_prefix (ips : list string) (out : list net.IPNet) :
  parseCIDRs ips = Ok out -> Forall is_prefix out.
Proof.
  intros H. destruct (parseCIDRs_loop_Ok ips [] out H) as (nets & -> & Hf).
  simpl. clear H. induction Hf; constructor; auto.
  eapply ParseCIDR_is_prefix. eassumption.
Qed.

(** ** The sets that the program stores *)

Lemma newIPStore_prefixes (cfURL : string) : prefixes (newIPStore cfURL).
Proof. intros cidrs H. injection H as <-. constructor. Qed.

Lemma Update_prefixes (ips : ipstore) (timeout : Z) (trusted : list net.IPNet)
    (ex : Exchange) :
  prefixes ips -> Forall is_prefix trusted ->
  prefixes (snd (fst (Update ips (createContext timeout trusted) ex))).
Proof.
  intros Hi Ht. unfold Update. cbn [CTXTrustedIPs createContext].
  destruct (fetch ips _ ex) as [[fetched|e] evs] eqn:Hf; simpl; [|exact Hi].
  destruct (fetch_Ok ips (createContext timeout trusted) ex fetched)
    as (s & resp & ce & g & r & _ & Hg & Hr & ->).
  { rewrite Hf. reflexivity. }
  intros cidrs H. injection H as <-.
  apply Forall_app. split; [exact Ht|].
  apply Forall_app. split; eapply parseCIDRs_is_prefix; eassumption.
Qed.

Lemma refreshLoop_for_prefixes (cf : CloudFrontGate) (sel : list Select)
    (ips : ipstore) :
  prefixes ips -> Forall is_prefix (trustedIPs cf) ->
  prefixes (snd (fst (refreshLoop_for cf sel ips))).
Proof.
  intros Hi Ht. revert ips Hi. induction sel as [|[|ex] sel IH]; intros ips Hi.
  - exact Hi.
  - exact Hi.
  - destruct (refreshLoop_for_Tick cf ex sel ips) as [_ E]. cbv zeta in E.
    rewrite E. apply IH. apply Update_prefixes; assumption.
Qed.

(** In every run of the program, [New] and then [refreshLoop] over what its
    [select] receives, the set in the store is made of prefixes: every set
    that the gate reads stands for ranges of addresses. *)
Lemma program_prefixes (config : Config) (name : string) (ex : Exchange)
    (sel : list Select) (cf : CloudFrontGate) (ips : ipstore) :
  fst (New config name ex) = Ok (cf, ips) ->
  prefixes ips /\ prefixes (snd (fst (refreshLoop cf sel ips))).
Proof.
  unfold New.
  destruct (time.ParseDuration (RefreshInterval config)) as [d|]; [|discriminate].
  destruct (parseCIDRs (AllowedIPs config)) as [trusted|e] eqn:Hp; [|discriminate].
  pose proof (Update_prefixes (newIPStore CFAPI) HTTPTimeoutDefault trusted ex
                (newIPStore_prefixes CFAPI) (parseCIDRs_is_prefix _ _ Hp)) as K.
  destruct (Update _ _ ex) as [[[err|] ips1] evs]; simpl in *; [discriminate|].
  intros H. injection H as <- <-. split; [exact K|].
  unfold refreshLoop. simpl.
  destruct (d <=? 0); [exact K|].
  apply refreshLoop_for_prefixes; [exact K|].
  exact (parseCIDRs_is_prefix _ _ Hp).
Qed.

Lemma scenario_store_prefixes : prefixes scenario_store.
Proof.
  intros cidrs H. injection H as <-.
  repeat constructor.
  - exists IPv4, (number [192; 168; 1; 0]), 24.
    apply (prefix_4 [192; 168; 1; 0] 24 eq_refl); [|lia].
    repeat constructor; unfold is_byte; lia.
  - exists IPv4, (number [203; 0; 113; 0]), 24.
    apply (prefix_4 [203; 0; 113; 0] 24 eq_refl); [|lia].
    repeat constructor; unfold is_byte; lia.
Defined.

Lemma sample_address : address [192; 168; 1; 5] IPv4 (number [192; 168; 1; 5]).
Proof.
  apply address_4; [reflexivity|]. repeat constructor; unfold is_byte; lia.
Defined.

Lemma Contains_prefix_matching_witness :
  Contains scenario_store [192; 168; 1; 5] = true <->
  exists cidrs ipNet,
    Load scenario_store = Some cidrs /\ In ipNet cidrs /\
    contains_address ipNet [192; 168; 1; 5].
Proof.
  exact (proj1 (Contains_prefix_matching scenario_store [192; 168; 1; 5] IPv4 _
                  sample_address scenario_store_prefixes)).
Defined.

(** The example of the spec: [10.0.0.5] lies in [10.0.0.0/24] and not in
    [10.0.1.0/24], for the code and by the arithmetic. *)
Example ten_dot_example :
  net.ParseIP "10.0.0.5" = Some (netip.v4InV6Prefix ++ [10; 0; 0; 5]) /\
  net.ParseCIDR "10.0.0.0/24" = Some (net.mkIPNet [10; 0; 0; 0] [255; 255; 255; 0]) /\
  net.ParseCIDR "10.0.1.0/24" = Some (net.mkIPNet [10; 0; 1; 0] [255; 255; 255; 0]) /\
  net.Contains (net.mkIPNet [10; 0; 0; 0] [255; 255; 255; 0])
    (netip.v4InV6Prefix ++ [10; 0; 0; 5]) = true /\
  net.Contains (net.mkIPNet [10; 0; 1; 0] [255; 255; 255; 0])
    (netip.v4InV6Prefix ++ [10; 0; 0; 5]) = false /\
  within IPv4 (number [10; 0; 0; 0]) 24 (number [10; 0; 0; 5]) /\
  ~ within IPv4 (number [10; 0; 1; 0]) 24 (number [10; 0; 0; 5]).
Proof.
  repeat split; try reflexivity. unfold within. vm_compute. discriminate.
Qed.

(** ** Bare addresses in [parseCIDRs] *)

Lemma drop_app_S (s t : string) (c : ascii) :
  drop (S (String.length s)) (s ++ String c t) = t.
Proof. induction s as [|x s IH]; simpl; auto. Qed.

Lemma andBytes_allFF (b : list Z) :
  Forall is_byte b -> net.andBytes b (repeat 255 (List.length b)) = b.
Proof.
  induction 1 as [|x b Hx Hb IH]; [reflexivity|].
  cbn [List.length repeat net.andBytes]. rewrite land_255, IH by exact Hx.
  reflexivity.
Qed.

(** What [parseCIDRs] makes of an entry without a slash: the network of the
    entry with ["/32"] after it, whatever the family of the address. *)
Lemma parseCIDRs_bare (s : string) :
  strings.Contains s "/" = false ->
  parseCIDRs [s]
  = match netip.ParseAddr s with
    | Some (netip.Addr4 b) =>
        Ok [net.mkIPNet (net.Mask (netip.v4InV6Prefix ++ b) (net.CIDRMask 32 32))
              (net.CIDRMask 32 32)]
    | Some (netip.Addr6 b zone) =>
        if (String.length zone =? 0)%nat
        then Ok [net.mkIPNet (net.Mask b (net.CIDRMask 32 128)) (net.CIDRMask 32 128)]
        else Err (fmt_Errorf "failed to parse CIDR" (lib_error (s ++ "/32")%string))
    | None => Err (fmt_Errorf "failed to parse CIDR" (lib_error (s ++ "/32")%string))
    end.
Proof.
  intros Hs. unfold parseCIDRs. cbn [parseCIDRs_loop]. rewrite Hs. cbn [negb].
  unfold strings.Contains in Hs. rewrite Index_byte in Hs.
  assert (Hn : netip.IndexByteString s "/" = None)
    by (destruct (netip.IndexByteString s "/"); [discriminate|reflexivity]).
  unfold net.ParseCIDR.
  change (s ++ "/32")%string with (s ++ String "/" "32")%string.
  rewrite (IndexByteString_app s "32" "/" Hn), take_app, drop_app_S.
  destruct (netip.ParseAddr s) as [[b|b zone]|]; [| |reflexivity].
  - reflexivity.
  - cbn [netip.Zone]. destruct (String.length zone =? 0)%nat; reflexivity.
Qed.

(** The part of C6 that holds: a bare IPv4 address becomes the range [/32]
    that contains this address and no other. *)
Lemma parseCIDRs_bare_IPv4 (s : string) (b : list Z) :
  strings.Contains s "/" = false ->
  netip.ParseAddr s = Some (netip.Addr4 b) ->
  parseCIDRs [s] = Ok [net.mkIPNet b (net.CIDRMask 32 32)] /\
  prefix (net.mkIPNet b (net.CIDRMask 32 32)) IPv4 (number b) 32 /\
  forall ip f a,
    address ip f a ->
    (net.Contains (net.mkIPNet b (net.CIDRMask 32 32)) ip = true <->
     f = IPv4 /\ a = number b).
Proof.
  intros Hs Ha. destruct (ParseAddr_bytes s _ Ha) as [L B].
  assert (P : prefix (net.mkIPNet b (net.CIDRMask 32 32)) IPv4 (number b) 32)
    by (apply prefix_4; auto; lia).
  split; [|split; [exact P|]].
  - rewrite (parseCIDRs_bare s Hs), Ha.
    rewrite (Mask_4 b (net.CIDRMask 32 32) L eq_refl).
    change (net.CIDRMask 32 32) with (repeat 255 4). rewrite <- L at 1.
    rewrite andBytes_allFF by exact B. reflexivity.
  - intros ip f a Hip.
    rewrite (net_Contains_prefix _ ip IPv4 f (number b) 32 a P Hip).
    unfold within. change (2 ^ (bits IPv4 - 32)) with 1. rewrite !Z.div_1_r.
    split; intros [-> ?]; auto.
Qed.

(** C6, at the failing input.  The bare IPv6 address [2001:db8::1] becomes
    the range [2001:db8::/32], not [2001:db8::1/128]: the mask has 32 ones,
    and the range contains other addresses, [2001:db8:ffff::2] for one. *)
Theorem parseCIDRs_bare_IPv6 :
  let ipNet := net.mkIPNet ([32; 1; 13; 184] ++ repeat 0 12) (net.CIDRMask 32 128) in
  let other := [32; 1; 13; 184; 255; 255] ++ repeat 0 9 ++ [2] in
  netip.ParseAddr "2001:db8::1"
    = Some (netip.Addr6 ([32; 1; 13; 184] ++ repeat 0 11 ++ [1]) "") /\
  strings.Contains "2001:db8::1" "/" = false /\
  parseCIDRs ["2001:db8::1"] = Ok [ipNet] /\
  prefix ipNet IPv6 (number ([32; 1; 13; 184] ++ repeat 0 12)) 32 /\
  net.IPNet_Mask ipNet <> net.CIDRMask 128 128 /\
  net.ParseIP "2001:db8:ffff::2" = Some other /\
  net.Contains ipNet other = true.
Proof.
  cbv zeta. repeat split; try reflexivity.
  - apply (prefix_6 ([32; 1; 13; 184] ++ repeat 0 12) 32 eq_refl); [|lia|discriminate].
    repeat constructor; unfold is_byte; lia.
  - discriminate.
Qed.

(** ** Readers during an update *)

Section ConcurrentRun.

Variable ips0 : ipstore.
Variable ctx : Context.
Variable ex : Exchange.

Local Abbreviation ips1 := (after_update ips0 ctx ex).

Lemma writer_inv_shared (w : Concurrent.writer) (ips : ipstore) :
  writer_inv ips0 ctx ex w ips -> ips = ips0 \/ ips = ips1.
Proof. destruct w; simpl; intuition. Qed.

Lemma Update_no_trusted :
  CTXTrustedIPs ctx = None ->
  fst (fst (Update ips0 ctx ex)) = Some (errors_New "invalid trusted IPs value") /\
  ips1 = ips0.
Proof.
  intros Ht. unfold after_update, Update. rewrite Ht. auto.
Qed.

Lemma Update_fetch_Err (t : list net.IPNet) (err : error) :
  CTXTrustedIPs ctx = Some t -> fst (fetch ips0 ctx ex) = Err err ->
  fst (fst (Update ips0 ctx ex)) = Some err /\ ips1 = ips0.
Proof.
  intros Ht Hf. unfold after_update, Update. rewrite Ht.
  destruct (fetch ips0 ctx ex) as [[x|e0] evs]; simpl in Hf; [discriminate|].
  injection Hf as ->. auto.
Qed.

Lemma Update_fetch_Ok (t f : list net.IPNet) :
  CTXTrustedIPs ctx = Some t -> fst (fetch ips0 ctx ex) = Ok f ->
  fst (fst (Update ips0 ctx ex)) = None /\ ips1 = Store ips0 (t ++ f).
Proof.
  intros Ht Hf. unfold after_update, Update. rewrite Ht.
  destruct (fetch ips0 ctx ex) as [[x|e0] evs]; simpl in Hf; [|discriminate].
  injection Hf as ->. auto.
Qed.

Lemma writer_step_inv (w w' : Concurrent.writer) (ips ips' : ipstore) :
  writer_inv ips0 ctx ex w ips ->
  Concurrent.writer_step ips w ips' w' ->
  writer_inv ips0 ctx ex w' ips'.
Proof.
  intros Hw Hs.
  destruct Hs as [c e Ht|c e t err Ht Hf|c e t f Ht Hf|t f|c f|c];
    cbn [writer_inv] in *.
  - destruct Hw as (-> & -> & ->).
    destruct (Update_no_trusted Ht) as [-> ->]. auto.
  - destruct Hw as (-> & -> & ->).
    destruct (Update_fetch_Err t err Ht Hf) as [-> ->]. auto.
  - destruct Hw as (-> & -> & ->).
    destruct (Update_fetch_Ok t f Ht Hf) as [-> ->]. auto.
  - exact Hw.
  - exact Hw.
  - destruct Hw as (-> & E & F). rewrite E, F. auto.
Qed.

Lemma reader_step_inv (r r' : Concurrent.reader) (ips : ipstore) :
  ips = ips0 \/ ips = ips1 ->
  reader_inv ips0 ips1 r ->
  Concurrent.reader_step ips r r' ->
  reader_inv ips0 ips1 r'.
Proof.
  intros Hi Hr Hs.
  destruct Hs as [ip Hl|ip c Hl|ip c n rest Hc|ip c n rest Hc|ip c];
    cbn [reader_inv] in *.
  - unfold Contains. destruct Hi as [->| ->]; rewrite Hl; auto.
  - split; [|reflexivity]. unfold saw. destruct Hi as [->| ->]; auto.
  - destruct Hr as [Hsaw E]. cbn [Contains_loop] in E. rewrite Hc in E.
    unfold Contains. destruct Hsaw as [<-|<-]; auto.
  - destruct Hr as [Hsaw E]. cbn [Contains_loop] in E. rewrite Hc in E.
    split; [exact Hsaw|exact E].
  - destruct Hr as [Hsaw E]. change (Contains_loop [] ip) with false in E.
    unfold Contains. destruct Hsaw as [<-|<-]; [left|right]; split; auto.
Qed.

Lemma step_inv (s s' : Concurrent.system) :
  system_inv ips0 ctx ex s -> Concurrent.step s s' -> system_inv ips0 ctx ex s'.
Proof.
  intros [Hw Hr] Hs. destruct Hs as [ips pre r r' post w Hstep|ips ips' rs w w' Hstep];
    cbn [Concurrent.upd Concurrent.shared Concurrent.readers] in *.
  - split; [exact Hw|].
    apply Forall_app in Hr. destruct Hr as [Hpre Hr]. inversion Hr; subst.
    apply Forall_app. split; [exact Hpre|]. constructor; [|assumption].
    apply (reader_step_inv r r' ips);
      [exact (writer_inv_shared _ _ Hw)|assumption|exact Hstep].
  - split; [|exact Hr]. eapply writer_step_inv; eassumption.
Qed.

Lemma steps_inv (s s' : Concurrent.system) :
  system_inv ips0 ctx ex s -> Concurrent.steps s s' -> system_inv ips0 ctx ex s'.
Proof. intros H Hs. induction Hs; eauto using step_inv. Qed.

Lemma step_reader_ip (s s' : Concurrent.system) :
  Concurrent.step s s' ->
  map reader_ip (Concurrent.readers s') = map reader_ip (Concurrent.readers s).
Proof.
  intros [ips pre r r' post w Hstep|]; [|reflexivity]. simpl.
  rewrite !map_app. simpl. destruct Hstep; reflexivity.
Qed.

Lemma init_inv (addrs : list net.IP) :
  system_inv ips0 ctx ex
    (Concurrent.mkSystem ips0 (Concurrent.calls addrs) (Concurrent.WStart ctx ex)).
Proof.
  split; simpl; [auto|]. unfold Concurrent.calls.
  apply Forall_forall. intros r Hr. apply in_map_iff in Hr.
  destruct Hr as (ip & <- & _). exact I.
Qed.

(** C9. Readers run while one [Update] is in flight, in any interleaving of
    their steps.  The store is always the one before the update or the one
    after it.  A reader that has returned loaded the whole of one of these
    two sets and returns the answer of [Contains] on that set; a reader still
    in its loop scans one of the two sets.  When [Update] has returned, the
    store and the error are those that the function [Update] computes. *)
Theorem readers_see_old_or_new (addrs : list net.IP) (s : Concurrent.system) :
  Concurrent.steps
    (Concurrent.mkSystem ips0 (Concurrent.calls addrs) (Concurrent.WStart ctx ex)) s ->
  (Concurrent.shared s = ips0 \/ Concurrent.shared s = after_update ips0 ctx ex) /\
  map reader_ip (Concurrent.readers s) = addrs /\
  (forall ip cidrs r,
     In (Concurrent.RReturn ip cidrs r) (Concurrent.readers s) ->
     (cidrs = Load ips0 /\ r = Contains ips0 ip) \/
     (cidrs = Load (after_update ips0 ctx ex) /\
      r = Contains (after_update ips0 ctx ex) ip)) /\
  (forall ip cidrs rest,
     In (Concurrent.RLoop ip cidrs rest) (Concurrent.readers s) ->
     Some cidrs = Load ips0 \/ Some cidrs = Load (after_update ips0 ctx ex)) /\
  (forall err,
     Concurrent.upd s = Concurrent.WReturn err ->
     Concurrent.shared s = after_update ips0 ctx ex /\
     err = fst (fst (Update ips0 ctx ex))).
Proof.
  intros Hs.
  destruct (steps_inv _ _ (init_inv addrs) Hs) as [Hw Hr].
  rewrite Forall_forall in Hr.
  split; [exact (writer_inv_shared _ _ Hw)|]. split; [|split; [|split]].
  - clear Hw Hr. remember (Concurrent.mkSystem _ _ _) as s0 eqn:E.
    assert (K : map reader_ip (Concurrent.readers s0) = addrs).
    { subst s0. simpl. unfold Concurrent.calls. rewrite map_map. simpl.
      apply map_id. }
    clear E. induction Hs as [|s1 s2 s3 H12 H23 IH]; [exact K|].
    apply IH. rewrite (step_reader_ip _ _ H12). exact K.
  - intros ip c r Hin. exact (Hr _ Hin).
  - intros ip c rest Hin. exact (proj1 (Hr _ Hin)).
  - intros err E. rewrite E in Hw. exact Hw.
Qed.

End ConcurrentRun.

(** The steps of a reader, taken alone, are a call of [Contains]. *)
Lemma reader_alone (ips : ipstore) (ip : net.IP) :
  Concurrent.reader_steps ips (Concurrent.RLoad ip)
    (Concurrent.RReturn ip (Load ips) (Contains ips ip)).
Proof.
  unfold Contains. destruct (Load ips) as [cidrs|] eqn:El.
  - eapply Concurrent.reader_steps_step; [apply Concurrent.RS_load; exact El|].
    assert (K : forall rest r,
               Contains_loop rest ip = r ->
               Concurrent.reader_steps ips (Concurrent.RLoop ip cidrs rest)
                 (Concurrent.RReturn ip (Some cidrs) r)).
    { induction rest as [|n rest IH]; intros r <-.
      - eapply Concurrent.reader_steps_step; [apply Concurrent.RS_end|].
        apply Concurrent.reader_steps_refl.
      - cbn [Contains_loop]. destruct (net.Contains n ip) eqn:Ec.
        + eapply Concurrent.reader_steps_step; [apply Concurrent.RS_hit; exact Ec|].
          apply Concurrent.reader_steps_refl.
        + eapply Concurrent.reader_steps_step; [apply Concurrent.RS_miss; exact Ec|].
          apply IH. reflexivity. }
    apply K. reflexivity.
  - eapply Concurrent.reader_steps_step; [apply Concurrent.RS_load_none; exact El|].
    apply Concurrent.reader_steps_refl.
Qed.

(** The steps of the writer, taken alone, are a call of [Update]. *)
Lemma writer_alone (ips : ipstore) (ctx : Context) (ex : Exchange) :
  Concurrent.writer_steps ips (Concurrent.WStart ctx ex)
    (after_update ips ctx ex)
    (Concurrent.WReturn (fst (fst (Update ips ctx ex)))).
Proof.
  destruct (CTXTrustedIPs ctx) as [t|] eqn:Et.
  - destruct (fst (fetch ips ctx ex)) as [f|e] eqn:Ef.
    + destruct (Update_fetch_Ok ips ctx ex t f Et Ef) as [-> ->].
      eapply Concurrent.writer_steps_step; [eapply Concurrent.WS_fetch_ok; eassumption|].
      eapply Concurrent.writer_steps_step; [apply Concurrent.WS_append1|].
      eapply Concurrent.writer_steps_step; [apply Concurrent.WS_append2|].
      eapply Concurrent.writer_steps_step; [apply Concurrent.WS_store|].
      apply Concurrent.writer_steps_refl.
    + destruct (Update_fetch_Err ips ctx ex t e Et Ef) as [-> ->].
      eapply Concurrent.writer_steps_step; [eapply Concurrent.WS_fetch_err; eassumption|].
      apply Concurrent.writer_steps_refl.
  - destruct (Update_no_trusted ips ctx ex Et) as [-> ->].
    eapply Concurrent.writer_steps_step; [apply Concurrent.WS_no_trusted; exact Et|].
    apply Concurrent.writer_steps_refl.
Qed.

Lemma sample_run :
  Concurrent.steps
    (Concurrent.mkSystem sample_store (Concurrent.calls [[203; 0; 113; 9]])
       (Concurrent.WStart (createContext HTTPTimeoutDefault (trustedIPs sample_gate))
          sample_response))
    sample_run_end.
Proof.
  eapply Concurrent.steps_step.
  { apply (Concurrent.step_reader sample_store [] (Concurrent.RLoad [203; 0; 113; 9])
             (Concurrent.RLoop [203; 0; 113; 9] (trustedIPs sample_gate)
                (trustedIPs sample_gate)) []).
    apply Concurrent.RS_load. reflexivity. }
  eapply Concurrent.steps_step.
  { apply Concurrent.step_writer.
    apply (Concurrent.WS_fetch_ok sample_store _ _ (trustedIPs sample_gate)
             [net.mkIPNet [203; 0; 113; 0] [255; 255; 255; 0]]); reflexivity. }
  eapply Concurrent.steps_step.
  { apply Concurrent.step_writer. apply Concurrent.WS_append1. }
  eapply Concurrent.steps_step.
  { apply Concurrent.step_writer. apply Concurrent.WS_append2. }
  eapply Concurrent.steps_step.
  { apply Concurrent.step_writer. apply Concurrent.WS_store. }
  eapply Concurrent.steps_step.
  { apply (Concurrent.step_reader _ []
             (Concurrent.RLoop [203; 0; 113; 9] (trustedIPs sample_gate)
                (trustedIPs sample_gate))
             (Concurrent.RLoop [203; 0; 113; 9] (trustedIPs sample_gate) []) []).
    apply Concurrent.RS_miss. reflexivity. }
  eapply Concurrent.steps_step.
  { apply (Concurrent.step_reader _ []
             (Concurrent.RLoop [203; 0; 113; 9] (trustedIPs sample_gate) [])
             (Concurrent.RReturn [203; 0; 113; 9] (Some (trustedIPs sample_gate)) false)
             []).
    apply Concurrent.RS_end. }
  apply Concurrent.steps_refl.
Defined.

Lemma readers_see_old_or_new_witness :
  map reader_ip (Concurrent.readers sample_run_end) = [[203; 0; 113; 9]] /\
  forall ip cidrs r,
    In (Concurrent.RReturn ip cidrs r) (Concurrent.readers sample_run_end) ->
    (cidrs = Load sample_store /\ r = Contains sample_store ip) \/
    (cidrs = Load (after_update sample_store
                     (createContext HTTPTimeoutDefault (trustedIPs sample_gate))
                     sample_response) /\
     r = Contains (after_update sample_store
                     (createContext HTTPTimeoutDefault (trustedIPs sample_gate))
                     sample_response) ip).
Proof.
  pose proof (readers_see_old_or_new sample_store
                (createContext HTTPTimeoutDefault (trustedIPs sample_gate))
                sample_response [[203; 0; 113; 9]] sample_run_end sample_run) as H.
  exact (conj (proj1 (proj2 H)) (proj1 (proj2 (proj2 H)))).
Defined.

(** ** The bounded loops run to their end

    The loops that are written with a bound on their rounds do not depend
    on it: the bound that the definitions pass is never reached. *)

Lemma drop_length (n : nat) (s : string) :
  String.length (drop n s) = (String.length s - n)%nat.
Proof.
  revert s. induction n as [|n IH]; intros [|c s]; simpl; auto.
Qed.

Lemma HasPrefix_length (s p : string) :
  strings.HasPrefix s p = true -> (String.length p <= String.length s)%nat.
Proof.
  revert s. induction p as [|c p IH]; intros [|x s]; simpl; try lia; try discriminate.
  intros H. apply andb_true_iff in H. destruct H as [_ H]. apply IH in H. lia.
Qed.

Lemma Index_bound (s sep : string) (m : nat) :
  strings.Index s sep = Some m ->
  (m + String.length sep <= String.length s)%nat.
Proof.
  revert m. induction s as [|c s IH]; intros m; cbn [strings.Index].
  - destruct (strings.HasPrefix "" sep) eqn:E; [|discriminate].
    intros H. injection H as <-. apply HasPrefix_length in E. simpl in *. lia.
  - destruct (strings.HasPrefix (String c s) sep) eqn:E.
    + intros H. injection H as <-. apply HasPrefix_length in E. simpl in *. lia.
    + destruct (strings.Index s sep) as [k|]; [|discriminate].
      intros H. injection H as <-. specialize (IH k eq_refl). simpl. lia.
Qed.

Lemma genSplit_fuel (fuel1 fuel2 : nat) (s sep : string) :
  (0 < String.length sep)%nat ->
  (String.length s < fuel1)%nat -> (String.length s < fuel2)%nat ->
  strings.genSplit fuel1 s sep = strings.genSplit fuel2 s sep.
Proof.
  intros Hsep. revert fuel2 s.
  induction fuel1 as [|fuel1 IH]; intros fuel2 s H1 H2; [lia|].
  destruct fuel2 as [|fuel2]; [lia|]. cbn [strings.genSplit].
  destruct (strings.Index s sep) as [m|] eqn:E; [|reflexivity].
  f_equal. pose proof (Index_bound s sep m E).
  apply IH; rewrite drop_length; lia.
Qed.

Lemma parseIPv6_loop_fuel (fuel1 fuel2 : nat) (s : string) (ip : list Z)
    (ellipsis : option nat) :
  (16 <= List.length ip + 2 * fuel1)%nat ->
  (16 <= List.length ip + 2 * fuel2)%nat ->
  netip.parseIPv6_loop fuel1 s ip ellipsis = netip.parseIPv6_loop fuel2 s ip ellipsis.
Proof.
  revert fuel2 s ip ellipsis.
  induction fuel1 as [|fuel1 IH]; intros [|fuel2] s ip ellipsis H1 H2;
    cbn [netip.parseIPv6_loop]; try reflexivity.
  - destruct (Nat.leb_spec 16 (List.length ip)); [reflexivity|lia].
  - destruct (Nat.leb_spec 16 (List.length ip)); [reflexivity|lia].
  - destruct (16 <=? List.length ip)%nat; [reflexivity|].
    destruct (netip.hexGroup s 0 0) as [[[off acc] rest]|]; [|reflexivity].
    destruct (off =? 0); [reflexivity|].
    destruct (netip.HasDot rest); [reflexivity|].
    destruct rest as [|c s1]; [reflexivity|].
    destruct (negb (Ascii.eqb c ":")); [reflexivity|].
    destruct s1 as [|c1 s2]; [reflexivity|].
    assert (L : forall f, (16 <= List.length ip + 2 * S f)%nat ->
                (16 <= List.length (ip ++ [Z.shiftr acc 8; Z.land acc 255]) + 2 * f)%nat).
    { intros f Hf. rewrite length_app. simpl. lia. }
    destruct (Ascii.eqb c1 ":").
    + destruct (negb (netip.isNone ellipsis)); [reflexivity|].
      destruct s2; [reflexivity|]. apply IH; apply L; assumption.
    + apply IH; apply L; assumption.
Qed.

Lemma leadingInt_length (s : string) (x v : Z) (rest : string) :
  time.leadingInt s x = Some (v, rest) ->
  (String.length rest <= String.length s)%nat.
Proof.
  revert x. induction s as [|c s IH]; intros x; cbn [time.leadingInt].
  - intros H. injection H as <- <-. lia.
  - destruct (negb (isDigit c)).
    + intros H. injection H as <- <-. lia.
    + destruct (x >? 2 ^ 63 / 10); [discriminate|].
      destruct (_ >? 2 ^ 63); [discriminate|].
      intros H. apply IH in H. simpl. lia.
Qed.

Lemma leadingFraction_length (s : string) (x : Z) (scale : float) (o : bool) :
  (String.length (snd (time.leadingFraction s x scale o)) <= String.length s)%nat.
Proof.
  revert x scale o. induction s as [|c s IH]; intros x scale o;
    cbn [time.leadingFraction].
  - simpl. lia.
  - destruct (negb (isDigit c)); [simpl; lia|].
    destruct o; [specialize (IH x scale true); simpl; lia|].
    destruct (x >? (2 ^ 63 - 1) / 10); [specialize (IH x scale true); simpl; lia|].
    destruct (_ >? 2 ^ 63); [specialize (IH x scale true); simpl; lia|].
    match goal with
    | |- context [time.leadingFraction s ?y ?sc false] =>
        specialize (IH y sc false)
    end.
    cbn [String.length]. lia.
Qed.

Lemma unitEnd_length (s : string) : (time.unitEnd s <= String.length s)%nat.
Proof.
  induction s as [|c s IH]; simpl; [lia|].
  destruct (Ascii.eqb c "." || isDigit c); simpl; lia.
Qed.

Lemma ParseDuration_loop_fuel (fuel1 fuel2 : nat) (s : string) (d : Z) :
  (String.length s <= fuel1)%nat -> (String.length s <= fuel2)%nat ->
  time.ParseDuration_loop fuel1 s d = time.ParseDuration_loop fuel2 s d.
Proof.
  revert fuel2 s d. induction fuel1 as [|fuel1 IH]; intros fuel2 s d H1 H2.
  - destruct s; [|simpl in H1; lia]. destruct fuel2; reflexivity.
  - destruct s as [|c0 s0]; [destruct fuel2; reflexivity|].
    destruct fuel2 as [|fuel2]; [simpl in H2; lia|].
    cbn [time.ParseDuration_loop].
    remember (String c0 s0) as s eqn:Es.
    assert (Ls : (0 < String.length s <= S (Nat.min fuel1 fuel2))%nat)
      by (subst s; simpl in *; lia).
    clear H1 H2 Es.
    destruct (negb (Ascii.eqb c0 "." || isDigit c0)); [reflexivity|].
    destruct (time.leadingInt s 0) as [[v s1]|] eqn:Ei; [|reflexivity].
    pose proof (leadingInt_length s 0 v s1 Ei) as L1.
    match goal with
    | |- (match ?X with _ => _ end) = _ =>
        assert (Hx : (String.length (snd X) <= String.length s1)%nat);
        [|destruct X as [[[f scale] post] s2]]
    end.
    { destruct s1 as [|c1 s1']; [cbn [snd]; lia|].
      destruct (Ascii.eqb_spec c1 ".") as [->|Hc].
      - pose proof (leadingFraction_length s1' 0 PrimFloat.one false) as Lf.
        destruct (time.leadingFraction s1' 0 PrimFloat.one false) as [[f sc] s2].
        cbn [snd String.length] in *. lia.
      - destruct c1 as [[] [] [] [] [] [] [] []]; try (cbn [snd]; lia).
        contradiction Hc. reflexivity. }
    cbn [snd] in Hx.
    destruct (negb (negb (String.length s =? String.length s1)%nat) && negb post);
      [reflexivity|].
    pose proof (unitEnd_length s2) as Lu.
    destruct (Nat.eqb_spec (time.unitEnd s2) 0); [reflexivity|].
    destruct (time.unitMap _) as [unit|]; [|reflexivity].
    destruct (v >? 2 ^ 63 / unit); [reflexivity|].
    match goal with
    | |- (if ?c then _ else _) = _ => destruct c; [reflexivity|]
    end.
    match goal with
    | |- (if ?c then _ else _) = _ => destruct c; [reflexivity|]
    end.
    apply IH; rewrite drop_length; lia.
Qed.

(** ** The gate on a run of the program *)

Lemma Contains_true_iff (ips : ipstore) (ip : net.IP) (f : family) (a : Z) :
  address ip f a -> prefixes ips ->
  Contains ips ip = true <->
  exists cidrs ipNet,
    Load ips = Some cidrs /\ In ipNet cidrs /\ contains_address ipNet ip.
Proof.
  intros Ha Hw. unfold Contains. split.
  - destruct (Load ips) as [cidrs|] eqn:El; [|discriminate].
    rewrite Contains_loop_existsb. intros H. apply existsb_exists in H.
    destruct H as (n & Hn & Hc). exists cidrs, n. repeat split; auto.
    specialize (Hw cidrs El). rewrite Forall_forall in Hw.
    destruct (Hw n Hn) as (f' & base & ones & Hp).
    destruct (proj1 (net_Contains_prefix n ip f' f base ones a Hp Ha) Hc) as [-> Hin].
    exists f, base, ones, a. auto.
  - intros (cidrs & n & -> & Hn & f' & base & ones & a' & Hp & Ha' & Hin).
    rewrite Contains_loop_existsb. apply existsb_exists. exists n. split; [exact Hn|].
    apply (net_Contains_prefix n ip f' f' base ones a' Hp Ha'). auto.
Qed.

(** After [New], and after any run of [refreshLoop], the gate hands a request
    on exactly when the host part of its remote address is an address that
    lies within one of the ranges in the store. *)
Lemma gate_allows_addresses_in_range (config : Config) (name : string)
    (ex : Exchange) (sel : list Select) (cf : CloudFrontGate) (ips : ipstore)
    (req : Request) :
  fst (New config name ex) = Ok (cf, ips) ->
  forall ips',
    ips' = ips \/ ips' = snd (fst (refreshLoop cf sel ips)) ->
    exists host,
      host_part (RemoteAddr req) host /\
      (fst (ServeHTTP cf ips' req) = Next req <->
       exists ip cidrs ipNet,
         net.ParseIP host = Some ip /\ Load ips' = Some cidrs /\
         In ipNet cidrs /\ contains_address ipNet ip).
Proof.
  intros HN ips' Hi.
  assert (Hp : prefixes ips').
  { destruct (program_prefixes config name ex sel cf ips HN) as [P1 P2].
    destruct Hi as [->| ->]; assumption. }
  destruct (Split_colon (RemoteAddr req)) as (host & rest & Hs & Hh).
  exists host. split; [exact Hh|].
  unfold ServeHTTP. rewrite Hs.
  destruct (net.ParseIP host) as [ip|] eqn:Ep; cbn [fst].
  - destruct (ParseIP_address host ip Ep) as (f & a & Ha).
    pose proof (Contains_true_iff ips' ip f a Ha Hp) as K.
    destruct (Contains ips' ip) eqn:Ec; cbn [negb fst].
    + split; [intros _|reflexivity].
      destruct (proj1 K eq_refl) as (cidrs & n & H1 & H2 & H3).
      exists ip, cidrs, n. auto.
    + split; [discriminate|].
      intros (ip' & cidrs & n & H0 & H1 & H2 & H3). injection H0 as <-.
      assert (true = false) by (rewrite <- (proj2 K); eauto). discriminate.
  - split; [discriminate|]. intros (ip' & ? & ? & H0 & _). discriminate.
Qed.

(** The part of C8 that holds: an interval that [time.ParseDuration] refuses
    makes [New] return an error and no gate, before any request is sent. *)
Lemma New_rejects_unparsable_interval (config : Config) (name : string)
    (ex : Exchange) :
  time.ParseDuration (RefreshInterval config) = None ->
  New config name ex
  = (Err (fmt_Errorf "failed to parse refresh interval"
            (lib_error "time.ParseDuration")), []).
Proof. intros H. unfold New. rewrite H. reflexivity. Qed.

Example unparsable_intervals :
  time.ParseDuration "" = None /\
  time.ParseDuration "soon" = None /\
  time.ParseDuration "10" = None /\
  time.ParseDuration "1d" = None /\
  time.ParseDuration "24h" = Some (24 * time.Hour) /\
  time.ParseDuration "1.5h" = Some (90 * time.Minute) /\
  time.ParseDuration "1s" = Some time.Second.
Proof. vm_compute. repeat split. Qed.

(** * Further properties of the code *)

(** ** [parseCIDRs] and [parseResponse] *)

Lemma parseCIDRs_loop_Forall2 (ips : list string) (acc nets : list net.IPNet) :
  Forall2 parses_to ips nets -> parseCIDRs_loop ips acc = Ok (acc ++ nets).
Proof.
  intros H. revert acc. induction H as [|ip n ips nets Hp _ IH]; intros acc.
  - rewrite app_nil_r. reflexivity.
  - cbn [parseCIDRs_loop]. unfold parses_to, cidr_text in Hp. rewrite Hp.
    rewrite IH, <- app_assoc. reflexivity.
Qed.

Lemma parseCIDRs_Forall2 (ips : list string) (out : list net.IPNet) :
  parseCIDRs ips = Ok out <-> Forall2 parses_to ips out.
Proof.
  split.
  - intros H. destruct (parseCIDRs_loop_Ok ips [] out H) as (nets & -> & Hf).
    exact Hf.
  - intros H. exact (parseCIDRs_loop_Forall2 ips [] out H).
Qed.

(** [parseCIDRs] succeeds exactly when every entry has a network, and then
    returns the networks of the entries, one for each, in their order. *)
Theorem parseCIDRs_Ok_iff (ips : list string) (out : list net.IPNet) :
  (parseCIDRs ips = Ok out <-> Forall2 parses_to ips out) /\
  (parseCIDRs ips = Ok out -> List.length out = List.length ips).
Proof.
  split; [apply parseCIDRs_Forall2|].
  intros H. apply parseCIDRs_Forall2 in H. symmetry.
  exact (Forall2_length H).
Qed.

Lemma parseCIDRs_loop_Err (ips : list string) (acc : list net.IPNet) (e : error) :
  parseCIDRs_loop ips acc = Err e <->
  exists before bad after nets,
    ips = before ++ bad :: after /\
    Forall2 parses_to before nets /\
    net.ParseCIDR (cidr_text bad) = None /\
    e = fmt_Errorf "failed to parse CIDR" (lib_error (cidr_text bad)).
Proof.
  revert acc. induction ips as [|ip ips IH]; intros acc; cbn [parseCIDRs_loop].
  - split; [discriminate|]. intros (b & bad & a & nets & H & _).
    destruct b; discriminate.
  - fold (cidr_text ip). destruct (net.ParseCIDR (cidr_text ip)) as [n|] eqn:E.
    + rewrite IH. split.
      * intros (b & bad & a & nets & -> & Hf & Hb & ->).
        exists (ip :: b), bad, a, (n :: nets). repeat split; auto.
      * intros (b & bad & a & nets & H & Hf & Hb & ->).
        destruct b as [|x b]; simpl in H; injection H as -> ->.
        { congruence. }
        inversion Hf; subst. exists b, bad, a, l'. auto.
    + split.
      * intros H. injection H as <-. exists [], ip, ips, []. repeat split; auto.
      * intros (b & bad & a & nets & H & Hf & Hb & ->).
        destruct b as [|x b]; simpl in H; injection H as -> ->; [reflexivity|].
        inversion Hf; subst. unfold parses_to in *. congruence.
Qed.

(** [parseCIDRs] fails exactly when an entry has no network; the error is
    that of the first such entry, and nothing of the entries before it is
    returned. *)
Theorem parseCIDRs_Err_first (ips : list string) (e : error) :
  parseCIDRs ips = Err e <->
  exists before bad after nets,
    ips = before ++ bad :: after /\
    Forall2 parses_to before nets /\
    net.ParseCIDR (cidr_text bad) = None /\
    e = fmt_Errorf "failed to parse CIDR" (lib_error (cidr_text bad)).
Proof. apply parseCIDRs_loop_Err. Qed.

Lemma Forall2_parses_to_app (a b : list string) (out : list net.IPNet) :
  Forall2 parses_to (a ++ b) out <->
  exists g r, out = g ++ r /\ Forall2 parses_to a g /\ Forall2 parses_to b r.
Proof.
  split.
  - intros H. apply Forall2_app_inv_l in H.
    destruct H as (g & r & Hg & Hr & ->). eauto.
  - intros (g & r & -> & Hg & Hr). apply Forall2_app; assumption.
Qed.

(** [parseResponse] returns what [parseCIDRs] returns for the global list
    with the regional list after it: one range for each entry of the two
    lists, the global ones first, or no range at all. *)
Theorem parseResponse_Ok_iff (resp : CFResponse) (out : list net.IPNet) :
  parseResponse resp = Ok out <->
  parseCIDRs (GlobalIPList resp ++ RegionalEdgeIPList resp) = Ok out.
Proof.
  rewrite parseCIDRs_Forall2, Forall2_parses_to_app.
  unfold parseResponse, bind, wrap. split.
  - destruct (parseCIDRs (GlobalIPList resp)) as [g|] eqn:Eg; [|discriminate].
    destruct (parseCIDRs (RegionalEdgeIPList resp)) as [r|] eqn:Er; [|discriminate].
    intros H. injection H as <-. exists g, r.
    rewrite <- !parseCIDRs_Forall2. auto.
  - intros (g & r & -> & Hg & Hr).
    rewrite <- parseCIDRs_Forall2 in Hg, Hr. rewrite Hg, Hr. reflexivity.
Qed.

(** What [ParseCIDR] returns, by the family of the address before the
    slash: the bytes of the address under the mask of the prefix length. *)
Lemma ParseCIDR_shape (s : string) (n : net.IPNet) :
  net.ParseCIDR s = Some n ->
  exists i b ones,
    netip.IndexByteString s "/" = Some i /\ Forall is_byte b /\
    ((netip.ParseAddr (take i s) = Some (netip.Addr4 b) /\
      List.length b = 4%nat /\ 0 <= ones <= 32 /\
      n = net.mkIPNet (net.andBytes b (net.CIDRMask_loop 4 ones))
            (net.CIDRMask_loop 4 ones)) \/
     (netip.ParseAddr (take i s) = Some (netip.Addr6 b "") /\
      List.length b = 16%nat /\ 0 <= ones <= 128 /\
      n = net.mkIPNet (net.andBytes b (net.CIDRMask_loop 16 ones))
            (net.CIDRMask_loop 16 ones))).
Proof.
  unfold net.ParseCIDR.
  destruct (netip.IndexByteString s "/") as [i|]; [|discriminate].
  destruct (netip.ParseAddr (take i s)) as [ipAddr|] eqn:Ea; [|discriminate].
  destruct (negb (String.length (netip.Zone ipAddr) =? 0)%nat) eqn:Ez; [discriminate|].
  destruct (net.dtoi (drop (S i) s)) as [[ones j] ok] eqn:Ed.
  destruct ok; [|discriminate]. cbn [negb orb].
  destruct (negb (j =? len (drop (S i) s))); [discriminate|]. cbn [orb].
  destruct (Z.ltb_spec ones 0) as [?|O1]; [discriminate|]. cbn [orb].
  destruct (Z.gtb_spec ones (netip.BitLen ipAddr)) as [?|O2]; [discriminate|].
  intros K0. injection K0 as <-.
  pose proof (ParseAddr_bytes _ _ Ea) as Hb.
  destruct ipAddr as [b|b z]; destruct Hb as [L B];
    cbn [netip.BitLen netip.As16 netip.Zone] in *; exists i, b, ones;
    (split; [reflexivity|]); (split; [exact B|]).
  - left. rewrite CIDRMask_32 by lia.
    rewrite (Mask_4 b _ L (CIDRMask_loop_length 4 ones)). auto.
  - right. rewrite CIDRMask_128 by lia.
    rewrite (Mask_16 b _ L (CIDRMask_loop_length 16 ones)).
    destruct z; [auto|discriminate Ez].
Qed.

Lemma andBytes_idempotent (b m : list Z) :
  net.andBytes (net.andBytes b m) m = net.andBytes b m.
Proof.
  revert m. induction b as [|x b IH]; intros [|y m]; cbn [net.andBytes];
    try reflexivity.
  rewrite IH, <- Z.land_assoc, Z.land_diag. reflexivity.
Qed.

Lemma Mask_44 (b m : list Z) :
  List.length b = 4%nat -> List.length m = 4%nat ->
  net.Mask b m = net.andBytes b m.
Proof. intros Hb Hm. elements Hb. elements Hm. reflexivity. Qed.

Lemma ParseCIDR_masked (s : string) (n : net.IPNet) :
  net.ParseCIDR s = Some n ->
  net.Mask (net.IPNet_IP n) (net.IPNet_Mask n) = net.IPNet_IP n.
Proof.
  intros H. destruct (ParseCIDR_shape s n H)
    as (i & b & ones & _ & B & [(_ & L & _ & ->)|(_ & L & _ & ->)]);
    cbn [net.IPNet_IP net.IPNet_Mask].
  - rewrite Mask_44, andBytes_idempotent; auto.
    + rewrite andBytes_length; rewrite ?CIDRMask_loop_length; auto.
    + apply CIDRMask_loop_length.
  - rewrite Mask_16, andBytes_idempotent; auto.
    + rewrite andBytes_length; rewrite ?CIDRMask_loop_length; auto.
    + apply CIDRMask_loop_length.
Qed.

(** A network that stands for a prefix contains its own base address. *)
Lemma prefix_contains_base (n : net.IPNet) (f : family) (base ones : Z) :
  prefix n f base ones -> net.Contains n (net.IPNet_IP n) = true.
Proof.
  intros Hp.
  assert (Ha : address (net.IPNet_IP n) f base).
  { destruct Hp; cbn [net.IPNet_IP]; constructor; assumption. }
  apply (net_Contains_prefix n _ f f base ones base Hp Ha).
  split; reflexivity.
Qed.

(** Every range that [parseCIDRs] returns is a prefix in normal form: its
    mask is a run of ones for the prefix length, over 4 or 16 bytes, the
    bits of its base address after the prefix are zero, so masking it again
    changes nothing, and it contains its base address. *)
Theorem parseCIDRs_normal_form (ips : list string) (out : list net.IPNet) :
  parseCIDRs ips = Ok out ->
  Forall (fun n =>
            is_prefix n /\
            net.Mask (net.IPNet_IP n) (net.IPNet_Mask n) = net.IPNet_IP n /\
            net.Contains n (net.IPNet_IP n) = true) out.
Proof.
  intros H. apply parseCIDRs_Forall2 in H.
  induction H as [|ip n ips out Hp _ IH]; constructor; [|exact IH].
  pose proof (ParseCIDR_is_prefix _ _ Hp) as P.
  split; [exact P|]. split; [exact (ParseCIDR_masked _ _ Hp)|].
  destruct P as (f & base & ones & P). exact (prefix_contains_base n f base ones P).
Qed.

Lemma parseCIDRs_normal_form_witness :
  Forall (fun n =>
            is_prefix n /\
            net.Mask (net.IPNet_IP n) (net.IPNet_Mask n) = net.IPNet_IP n /\
            net.Contains n (net.IPNet_IP n) = true)
    [net.mkIPNet [10; 1; 0; 0] [255; 255; 128; 0];
     net.mkIPNet [192; 168; 1; 7] [255; 255; 255; 255]].
Proof.
  exact (parseCIDRs_normal_form ["10.1.77.3/17"; "192.168.1.7"] _ eq_refl).
Defined.

(** ** The store *)

(** Membership does not depend on the order of the ranges or on how often a
    range occurs: two sets with the same ranges give the same answer. *)
Theorem Contains_same_ranges (ips : ipstore) (cidrs1 cidrs2 : list net.IPNet)
    (ip : net.IP) :
  (forall n, In n cidrs1 <-> In n cidrs2) ->
  Contains (Store ips cidrs1) ip = Contains (Store ips cidrs2) ip.
Proof.
  intros H. unfold Contains. cbn [Load Store Value].
  rewrite !Contains_loop_existsb.
  destruct (existsb _ cidrs2) eqn:E.
  - apply existsb_exists in E. destruct E as (n & Hn & Hc).
    apply existsb_exists. exists n. split; [apply H; exact Hn|exact Hc].
  - destruct (existsb _ cidrs1) eqn:E1; [|reflexivity].
    apply existsb_exists in E1. destruct E1 as (n & Hn & Hc).
    assert (K : existsb (fun ipNet => net.Contains ipNet ip) cidrs2 = true).
    { apply existsb_exists. exists n. split; [apply H; exact Hn|exact Hc]. }
    congruence.
Qed.

Lemma Contains_same_ranges_witness :
  Contains (Store sample_store
              [net.mkIPNet [10; 0; 0; 0] [255; 0; 0; 0];
               net.mkIPNet [192; 168; 1; 0] [255; 255; 255; 0]]) [192; 168; 1; 5]
  = Contains (Store sample_store
              [net.mkIPNet [192; 168; 1; 0] [255; 255; 255; 0];
               net.mkIPNet [10; 0; 0; 0] [255; 0; 0; 0];
               net.mkIPNet [192; 168; 1; 0] [255; 255; 255; 0]]) [192; 168; 1; 5].
Proof.
  apply Contains_same_ranges. intros n. simpl. tauto.
Defined.

(** The result of a fetch does not depend on the store, and its events only
    on the address of the API. *)
Lemma fetch_store (ips ips' : ipstore) (ctx : Context) (ex : Exchange) :
  cfAPI ips = cfAPI ips' -> fetch ips ctx ex = fetch ips' ctx ex.
Proof. intros H. unfold fetch. rewrite H. reflexivity. Qed.

(** What [Update] stores replaces the set as a whole: when it succeeds, the
    store afterwards does not depend on the set before. *)
Lemma Update_store (ips ips' : ipstore) (ctx : Context) (ex : Exchange) :
  cfAPI ips = cfAPI ips' ->
  fst (fst (Update ips ctx ex)) = fst (fst (Update ips' ctx ex)) /\
  snd (Update ips ctx ex) = snd (Update ips' ctx ex) /\
  (fst (fst (Update ips ctx ex)) = None ->
   snd (fst (Update ips ctx ex)) = snd (fst (Update ips' ctx ex))).
Proof.
  intros H. unfold Update. destruct (CTXTrustedIPs ctx) as [t|].
  - rewrite (fetch_store ips ips' ctx ex H).
    destruct (fetch ips' ctx ex) as [[f|e] evs]; cbn [fst snd].
    + repeat split. intros _. unfold Store. rewrite H. reflexivity.
    + repeat split. discriminate.
  - cbn [fst snd]. repeat split. discriminate.
Qed.

(** [Update] is idempotent: a second call with the same context and the
    same answer of the API returns the same error, makes the same request and
    leaves the store that the first call left. *)
Theorem Update_idempotent (ips : ipstore) (ctx : Context) (ex : Exchange) :
  let ips1 := snd (fst (Update ips ctx ex)) in
  Update ips1 ctx ex = (fst (fst (Update ips ctx ex)), ips1, snd (Update ips ctx ex)).
Proof.
  cbv zeta. unfold Update. destruct (CTXTrustedIPs ctx) as [t|]; [|reflexivity].
  destruct (fetch ips ctx ex) as [[f|e] evs] eqn:Ef; cbn [fst snd].
  - rewrite (fetch_store (Store ips (([] ++ t) ++ f)) ips ctx ex eq_refl), Ef.
    reflexivity.
  - rewrite Ef. reflexivity.
Qed.

(** A context without the operator's ranges, or without the timeout, makes
    [Update] return an error before any request is sent, and the store stays
    as it was.  The ranges are looked up first. *)
Theorem Update_missing_key (ips : ipstore) (ctx : Context) (ex : Exchange) :
  (CTXTrustedIPs ctx = None ->
   Update ips ctx ex = (Some (errors_New "invalid trusted IPs value"), ips, [])) /\
  (CTXTrustedIPs ctx <> None -> CTXHTTPTimeout ctx = None ->
   Update ips ctx ex = (Some (errors_New "invalid timeout value"), ips, [])).
Proof.
  unfold Update, fetch. split.
  - intros ->. reflexivity.
  - intros Ht ->. destruct (CTXTrustedIPs ctx); [reflexivity|contradiction].
Qed.

(** ** [refreshLoop] *)

Lemma fetch_fetched_ranges (ips : ipstore) (timeout : Z)
    (trusted : list net.IPNet) (ex : Exchange) :
  match fetched_ranges ex with
  | Some l => fst (fetch ips (createContext timeout trusted) ex) = Ok l
  | None => exists e, fst (fetch ips (createContext timeout trusted) ex) = Err e
  end.
Proof.
  unfold fetch, fetched_ranges. cbn [CTXHTTPTimeout createContext].
  destruct ex as [| |c s b ce]; cbn [fst]; eauto.
  destruct b as [| |resp]; destruct (c =? 200); cbn [negb]; eauto.
  destruct (parseResponse resp); eauto.
Qed.

(** The store after one [Update] of [refreshLoop]. *)
Lemma Update_fetched_ranges (ips : ipstore) (timeout : Z)
    (trusted : list net.IPNet) (ex : Exchange) :
  snd (fst (Update ips (createContext timeout trusted) ex))
  = match fetched_ranges ex with
    | Some l => Store ips (trusted ++ l)
    | None => ips
    end /\
  (fst (fst (Update ips (createContext timeout trusted) ex)) = None <->
   gives_no_ranges ex = false).
Proof.
  pose proof (fetch_fetched_ranges ips timeout trusted ex) as H.
  unfold Update, gives_no_ranges. cbn [CTXTrustedIPs createContext].
  destruct (fetch ips (createContext timeout trusted) ex) as [[f|e] evs];
    destruct (fetched_ranges ex) as [l|]; cbn [fst snd] in *.
  - injection H as <-. split; [reflexivity|tauto].
  - destruct H as [e H]. discriminate.
  - discriminate.
  - split; [reflexivity|]. split; discriminate.
Qed.

Lemma refreshLoop_for_last_fetched (cf : CloudFrontGate) (sel : list Select)
    (ips0 : ipstore) (acc : option (list net.IPNet)) :
  let store acc :=
    match acc with
    | Some l => Store ips0 (trustedIPs cf ++ l)
    | None => ips0
    end in
  snd (fst (refreshLoop_for cf sel (store acc)))
  = store (last_fetched (ticks sel) acc).
Proof.
  cbv zeta. revert acc. induction sel as [|[|ex] sel IH]; intros acc.
  - reflexivity.
  - reflexivity.
  - destruct (refreshLoop_for_Tick cf ex sel
                match acc with
                | Some l => Store ips0 (trustedIPs cf ++ l)
                | None => ips0
                end) as [_ E].
    cbv zeta in E. rewrite E. clear E.
    rewrite (proj1 (Update_fetched_ranges _ _ _ ex)).
    cbn [ticks last_fetched].
    destruct (fetched_ranges ex) as [l|].
    + rewrite <- (IH (Some l)). destruct acc; reflexivity.
    + apply IH.
Qed.

(** The store after a run of [refreshLoop]: the store before it when no
    refresh succeeded, and otherwise the operator's ranges followed by the
    ranges of the last refresh that succeeded.  A refresh that fails, and an
    interval on which the ticker panics, leave the store alone. *)
Theorem refreshLoop_last_success (cf : CloudFrontGate) (sel : list Select)
    (ips : ipstore) :
  snd (fst (refreshLoop cf sel ips))
  = if refreshInterval cf <=? 0 then ips
    else match last_fetched (ticks sel) None with
         | Some l => Store ips (trustedIPs cf ++ l)
         | None => ips
         end.
Proof.
  unfold refreshLoop. destruct (refreshInterval cf <=? 0); [reflexivity|].
  exact (refreshLoop_for_last_fetched cf sel ips None).
Qed.

Lemma refreshLoop_for_Done (cf : CloudFrontGate)
    (before after : list Select) (ips : ipstore) :
  refreshLoop_for cf (before ++ Done :: after) ips
  = (Returned,
     snd (fst (refreshLoop_for cf before ips)),
     snd (refreshLoop_for cf before ips)).
Proof.
  revert ips. induction before as [|[|ex] before IH]; intros ips.
  - reflexivity.
  - reflexivity.
  - cbn [app refreshLoop_for].
    destruct (Update ips _ ex) as [[err ips1] evs].
    rewrite (IH ips1).
    destruct (refreshLoop_for cf before ips1) as [[st ips2] evs']. reflexivity.
Qed.

(** When the context is done, [refreshLoop] returns: what [select] would
    receive after that is never served. *)
Theorem refreshLoop_stops_at_Done (cf : CloudFrontGate)
    (before after : list Select) (ips : ipstore) :
  0 < refreshInterval cf ->
  refreshLoop cf (before ++ Done :: after) ips
  = (Returned,
     snd (fst (refreshLoop cf before ips)),
     snd (refreshLoop cf before ips)).
Proof.
  intros Hi. unfold refreshLoop.
  destruct (Z.leb_spec (refreshInterval cf) 0) as [Hle|_]; [lia|].
  apply refreshLoop_for_Done.
Qed.

Lemma refreshLoop_stops_at_Done_witness :
  refreshLoop sample_gate
    ([Tick DoError] ++ Done :: [Tick sample_response]) sample_store
  = (Returned,
     snd (fst (refreshLoop sample_gate [Tick DoError] sample_store)),
     snd (refreshLoop sample_gate [Tick DoError] sample_store)).
Proof.
  exact (refreshLoop_stops_at_Done sample_gate [Tick DoError]
           [Tick sample_response] sample_store eq_refl).
Defined.

Lemma Update_cfAPI (ips : ipstore) (ctx : Context) (ex : Exchange) :
  cfAPI (snd (fst (Update ips ctx ex))) = cfAPI ips.
Proof.
  unfold Update. destruct (CTXTrustedIPs ctx); [|reflexivity].
  destruct (fetch ips ctx ex) as [[f|e] evs]; reflexivity.
Qed.

(** The events of one [Update] of the program: at most one call of
    [client.Do], for the address of the store with a timeout of five seconds,
    and after it at most the note that the body could not be closed. *)
Lemma Update_events (ips : ipstore) (trusted : list net.IPNet) (ex : Exchange) :
  let evs := snd (Update ips (createContext HTTPTimeoutDefault trusted) ex) in
  Forall (fun e => e = EvGet (cfAPI ips) 5000000000 \/
                   e = EvLog "failed to close response body") evs /\
  filter is_Do_call evs
  = (if reaches_Do ex then [EvGet (cfAPI ips) 5000000000] else []) /\
  filter is_update_failure evs = [].
Proof.
  cbv zeta. unfold Update, fetch.
  cbn [CTXTrustedIPs CTXHTTPTimeout createContext].
  change (wrap64 (HTTPTimeoutDefault * time.Second)) with 5000000000.
  destruct ex as [| |c s b ce]; cbn [fst snd reaches_Do].
  - repeat split; constructor.
  - repeat split; try reflexivity.
    repeat (apply Forall_cons; [first [left; reflexivity|right; reflexivity]|]).
    apply Forall_nil.
  - set (r := if negb (c =? 200) then _ else _). destruct r; cbn [snd];
      destruct ce; cbn [filter is_Do_call is_update_failure String.eqb];
      repeat split; try reflexivity;
      repeat (apply Forall_cons; [first [left; reflexivity|right; reflexivity]|]);
      apply Forall_nil.
Qed.

Lemma refreshLoop_for_events (cf : CloudFrontGate) (sel : list Select)
    (ips : ipstore) :
  let evs := snd (refreshLoop_for cf sel ips) in
  filter is_Do_call evs
  = map (fun _ => EvGet (cfAPI ips) 5000000000) (filter reaches_Do (ticks sel)) /\
  List.length (filter is_update_failure evs)
  = List.length (filter gives_no_ranges (ticks sel)).
Proof.
  cbv zeta. revert ips. induction sel as [|[|ex] sel IH]; intros ips.
  - split; reflexivity.
  - split; reflexivity.
  - cbn [refreshLoop_for ticks].
    pose proof (Update_events ips (trustedIPs cf) ex) as (_ & R & F).
    pose proof (Update_cfAPI ips (createContext HTTPTimeoutDefault (trustedIPs cf)) ex) as C.
    pose proof (proj2 (Update_fetched_ranges ips HTTPTimeoutDefault (trustedIPs cf) ex)) as G.
    cbv zeta in R, F.
    destruct (Update ips _ ex) as [[err ips1] evs]. cbn [fst snd] in *.
    specialize (IH ips1). rewrite C in IH.
    destruct (refreshLoop_for cf sel ips1) as [[st ips2] evs']. cbn [fst snd] in *.
    destruct IH as [IH1 IH2].
    rewrite !filter_app, R, F, IH1. cbn [filter app]. split.
    + destruct err; cbn [filter is_Do_call app];
        destruct (reaches_Do ex); reflexivity.
    + rewrite !length_app, IH2.
      destruct err as [e|]; destruct (gives_no_ranges ex) eqn:Eg;
        cbn [filter is_update_failure String.eqb List.length app]; try reflexivity.
      * assert (Some e = None) by (apply G; reflexivity). discriminate.
      * assert (true = false) by (apply G; reflexivity). discriminate.
Qed.

(** [refreshLoop] calls [client.Do] once for each tick, unless the request
    cannot be built, each time with a GET request built for the address of
    the store on a client with a timeout of five seconds, and logs one
    failure for each refresh that gave no ranges. *)
Theorem refreshLoop_events (cf : CloudFrontGate) (sel : list Select)
    (ips : ipstore) :
  0 < refreshInterval cf ->
  filter is_Do_call (snd (refreshLoop cf sel ips))
  = map (fun _ => EvGet (cfAPI ips) 5000000000) (filter reaches_Do (ticks sel)) /\
  List.length (filter is_update_failure (snd (refreshLoop cf sel ips)))
  = List.length (filter gives_no_ranges (ticks sel)).
Proof.
  intros Hi. unfold refreshLoop.
  destruct (Z.leb_spec (refreshInterval cf) 0) as [Hle|_]; [lia|].
  apply refreshLoop_for_events.
Qed.

Lemma refreshLoop_events_witness :
  filter is_Do_call
    (snd (refreshLoop sample_gate
            [Tick DoError; Tick NewRequestError; Tick sample_response; Done]
            sample_store))
  = map (fun _ => EvGet (cfAPI sample_store) 5000000000)
      (filter reaches_Do
         (ticks [Tick DoError; Tick NewRequestError; Tick sample_response; Done])) /\
  List.length
    (filter is_update_failure
       (snd (refreshLoop sample_gate
               [Tick DoError; Tick NewRequestError; Tick sample_response; Done]
               sample_store)))
  = List.length
      (filter gives_no_ranges
         (ticks [Tick DoError; Tick NewRequestError; Tick sample_response; Done])).
Proof.
  exact (refreshLoop_events sample_gate
           [Tick DoError; Tick NewRequestError; Tick sample_response; Done]
           sample_store eq_refl).
Defined.

(** ** [New] *)

(** What [New] returns when it returns a gate. *)
Lemma New_Ok (config : Config) (name : string) (ex : Exchange)
    (cf : CloudFrontGate) (ips : ipstore) :
  fst (New config name ex) = Ok (cf, ips) ->
  exists d fetched,
    time.ParseDuration (RefreshInterval config) = Some d /\
    parseCIDRs (AllowedIPs config) = Ok (trustedIPs cf) /\
    fetched_ranges ex = Some fetched /\
    cf = {| name := name; refreshInterval := d; trustedIPs := trustedIPs cf |} /\
    ips = Store (newIPStore CFAPI) (trustedIPs cf ++ fetched).
Proof.
  unfold New.
  destruct (time.ParseDuration (RefreshInterval config)) as [d|]; [|discriminate].
  destruct (parseCIDRs (AllowedIPs config)) as [trusted|e]; [|discriminate].
  cbv zeta.
  pose proof (Update_fetched_ranges (newIPStore CFAPI) HTTPTimeoutDefault trusted ex)
    as [S G].
  destruct (Update _ _ ex) as [[[err|] ips1] evs]; cbn [fst snd] in *;
    intros H; [discriminate H|].
  injection H as <- <-. exists d. unfold gives_no_ranges in G.
  destruct (fetched_ranges ex) as [l|].
  - exists l. subst ips1. auto.
  - assert (K : true = false) by (apply G; reflexivity). discriminate K.
Qed.

(** An invalid configuration makes [New] fail before any request is sent,
    whatever the API would answer: an interval that does not parse, and then
    an entry of the allowed addresses that has no network; the error names
    the first such entry. *)
Theorem New_invalid_config (config : Config) (name : string) (ex : Exchange) :
  (time.ParseDuration (RefreshInterval config) = None ->
   New config name ex
   = (Err (fmt_Errorf "failed to parse refresh interval"
             (lib_error "time.ParseDuration")), [])) /\
  (forall before bad after nets,
     time.ParseDuration (RefreshInterval config) <> None ->
     AllowedIPs config = before ++ bad :: after ->
     Forall2 parses_to before nets ->
     net.ParseCIDR (cidr_text bad) = None ->
     New config name ex
     = (Err (fmt_Errorf "failed to parse trusted IPs"
               (fmt_Errorf "failed to parse CIDR" (lib_error (cidr_text bad)))),
        [])).
Proof.
  unfold New. split.
  - intros ->. reflexivity.
  - intros before bad after nets Hd Ha Hf Hb.
    destruct (time.ParseDuration (RefreshInterval config)); [|contradiction].
    assert (E : parseCIDRs (AllowedIPs config)
                = Err (fmt_Errorf "failed to parse CIDR" (lib_error (cidr_text bad)))).
    { apply parseCIDRs_loop_Err. exists before, bad, after, nets. auto. }
    rewrite E. reflexivity.
Qed.

(** The default configuration is valid: with it [New] fails only when the
    first fetch gives no ranges, and otherwise returns a gate that refreshes
    every 24 hours and trusts the fetched ranges only. *)
Theorem New_default_config (name : string) (ex : Exchange) :
  match fetched_ranges ex with
  | Some l =>
      fst (New CreateConfig name ex)
      = Ok ({| name := name; refreshInterval := 24 * time.Hour; trustedIPs := [] |},
            Store (newIPStore CFAPI) l)
  | None =>
      exists e,
        fst (New CreateConfig name ex)
        = Err (fmt_Errorf "failed to update CloudFront IP ranges" e)
  end.
Proof.
  unfold New.
  change (time.ParseDuration (RefreshInterval CreateConfig))
    with (Some (24 * time.Hour)).
  change (parseCIDRs (AllowedIPs CreateConfig)) with (@Ok (list net.IPNet) []).
  cbv iota beta zeta.
  pose proof (Update_fetched_ranges (newIPStore CFAPI) HTTPTimeoutDefault [] ex)
    as [S G].
  unfold gives_no_ranges in G.
  destruct (Update _ _ ex) as [[[err|] ips1] evs]; cbn [fst snd] in *;
    destruct (fetched_ranges ex) as [l|].
  - assert (Some err = None) by (apply G; reflexivity). discriminate.
  - eauto.
  - subst ips1. reflexivity.
  - assert (true = false) by (apply G; reflexivity). discriminate.
Qed.

(** ** Runs of the program *)

Lemma refreshLoop_for_events_Forall (cf : CloudFrontGate) (sel : list Select)
    (ips : ipstore) :
  Forall (fun e => e = EvGet (cfAPI ips) 5000000000 \/ exists msg, e = EvLog msg)
    (snd (refreshLoop_for cf sel ips)).
Proof.
  revert ips. induction sel as [|[|ex] sel IH]; intros ips.
  - constructor.
  - constructor.
  - cbn [refreshLoop_for].
    pose proof (Update_events ips (trustedIPs cf) ex) as (F & _ & _).
    pose proof (Update_cfAPI ips (createContext HTTPTimeoutDefault (trustedIPs cf)) ex) as C.
    cbv zeta in F.
    destruct (Update ips _ ex) as [[err ips1] evs]. cbn [fst snd] in *.
    specialize (IH ips1). rewrite C in IH.
    destruct (refreshLoop_for cf sel ips1) as [[st ips2] evs']. cbn [fst snd] in *.
    apply Forall_app. split.
    + eapply Forall_impl; [|exact F]. intros e [->| ->]; eauto.
    + apply Forall_app. split; [|exact IH].
      destruct err; [|constructor].
      apply Forall_cons; [right; eexists; reflexivity|constructor].
Qed.

(** Every call of [client.Do] that the program makes, in [New] and in any
    run of [refreshLoop], has a GET request built for the CloudFront list and
    a client with a timeout of five seconds; all its other events are lines
    of the log. *)
Theorem program_Do_calls (config : Config) (name : string) (ex : Exchange)
    (sel : list Select) (cf : CloudFrontGate) (ips : ipstore) :
  fst (New config name ex) = Ok (cf, ips) ->
  Forall (fun e => e = EvGet CFAPI 5000000000 \/ exists msg, e = EvLog msg)
    (snd (New config name ex) ++ snd (refreshLoop cf sel ips)).
Proof.
  intros H. destruct (New_Ok _ _ _ _ _ H) as (d & f & Hd & Hp & _ & _ & Hi).
  apply Forall_app. split.
  - unfold New. rewrite Hd, Hp. cbv zeta.
    pose proof (Update_events (newIPStore CFAPI) (trustedIPs cf) ex) as (F & _ & _).
    cbv zeta in F.
    destruct (Update _ _ ex) as [[[err|] ips1] evs]; cbn [fst snd] in *;
      (eapply Forall_impl; [|exact F]); intros e [->| ->]; eauto.
  - unfold refreshLoop. destruct (refreshInterval cf <=? 0); [constructor|].
    pose proof (refreshLoop_for_events_Forall cf sel ips) as F.
    replace (cfAPI ips) with CFAPI in F by (rewrite Hi; reflexivity). exact F.
Qed.

Lemma program_Do_calls_witness :
  Forall (fun e => e = EvGet CFAPI 5000000000 \/ exists msg, e = EvLog msg)
    (snd (New sample_config "gate" sample_response)
     ++ snd (refreshLoop sample_gate [Tick DoError; Tick sample_response; Done]
               scenario_store)).
Proof.
  exact (program_Do_calls sample_config "gate" sample_response
           [Tick DoError; Tick sample_response; Done] sample_gate scenario_store
           eq_refl).
Defined.

(** The operator's ranges stay trusted: after [New], and after any run of
    [refreshLoop], whether its refreshes fail or not, the store contains every
    address that one of the operator's ranges contains. *)
Theorem operator_ranges_stay_trusted (config : Config) (name : string)
    (ex : Exchange) (sel : list Select) (cf : CloudFrontGate) (ips : ipstore)
    (ip : net.IP) :
  fst (New config name ex) = Ok (cf, ips) ->
  existsb (fun ipNet => net.Contains ipNet ip) (trustedIPs cf) = true ->
  Contains ips ip = true /\
  Contains (snd (fst (refreshLoop cf sel ips))) ip = true.
Proof.
  intros H Hc. destruct (New_Ok _ _ _ _ _ H) as (d & f & _ & _ & _ & _ & ->).
  assert (K : forall l, Contains (Store (newIPStore CFAPI) (trustedIPs cf ++ l)) ip = true).
  { intros l. unfold Contains. cbn [Load Store Value].
    rewrite Contains_loop_existsb, existsb_app, Hc. reflexivity. }
  split; [apply K|].
  unfold refreshLoop. destruct (refreshInterval cf <=? 0); [apply K|].
  rewrite (refreshLoop_for_last_fetched cf sel _ None).
  destruct (last_fetched (ticks sel) None); apply K.
Qed.

Lemma operator_ranges_stay_trusted_witness :
  Contains scenario_store [192; 168; 1; 5] = true /\
  Contains (snd (fst (refreshLoop sample_gate [Tick DoError; Tick sample_response]
                        scenario_store))) [192; 168; 1; 5] = true.
Proof.
  exact (operator_ranges_stay_trusted sample_config "gate" sample_response
           [Tick DoError; Tick sample_response] sample_gate scenario_store
           [192; 168; 1; 5] eq_refl eq_refl).
Defined.

(** ** [ServeHTTP] *)

(** [ServeHTTP] by the host part of the remote address. *)
Lemma ServeHTTP_host (cf : CloudFrontGate) (ips : ipstore) (req : Request)
    (host : string) :
  host_part (RemoteAddr req) host ->
  ServeHTTP cf ips req
  = match net.ParseIP host with
    | None => (Forbidden "Forbidden" StatusForbidden, ips)
    | Some remoteIP =>
        if negb (Contains ips remoteIP)
        then (Forbidden "Forbidden" StatusForbidden, ips)
        else (Next req, ips)
    end.
Proof.
  intros Hh. destruct (Split_colon (RemoteAddr req)) as (h & rest & Hs & Hh').
  rewrite (host_part_unique _ _ _ Hh Hh'). unfold ServeHTTP. rewrite Hs.
  reflexivity.
Qed.

(** The port plays no part: two requests whose remote addresses have the
    same host part are both handed on or both refused. *)
Theorem ServeHTTP_ignores_port (cf : CloudFrontGate) (ips : ipstore)
    (req1 req2 : Request) (host : string) :
  host_part (RemoteAddr req1) host ->
  host_part (RemoteAddr req2) host ->
  (fst (ServeHTTP cf ips req1) = Next req1 <->
   fst (ServeHTTP cf ips req2) = Next req2).
Proof.
  intros H1 H2. rewrite (ServeHTTP_host cf ips req1 host H1).
  rewrite (ServeHTTP_host cf ips req2 host H2).
  destruct (net.ParseIP host) as [ip|]; [|split; discriminate].
  destruct (Contains ips ip); cbn [negb fst]; split; try discriminate; reflexivity.
Qed.

Lemma ServeHTTP_ignores_port_witness :
  fst (ServeHTTP sample_gate scenario_store (mkRequest "GET" "/" "203.0.113.9:1"))
    = Next (mkRequest "GET" "/" "203.0.113.9:1") <->
  fst (ServeHTTP sample_gate scenario_store (mkRequest "POST" "/x" "203.0.113.9:65535"))
    = Next (mkRequest "POST" "/x" "203.0.113.9:65535").
Proof.
  apply (ServeHTTP_ignores_port sample_gate scenario_store
           (mkRequest "GET" "/" "203.0.113.9:1")
           (mkRequest "POST" "/x" "203.0.113.9:65535") "203.0.113.9").
  - split; [reflexivity|]. right. exists "1". reflexivity.
  - split; [reflexivity|]. right. exists "65535". reflexivity.
Defined.

Lemma ParseAddr_scan_plain (rest s : string) :
  netip.IndexByteString rest "." = None ->
  netip.IndexByteString rest ":" = None ->
  netip.ParseAddr_scan rest s = None.
Proof.
  induction rest as [|c rest IH]; cbn [netip.ParseAddr_scan netip.IndexByteString];
    [reflexivity|].
  destruct (Ascii.eqb c "."); [discriminate|].
  destruct (Ascii.eqb c ":"); [discriminate|].
  destruct (netip.IndexByteString rest "."); [discriminate|].
  destruct (netip.IndexByteString rest ":"); [discriminate|].
  intros _ _. destruct (Ascii.eqb c "%"); [reflexivity|]. apply IH; reflexivity.
Qed.

(** A remote address whose host part has no dot is refused, whatever the
    store holds: an empty address, a host name such as [localhost], a
    number. *)
Theorem ServeHTTP_rejects_dotless_host (cf : CloudFrontGate) (ips : ipstore)
    (req : Request) (host : string) :
  host_part (RemoteAddr req) host ->
  netip.IndexByteString host "." = None ->
  ServeHTTP cf ips req = (Forbidden "Forbidden" StatusForbidden, ips).
Proof.
  intros Hh Hd. rewrite (ServeHTTP_host cf ips req host Hh).
  unfold net.ParseIP, netip.ParseAddr.
  rewrite (ParseAddr_scan_plain host host Hd (proj1 Hh)). reflexivity.
Qed.

Lemma ServeHTTP_rejects_dotless_host_witness :
  ServeHTTP sample_gate scenario_store (mkRequest "GET" "/" "localhost:8080")
  = (Forbidden "Forbidden" StatusForbidden, scenario_store).
Proof.
  apply (ServeHTTP_rejects_dotless_host sample_gate scenario_store
           (mkRequest "GET" "/" "localhost:8080") "localhost").
  - split; [reflexivity|]. right. exists "8080". reflexivity.
  - reflexivity.
Defined.

Lemma parseIPv6_not_Addr4 (s : string) (b : list Z) :
  netip.parseIPv6 s <> Some (netip.Addr4 b).
Proof.
  unfold netip.parseIPv6.
  repeat match goal with
         | |- context [match ?x with _ => _ end] => destruct x
         end; discriminate.
Qed.

(** Text without a colon that [ParseAddr] accepts is an IPv4 address. *)
Lemma ParseAddr_scan_no_colon (rest s : string) (a : netip.Addr) :
  netip.IndexByteString rest ":" = None ->
  netip.ParseAddr_scan rest s = Some a ->
  exists b, a = netip.Addr4 b /\
            netip.parseIPv4_loop s true false [] 0 0 = Some b.
Proof.
  induction rest as [|c rest IH]; cbn [netip.ParseAddr_scan netip.IndexByteString];
    [discriminate|].
  destruct (Ascii.eqb c ".").
  { intros _. unfold netip.parseIPv4.
    destruct (netip.parseIPv4_loop s true false [] 0 0) as [b|]; [|discriminate].
    intros H. injection H as <-. eauto. }
  destruct (Ascii.eqb c ":"); [discriminate|].
  destruct (netip.IndexByteString rest ":"); [discriminate|].
  intros _. destruct (Ascii.eqb c "%"); [discriminate|]. apply IH. reflexivity.
Qed.

(** The gate hands on requests from IPv4 addresses only: when it calls the
    next handler, the host part of the remote address is an IPv4 address that
    the store contains, and no IPv6 range has a part in that. *)
Theorem ServeHTTP_admits_only_IPv4 (cf : CloudFrontGate) (ips : ipstore)
    (req : Request) :
  fst (ServeHTTP cf ips req) = Next req ->
  exists host b,
    host_part (RemoteAddr req) host /\
    net.ParseIP host = Some (netip.v4InV6Prefix ++ b) /\
    List.length b = 4%nat /\
    Contains ips (netip.v4InV6Prefix ++ b) = true /\
    forall n base ones,
      prefix n IPv6 base ones -> net.Contains n (netip.v4InV6Prefix ++ b) = false.
Proof.
  destruct (Split_colon (RemoteAddr req)) as (host & rest & Hs & Hh).
  rewrite (ServeHTTP_host cf ips req host Hh).
  destruct (net.ParseIP host) as [ip|] eqn:Ep; [|discriminate].
  destruct (Contains ips ip) eqn:Ec; [|discriminate]. intros _.
  assert (Ep' := Ep). unfold net.ParseIP, netip.ParseAddr in Ep'.
  destruct (netip.ParseAddr_scan host host) as [a|] eqn:Ea; [|discriminate].
  destruct (ParseAddr_scan_no_colon host host a (proj1 Hh) Ea) as (b & -> & Hb).
  cbn [netip.Zone netip.As16 String.length Nat.eqb negb] in Ep'.
  injection Ep' as Ei. subst ip.
  destruct (parseIPv4_bytes host b Hb) as [L B].
  exists host, b.
  split; [exact Hh|]. split; [exact Ep|]. split; [exact L|]. split; [exact Ec|].
  intros n base ones Hp.
  destruct (net.Contains n (netip.v4InV6Prefix ++ b)) eqn:E; [|reflexivity].
  apply (net_Contains_prefix n _ IPv6 IPv4 base ones (number b) Hp) in E.
  - destruct E as [E _]. discriminate.
  - apply address_4in6; assumption.
Qed.

Lemma ServeHTTP_admits_only_IPv4_witness :
  exists host b,
    host_part "192.168.1.5:443" host /\
    net.ParseIP host = Some (netip.v4InV6Prefix ++ b) /\
    List.length b = 4%nat /\
    Contains scenario_store (netip.v4InV6Prefix ++ b) = true /\
    forall n base ones,
      prefix n IPv6 base ones -> net.Contains n (netip.v4InV6Prefix ++ b) = false.
Proof.
  exact (ServeHTTP_admits_only_IPv4 sample_gate scenario_store
           (mkRequest "GET" "/" "192.168.1.5:443") eq_refl).
Defined.

(** ** Allowed addresses at the gate *)

Lemma parseIPv4_loop_no_colon (s : string) (first prevDot : bool)
    (fields : list Z) (val digLen : Z) (out : list Z) :
  netip.parseIPv4_loop s first prevDot fields val digLen = Some out ->
  netip.IndexByteString s ":" = None.
Proof.
  revert first prevDot fields val digLen.
  induction s as [|c s IH]; intros first prevDot fields val digLen;
    cbn [netip.parseIPv4_loop netip.IndexByteString]; [reflexivity|].
  destruct (isDigit c) eqn:Ed.
  - destruct ((digLen =? 1) && (val =? 0)); [discriminate|].
    destruct (_ >? 255); [discriminate|].
    intros H. rewrite (IH _ _ _ _ _ H).
    destruct (Ascii.eqb_spec c ":") as [->|]; [discriminate Ed|reflexivity].
  - destruct (Ascii.eqb_spec c ".") as [->|]; [|discriminate].
    destruct (first || (String.length s =? 0)%nat || prevDot); [discriminate|].
    destruct (_ =? 3); [discriminate|].
    intros H. rewrite (IH _ _ _ _ _ H). reflexivity.
Qed.

Lemma ParseAddr_Addr4 (s : string) (b : list Z) :
  netip.ParseAddr s = Some (netip.Addr4 b) ->
  netip.parseIPv4_loop s true false [] 0 0 = Some b.
Proof.
  unfold netip.ParseAddr. generalize s at 1. intros rest.
  induction rest as [|c rest IH]; cbn [netip.ParseAddr_scan]; [discriminate|].
  destruct (Ascii.eqb c ".").
  { unfold netip.parseIPv4.
    destruct (netip.parseIPv4_loop s true false [] 0 0); [|discriminate].
    intros H. injection H as <-. reflexivity. }
  destruct (Ascii.eqb c ":").
  { intros H. destruct (parseIPv6_not_Addr4 s b H). }
  destruct (Ascii.eqb c "%"); [discriminate|]. exact IH.
Qed.

(** The text before the slash of what [parseCIDRs] gives to
    [net.ParseCIDR] is the address that the entry names. *)
Lemma address_text_cidr_text (entry : string) (i : nat) :
  netip.IndexByteString (cidr_text entry) "/" = Some i ->
  take i (cidr_text entry) = address_text entry.
Proof.
  unfold cidr_text, address_text, strings.Contains. rewrite Index_byte.
  destruct (netip.IndexByteString entry "/") as [j|] eqn:E; cbn [negb].
  - rewrite E. intros H. injection H as <-. reflexivity.
  - change (entry ++ "/32")%string with (entry ++ String "/" "32")%string.
    rewrite (IndexByteString_app entry "32" "/" E).
    intros H. injection H as <-. apply take_app.
Qed.

Lemma Contains_loop_masked (b m : list Z) :
  List.length b = List.length m ->
  net.Contains_loop (net.andBytes b m) m b = true.
Proof.
  revert m. induction b as [|x b IH]; intros [|y m] H; try discriminate;
    cbn [net.andBytes net.Contains_loop]; [reflexivity|].
  rewrite <- Z.land_assoc, Z.land_diag, Z.eqb_refl. cbn [negb].
  apply IH. simpl in H. lia.
Qed.

(** The range of an entry that names an IPv4 address contains that
    address. *)
Lemma entry_contains_its_address (entry : string) (n : net.IPNet) (b : list Z) :
  parses_to entry n ->
  netip.ParseAddr (address_text entry) = Some (netip.Addr4 b) ->
  net.Contains n (netip.v4InV6Prefix ++ b) = true.
Proof.
  intros Hp Ha.
  destruct (ParseCIDR_shape _ _ Hp) as (i & b' & ones & Hi & B & Hc).
  rewrite (address_text_cidr_text entry i Hi), Ha in Hc.
  destruct Hc as [(E & L & Ho & ->)|(E & _)]; [|discriminate].
  injection E as <-.
  unfold net.Contains. rewrite <- CIDRMask_32 by lia.
  rewrite networkNumberAndMask_4; [|rewrite andBytes_length|lia];
    rewrite ?CIDRMask_32, ?CIDRMask_loop_length by lia; auto.
  rewrite (To4_4in6 b L), andBytes_length, L
    by (rewrite CIDRMask_loop_length; exact L).
  cbn [Nat.eqb negb]. apply Contains_loop_masked.
  rewrite CIDRMask_loop_length. exact L.
Qed.

Lemma Forall2_In_l {A B : Type} (R : A -> B -> Prop) (l : list A) (l' : list B)
    (x : A) :
  Forall2 R l l' -> In x l -> exists y, In y l' /\ R x y.
Proof.
  induction 1 as [|a b l l' Hab _ IH]; intros Hin; [destruct Hin|].
  destruct Hin as [->|Hin].
  - exists b. split; [left; reflexivity|exact Hab].
  - destruct (IH Hin) as (y & Hy & HR). exists y. split; [right; exact Hy|exact HR].
Qed.

(** An address that the operator allows is let through: for an entry of the
    allowed addresses that names an IPv4 address, alone or with a prefix
    length, a request from that address, with any port, is handed on, after
    [New] and after any run of [refreshLoop]. *)
Theorem gate_admits_allowed_IPv4 (config : Config) (name : string)
    (ex : Exchange) (sel : list Select) (cf : CloudFrontGate) (ips : ipstore)
    (entry port : string) (b : list Z) (method url : string) :
  fst (New config name ex) = Ok (cf, ips) ->
  In entry (AllowedIPs config) ->
  netip.ParseAddr (address_text entry) = Some (netip.Addr4 b) ->
  forall ips',
    ips' = ips \/ ips' = snd (fst (refreshLoop cf sel ips)) ->
    ServeHTTP cf ips' (mkRequest method url (address_text entry ++ String ":" port))
    = (Next (mkRequest method url (address_text entry ++ String ":" port)), ips').
Proof.
  intros HN Hin Ha ips' Hi.
  destruct (New_Ok _ _ _ _ _ HN) as (d & f & _ & Hp & _ & _ & Hs).
  apply parseCIDRs_Forall2 in Hp.
  destruct (Forall2_In_l _ _ _ entry Hp Hin) as (n & Hn & Hpn).
  pose proof (entry_contains_its_address entry n b Hpn Ha) as Hc.
  assert (Hex : existsb (fun ipNet => net.Contains ipNet (netip.v4InV6Prefix ++ b))
                  (trustedIPs cf) = true).
  { apply existsb_exists. exists n. auto. }
  assert (Hst : Contains ips' (netip.v4InV6Prefix ++ b) = true).
  { assert (K : forall l, Contains (Store (newIPStore CFAPI) (trustedIPs cf ++ l))
                            (netip.v4InV6Prefix ++ b) = true).
    { intros l. unfold Contains. cbn [Load Store Value].
      rewrite Contains_loop_existsb, existsb_app, Hex. reflexivity. }
    destruct Hi as [->| ->]; [rewrite Hs; apply K|].
    unfold refreshLoop. destruct (refreshInterval cf <=? 0); [rewrite Hs; apply K|].
    rewrite Hs, (refreshLoop_for_last_fetched cf sel _ None).
    destruct (last_fetched (ticks sel) None); apply K. }
  pose proof (ParseAddr_Addr4 _ _ Ha) as H4.
  rewrite (ServeHTTP_host cf ips' _ (address_text entry)).
  - unfold net.ParseIP. rewrite Ha. cbn [netip.Zone netip.As16 String.length Nat.eqb negb].
    rewrite Hst. reflexivity.
  - split; [exact (parseIPv4_loop_no_colon _ _ _ _ _ _ _ H4)|].
    right. exists port. reflexivity.
Qed.

Lemma gate_admits_allowed_IPv4_witness :
  ServeHTTP sample_gate scenario_store (mkRequest "GET" "/" "192.168.1.0:443")
  = (Next (mkRequest "GET" "/" "192.168.1.0:443"), scenario_store).
Proof.
  exact (gate_admits_allowed_IPv4 sample_config "gate" sample_response []
           sample_gate scenario_store "192.168.1.0/24" "443" [192; 168; 1; 0]
           "GET" "/" eq_refl (or_introl eq_refl) eq_refl scenario_store
           (or_introl eq_refl)).
Defined.

(** ** The refresh interval *)

Lemma ParseDuration_loop_range (fuel : nat) (s : string) (d0 d : Z) :
  0 <= d0 <= 2 ^ 63 ->
  time.ParseDuration_loop fuel s d0 = Some d -> 0 <= d <= 2 ^ 63.
Proof.
  revert s d0. induction fuel as [|fuel IH]; intros s d0 H0.
  - destruct s; cbn [time.ParseDuration_loop]; [|discriminate].
    intros H. injection H as <-. exact H0.
  - destruct s as [|c0 s0]; cbn [time.ParseDuration_loop].
    { intros H. injection H as <-. exact H0. }
    destruct (negb (Ascii.eqb c0 "." || isDigit c0)); [discriminate|].
    destruct (time.leadingInt (String c0 s0) 0) as [[v s1]|]; [|discriminate].
    match goal with
    | |- (match ?X with _ => _ end) = _ -> _ =>
        destruct X as [[[f scale] post] s2]
    end.
    destruct (negb _ && negb post); [discriminate|].
    destruct (_ =? 0)%nat; [discriminate|].
    destruct (time.unitMap _) as [unit|]; [|discriminate].
    destruct (v >? 2 ^ 63 / unit); [discriminate|].
    match goal with
    | |- (if ?c then _ else _) = _ -> _ => destruct c; [discriminate|]
    end.
    match goal with
    | |- (if ?x >? 2 ^ 63 then _ else _) = _ -> _ =>
        destruct (Z.gtb_spec x (2 ^ 63)) as [?|Hle]; [discriminate|];
        apply IH; split; [apply Z.mod_pos_bound; lia|exact Hle]
    end.
Qed.

Lemma ParseDuration_range (s : string) (d : Z) :
  time.ParseDuration s = Some d -> - 2 ^ 63 <= d <= 2 ^ 63 - 1.
Proof.
  unfold time.ParseDuration.
  match goal with
  | |- (let '(neg, s) := ?X in _) = _ -> _ => destruct X as [neg s1]
  end.
  destruct (String.eqb s1 "0"); [intros H; injection H as <-; lia|].
  destruct (String.eqb s1 ""); [discriminate|].
  destruct (time.ParseDuration_loop (String.length s1) s1 0) as [d1|] eqn:E;
    [|discriminate].
  apply ParseDuration_loop_range in E; [|lia].
  destruct neg.
  - intros Hn. injection Hn as <-. lia.
  - destruct (Z.gtb_spec d1 (2 ^ 63 - 1)) as [?|Hle]; [discriminate|].
    intros Hn. injection Hn as <-. lia.
Qed.

(** The interval of a gate that [New] returns is a 64-bit duration: the
    nanoseconds that [time.ParseDuration] returns lie between [-2^63] and
    [2^63 - 1], whatever text the configuration holds. *)
Theorem New_interval_int64 (config : Config) (name : string) (ex : Exchange)
    (cf : CloudFrontGate) (ips : ipstore) :
  fst (New config name ex) = Ok (cf, ips) ->
  time.ParseDuration (RefreshInterval config) = Some (refreshInterval cf) /\
  - 2 ^ 63 <= refreshInterval cf <= 2 ^ 63 - 1.
Proof.
  intros H. destruct (New_Ok _ _ _ _ _ H) as (d & f & Hd & _ & _ & Hc & _).
  rewrite Hc. cbn [refreshInterval]. split; [exact Hd|].
  exact (ParseDuration_range _ _ Hd).
Qed.

Lemma New_interval_int64_witness :
  time.ParseDuration (RefreshInterval sample_config)
    = Some (refreshInterval sample_gate) /\
  - 2 ^ 63 <= refreshInterval sample_gate <= 2 ^ 63 - 1.
Proof.
  exact (New_interval_int64 sample_config "gate" sample_response sample_gate
           scenario_store eq_refl).
Defined.

Lemma leadingInt_all_digits (s : string) (x v : Z) (rest : string) :
  all_digits s = true -> time.leadingInt s x = Some (v, rest) -> rest = "".
Proof.
  revert x. induction s as [|c s IH]; intros x; cbn [all_digits time.leadingInt].
  - intros _ H. injection H as _ <-. reflexivity.
  - intros Hd. apply andb_true_iff in Hd. destruct Hd as [Hc Hs]. rewrite Hc.
    cbn [negb]. destruct (x >? 2 ^ 63 / 10); [discriminate|].
    destruct (_ >? 2 ^ 63); [discriminate|]. apply IH. exact Hs.
Qed.

Lemma ParseDuration_unitless (s : string) :
  all_digits s = true -> s <> "0" -> time.ParseDuration s = None.
Proof.
  intros Hd Hz. destruct s as [|c s]; [reflexivity|].
  assert (Hc : isDigit c = true).
  { cbn [all_digits] in Hd. apply andb_true_iff in Hd. tauto. }
  unfold time.ParseDuration.
  destruct (Ascii.eqb_spec c "-") as [->|_]; [discriminate Hc|].
  destruct (Ascii.eqb_spec c "+") as [->|_]; [discriminate Hc|].
  cbn [orb]. apply String.eqb_neq in Hz. rewrite Hz.
  change (String.eqb (String c s) "") with false. cbv iota.
  cbn [String.length time.ParseDuration_loop]. rewrite Hc, orb_true_r. cbn [negb].
  destruct (time.leadingInt (String c s) 0) as [[v s1]|] eqn:E; [|reflexivity].
  rewrite (leadingInt_all_digits _ _ _ _ Hd E). reflexivity.
Qed.

(** A refresh interval of digits only, without a unit, is refused: [New]
    returns the error of the interval and sends no request.  The one
    exception is ["0"], which [time.ParseDuration] reads as zero. *)
Theorem New_rejects_unitless_interval (config : Config) (name : string)
    (ex : Exchange) :
  all_digits (RefreshInterval config) = true ->
  RefreshInterval config <> "0" ->
  New config name ex
  = (Err (fmt_Errorf "failed to parse refresh interval"
            (lib_error "time.ParseDuration")), []).
Proof.
  intros Hd Hz. unfold New. rewrite (ParseDuration_unitless _ Hd Hz). reflexivity.
Qed.

Lemma New_rejects_unitless_interval_witness :
  New {| RefreshInterval := "3600"; AllowedIPs := [] |} "gate" sample_response
  = (Err (fmt_Errorf "failed to parse refresh interval"
            (lib_error "time.ParseDuration")), []).
Proof.
  apply New_rejects_unitless_interval; [reflexivity|discriminate].
Defined.

(** ** A reader never waits *)

(** A call of [Contains] that has not returned can take its next step in
    every state of the system, whatever the update is doing and whatever the
    store holds; once it has loaded the slice, each of its steps leaves fewer
    steps, at most one for each range and one to return. *)
Theorem reader_never_waits (ips : ipstore) (pre post : list Concurrent.reader)
    (r : Concurrent.reader) (w : Concurrent.writer) :
  returned r = false ->
  (exists r',
     Concurrent.step (Concurrent.mkSystem ips (pre ++ r :: post) w)
       (Concurrent.mkSystem ips (pre ++ r' :: post) w)) /\
  (forall r',
     Concurrent.reader_step ips r r' ->
     match r with
     | Concurrent.RLoad ip =>
         r' = Concurrent.RReturn ip None false \/
         exists cidrs, Load ips = Some cidrs /\ r' = Concurrent.RLoop ip cidrs cidrs
     | _ => (steps_left r' < steps_left r)%nat
     end).
Proof.
  intros Hr. split.
  - assert (K : exists r', Concurrent.reader_step ips r r').
    { destruct r as [ip|ip cidrs rest|ip c b]; [| |discriminate].
      - destruct (Load ips) as [cidrs|] eqn:El.
        + eexists. apply Concurrent.RS_load. exact El.
        + eexists. apply Concurrent.RS_load_none. exact El.
      - destruct rest as [|n rest].
        + eexists. apply Concurrent.RS_end.
        + destruct (net.Contains n ip) eqn:Ec.
          * eexists. apply Concurrent.RS_hit. exact Ec.
          * eexists. apply Concurrent.RS_miss. exact Ec. }
    destruct K as [r' K]. exists r'. apply Concurrent.step_reader. exact K.
  - intros r' Hs. destruct Hs; cbn [steps_left List.length]; eauto; lia.
Qed.

Lemma reader_never_waits_witness :
  (exists r',
     Concurrent.step
       (Concurrent.mkSystem sample_store
          ([] ++ Concurrent.RLoad [203; 0; 113; 9] :: [])
          (Concurrent.WAppended2 (trustedIPs sample_gate)))
       (Concurrent.mkSystem sample_store ([] ++ r' :: [])
          (Concurrent.WAppended2 (trustedIPs sample_gate)))) /\
  (forall r',
     Concurrent.reader_step sample_store (Concurrent.RLoad [203; 0; 113; 9]) r' ->
     r' = Concurrent.RReturn [203; 0; 113; 9] None false \/
     exists cidrs,
       Load sample_store = Some cidrs /\
       r' = Concurrent.RLoop [203; 0; 113; 9] cidrs cidrs).
Proof.
  exact (reader_never_waits sample_store [] [] (Concurrent.RLoad [203; 0; 113; 9])
           (Concurrent.WAppended2 (trustedIPs sample_gate)) eq_refl).
Defined.

(** ** When the gate starts *)

(** [New] returns a gate exactly when the interval parses, every allowed
    entry has a network and the first fetch gives ranges.  The gate then has
    the given name, the parsed interval and the allowed ranges, and the store
    holds the allowed ranges followed by the fetched ones.  In every other
    case no gate is returned: the plugin does not start without the list. *)
Theorem New_succeeds_iff (config : Config) (name : string) (ex : Exchange)
    (cf : CloudFrontGate) (ips : ipstore) :
  fst (New config name ex) = Ok (cf, ips) <->
  exists d trusted fetched,
    time.ParseDuration (RefreshInterval config) = Some d /\
    parseCIDRs (AllowedIPs config) = Ok trusted /\
    fetched_ranges ex = Some fetched /\
    cf = {| name := name; refreshInterval := d; trustedIPs := trusted |} /\
    ips = Store (newIPStore CFAPI) (trusted ++ fetched).
Proof.
  split.
  - intros H. destruct (New_Ok _ _ _ _ _ H) as (d & f & Hd & Hp & Hf & Hc & Hi).
    exists d, (trustedIPs cf), f. auto.
  - intros (d & t & f & Hd & Hp & Hf & -> & ->).
    unfold New. rewrite Hd, Hp. cbv zeta.
    pose proof (Update_fetched_ranges (newIPStore CFAPI) HTTPTimeoutDefault t ex)
      as [S G].
    unfold gives_no_ranges in G. rewrite Hf in S, G.
    destruct (Update _ _ ex) as [[[err|] ips1] evs]; cbn [fst snd] in *.
    + assert (K : Some err = None) by (apply G; reflexivity). discriminate K.
    + subst ips1. reflexivity.
Qed.

(** [New] calls [client.Do] at most once: once, with a GET request built for
    the CloudFront list on a client with a timeout of five seconds, when the
    configuration is valid and the request can be built, and not at all
    otherwise. *)
Theorem New_Do_calls (config : Config) (name : string) (ex : Exchange) :
  filter is_Do_call (snd (New config name ex))
  = match time.ParseDuration (RefreshInterval config),
          parseCIDRs (AllowedIPs config) with
    | Some _, Ok _ => if reaches_Do ex then [EvGet CFAPI 5000000000] else []
    | _, _ => []
    end.
Proof.
  unfold New.
  destruct (time.ParseDuration (RefreshInterval config)); [|reflexivity].
  destruct (parseCIDRs (AllowedIPs config)) as [t|e]; [|reflexivity].
  cbv zeta.
  pose proof (Update_events (newIPStore CFAPI) t ex) as (_ & R & _).
  cbv zeta in R.
  destruct (Update _ _ ex) as [[[err|] ips1] evs]; cbn [fst snd] in *; exact R.
Qed.

(** ** Instances *)

Lemma Update_missing_key_witness :
  Update sample_store {| CTXHTTPTimeout := Some 5; CTXTrustedIPs := None |}
    sample_response
  = (Some (errors_New "invalid trusted IPs value"), sample_store, []) /\
  Update sample_store {| CTXHTTPTimeout := None; CTXTrustedIPs := Some [] |}
    sample_response
  = (Some (errors_New "invalid timeout value"), sample_store, []).
Proof.
  split.
  - apply (proj1 (Update_missing_key sample_store
                    {| CTXHTTPTimeout := Some 5; CTXTrustedIPs := None |}
                    sample_response)).
    reflexivity.
  - apply (proj2 (Update_missing_key sample_store
                    {| CTXHTTPTimeout := None; CTXTrustedIPs := Some [] |}
                    sample_response)).
    + discriminate.
    + reflexivity.
Defined.

Lemma New_invalid_config_witness :
  New {| RefreshInterval := "soon"; AllowedIPs := [] |} "gate" sample_response
  = (Err (fmt_Errorf "failed to parse refresh interval"
            (lib_error "time.ParseDuration")), []) /\
  New {| RefreshInterval := "1h";
         AllowedIPs := ["10.0.0.0/8"; "10.0.0.0/33"; "x"] |} "gate" sample_response
  = (Err (fmt_Errorf "failed to parse trusted IPs"
            (fmt_Errorf "failed to parse CIDR" (lib_error "10.0.0.0/33"))), []).
Proof.
  split.
  - apply (proj1 (New_invalid_config
                    {| RefreshInterval := "soon"; AllowedIPs := [] |} "gate"
                    sample_response)).
    reflexivity.
  - apply (proj2 (New_invalid_config
                    {| RefreshInterval := "1h";
                       AllowedIPs := ["10.0.0.0/8"; "10.0.0.0/33"; "x"] |} "gate"
                    sample_response)
             ["10.0.0.0/8"] "10.0.0.0/33" ["x"]
             [net.mkIPNet [10; 0; 0; 0] [255; 0; 0; 0]]).
    + discriminate.
    + reflexivity.
    + apply Forall2_cons; [reflexivity|apply Forall2_nil].
    + reflexivity.
Defined.

Lemma parseCIDRs_bare_IPv4_witness :
  parseCIDRs ["192.168.1.7"]
  = Ok [net.mkIPNet [192; 168; 1; 7] (net.CIDRMask 32 32)] /\
  prefix (net.mkIPNet [192; 168; 1; 7] (net.CIDRMask 32 32)) IPv4
    (number [192; 168; 1; 7]) 32 /\
  forall ip f a,
    address ip f a ->
    (net.Contains (net.mkIPNet [192; 168; 1; 7] (net.CIDRMask 32 32)) ip = true <->
     f = IPv4 /\ a = number [192; 168; 1; 7]).
Proof.
  exact (parseCIDRs_bare_IPv4 "192.168.1.7" [192; 168; 1; 7] eq_refl eq_refl).
Defined.

Lemma gate_allows_addresses_in_range_witness :
  exists host,
    host_part "203.0.113.9:1234" host /\
    (fst (ServeHTTP sample_gate scenario_store
            (mkRequest "GET" "/" "203.0.113.9:1234"))
     = Next (mkRequest "GET" "/" "203.0.113.9:1234") <->
     exists ip cidrs ipNet,
       net.ParseIP host = Some ip /\ Load scenario_store = Some cidrs /\
       In ipNet cidrs /\ contains_address ipNet ip).
Proof.
  exact (gate_allows_addresses_in_range sample_config "gate" sample_response []
           sample_gate scenario_store (mkRequest "GET" "/" "203.0.113.9:1234")
           eq_refl scenario_store (or_introl eq_refl)).
Defined.
